(** * lol-finder: the rank codec, the freshness cache, the request gate and
      the exploration search engine of [scout.js]

    The development follows the randomized variant of the engine (the one
    with [shuffleArray], match-participant expansion and the abortable
    cool-down).  Pure helpers are plain functions; everything that touches the
    module state of the script (clock, rate limiter, cache, result list,
    observers) is written in a small state-and-exception monad, with the
    provider, [Math.random] and the hooks on [global] as oracles.  The two
    unbounded constructs, the retry of [apiRequest] and the [while] loop of
    [scoutPlayers], take fuel. *)

From Stdlib Require Import ZArith QArith Ascii String List Lia Bool.
From stdpp Require Import base option list gmap strings.

Local Open Scope string_scope.
Local Open Scope list_scope.
Local Open Scope Z_scope.

(** ** JavaScript values the script computes with *)

(** The outcome of a numeric division in the script.  Finite quotients are kept
    exact; the rounding of the quotient to a binary64 is not represented. *)
Inductive JsNumber : Type :=
  | NaN
  | PosInfinity
  | NegInfinity
  | Finite (q : Q).

(** [a / b] on integer operands. *)
Definition js_div (a b : Z) : JsNumber :=
  if b =? 0 then
    if a =? 0 then NaN else if 0 <? a then PosInfinity else NegInfinity
  else Finite (inject_Z a / inject_Z b)%Q.

Definition Qlt_bool (x y : Q) : bool := negb (Qle_bool y x).

(** [x < y] where [y] is a finite number: false as soon as [x] is [NaN]. *)
Definition js_lt (x : JsNumber) (y : Q) : bool :=
  match x with
  | NaN => false
  | PosInfinity => false
  | NegInfinity => true
  | Finite q => Qlt_bool q y
  end.

(** [null] read as a number in a relational comparison is [0]. *)
Definition nullToNumber (v : option Z) : Z := default 0 v.

(** [String.prototype.toUpperCase], on the ASCII letters. *)
Definition upperAscii (c : ascii) : ascii :=
  let n := nat_of_ascii c in
  if (97 <=? n)%nat && (n <=? 122)%nat then ascii_of_nat (n - 32) else c.

Fixpoint toUpperCase (s : string) : string :=
  match s with
  | EmptyString => EmptyString
  | String c r => String (upperAscii c) (toUpperCase r)
  end.

(** [Array.prototype.indexOf]; [None] stands for [-1]. *)
Fixpoint indexOf (l : list string) (x : string) : option nat :=
  match l with
  | [] => None
  | y :: r => if String.eqb y x then Some 0%nat else S <$> indexOf r x
  end.

(** ** LP conversion system *)

Definition TIERS : list string :=
  ["IRON"; "BRONZE"; "SILVER"; "GOLD"; "PLATINUM"; "EMERALD"; "DIAMOND"].
Definition DIVISIONS : list string := ["IV"; "III"; "II"; "I"].

(** The object literal [{ tier, division, lp }].  [TIERS[i]] and
    [DIVISIONS[i]] are array reads, [None] is [undefined]. *)
Record Rank : Type := mkRank {
  tier : option string;
  division : option string;
  lp : Z
}.

Definition toTotalLP (t d : string) (points : Z) : option Z :=
  match indexOf TIERS (toUpperCase t) with
  | None => None
  | Some tierIndex =>
      match indexOf DIVISIONS (toUpperCase d) with
      | None => None
      | Some divIndex =>
          Some (Z.of_nat tierIndex * 400 + Z.of_nat divIndex * 100 + points)
      end
  end.

Definition fromTotalLP (totalLP : Z) : Rank :=
  if totalLP <? 0 then mkRank (Some "IRON") (Some "IV") 0
  else if Z.of_nat (length TIERS) * 400 <=? totalLP then
    mkRank (Some "MASTER") (Some "I") (totalLP - Z.of_nat (length TIERS) * 400)
  else
    let tierIndex := totalLP / 400 in
    let remainder := totalLP mod 400 in
    let divIndex := remainder / 100 in
    let points := remainder mod 100 in
    mkRank (TIERS !! Z.to_nat tierIndex) (DIVISIONS !! Z.to_nat divIndex) points.

(** [{ tier, division }] pairs pushed by [getTierDivisionsInRange]. *)
Definition getTierDivisionsInRange (minLP maxLP : Z) : list (string * string) :=
  flat_map (fun tierIdx =>
    flat_map (fun divIdx =>
      let tierStart := Z.of_nat tierIdx * 400 + Z.of_nat divIdx * 100 in
      let tierEnd := tierStart + 99 in
      if (minLP <=? tierEnd) && (tierStart <=? maxLP) then
        match TIERS !! tierIdx, DIVISIONS !! divIdx with
        | Some t, Some d => [(t, d)]
        | _, _ => []
        end
      else [])
      (seq 0 (length DIVISIONS)))
    (seq 0 (length TIERS)).

(** ** Documents of the provider *)

(** One element of a ranked-ladder page or of a summoner's ranked standings.
    A missing string field is the empty string, which is as falsy as
    [undefined]. *)
Module Entry.
Record t : Type := mk {
  puuid : string;
  queueType : string;
  tier : string;
  rank : string;
  leaguePoints : Z;
  wins : Z;
  losses : Z;
  hotStreak : bool;
  veteran : bool;
  freshBlood : bool
}.
End Entry.

(** A match document: [metadata.matchId], the read fields of [info], and the
    [puuid] of every participant. *)
Module Match.
Record t : Type := mk {
  matchId : string;
  gameEndTimestamp : Z;
  gameMode : string;
  queueId : Z;
  participants : list string
}.
End Match.

Record Summoner : Type := mkSummoner { summonerId : string }.
Record Account : Type := mkAccount { gameName : string; tagLine : string }.

(** The request addresses built by the [get...] wrappers. *)
Inductive Url : Type :=
  | LeagueExpUrl (queue tier division : string) (page : nat)
  | SummonerByPuuidUrl (puuid : string)
  | LeagueBySummonerUrl (summonerId : string)
  | AccountByPuuidUrl (puuid : string)
  | MatchIdsUrl (puuid : string) (count : nat) (queue : option Z)
  | MatchUrl (matchId : string).

(** An HTTP answer: the status and the parsed body, [None] for a JSON [null].
    Every request gets an answer (no network failure), bodies are taken to
    parse, and to have the shape of their endpoint. *)
Record Response (A : Type) : Type := mkResponse {
  status : Z;
  body : option A
}.
Arguments mkResponse {A} _ _.
Arguments status {A} _.
Arguments body {A} _.

Definition ok {A} (r : Response A) : bool :=
  (200 <=? status r) && (status r <=? 299).

(** ** Search results and cache records *)

(** The player object pushed to [results].  The display string [winRate]
    (a [toFixed] rendering) is not kept. *)
Module Player.
Record t : Type := mk {
  name : string;
  region : string;
  queue : string;
  rank : string;
  lp : Z;
  totalLP : option Z;
  wins : Z;
  losses : Z;
  lastActiveMinutes : Z;
  lastGameMode : string;
  hotStreak : bool;
  veteran : bool;
  freshBlood : bool;
  puuid : string;
  fromCache : bool;
  fromMatch : bool;
  updatedAt : Z
}.
End Player.

(** [{ ...player, cachedAt }], a value of the [playerCache] object. *)
Record CachedPlayer : Type := mkCached {
  cached : Player.t;
  cachedAt : Z
}.

(** ** Module state, observers and the outside world *)

Inductive Error : Type :=
  | ApiKeyInvalid
  | SearchAborted
  | ApiError (status : Z) (url : Url)
  | TypeError.

Inductive Event : Type :=
  | EvSleep (ms : Z)
  | EvFetch (url : Url)
  | EvAbortPoll (answer : bool)
  | EvRateLimit (isLimited : bool) (seconds : Z)
  | EvPlayerFound (p : Player.t)
  | EvSaveCache
  | EvConsoleError (msg : string).

(** What the script does not decide: the provider's answers (by request
    number), the draws of [Math.random] (a draw [r] selects index [r mod n]
    among [n]), and the hooks a front end may install on [global]. *)
Record Env : Type := mkEnv {
  leagueExp : nat -> string -> string -> string -> nat -> Response (list Entry.t);
  summonerByPuuid : nat -> string -> Response Summoner;
  leagueBySummoner : nat -> string -> Response (list Entry.t);
  accountByPuuid : nat -> string -> Response Account;
  matchIds : nat -> string -> nat -> option Z -> Response (list string);
  matchDetails : nat -> string -> Response Match.t;
  random : nat -> nat;
  isSearchAborted : option (nat -> bool);
  sendRateLimit : bool;
  sendPlayerFound : bool
}.

Record State : Type := mkState {
  now : Z;
  lastRequest : Z;
  requests : nat;
  draws : nat;
  polls : nat;
  playerCache : gmap string CachedPlayer;
  cacheFile : gmap string CachedPlayer;
  results : list Player.t;
  seenPuuids : gset string;
  processedMatchIds : gset string;
  trace : list Event
}.

Definition advanceClock (ms : Z) (s : State) : State :=
  mkState (now s + ms) (lastRequest s) (requests s) (draws s) (polls s)
    (playerCache s) (cacheFile s) (results s) (seenPuuids s)
    (processedMatchIds s) (trace s).
Definition stampRequest (s : State) : State :=
  mkState (now s) (now s) (requests s) (draws s) (polls s)
    (playerCache s) (cacheFile s) (results s) (seenPuuids s)
    (processedMatchIds s) (trace s).
Definition countRequest (s : State) : State :=
  mkState (now s) (lastRequest s) (S (requests s)) (draws s) (polls s)
    (playerCache s) (cacheFile s) (results s) (seenPuuids s)
    (processedMatchIds s) (trace s).
Definition countDraw (s : State) : State :=
  mkState (now s) (lastRequest s) (requests s) (S (draws s)) (polls s)
    (playerCache s) (cacheFile s) (results s) (seenPuuids s)
    (processedMatchIds s) (trace s).
Definition countPoll (s : State) : State :=
  mkState (now s) (lastRequest s) (requests s) (draws s) (S (polls s))
    (playerCache s) (cacheFile s) (results s) (seenPuuids s)
    (processedMatchIds s) (trace s).
Definition setCache (m : gmap string CachedPlayer) (s : State) : State :=
  mkState (now s) (lastRequest s) (requests s) (draws s) (polls s)
    m (cacheFile s) (results s) (seenPuuids s)
    (processedMatchIds s) (trace s).
Definition writeCacheFile (s : State) : State :=
  mkState (now s) (lastRequest s) (requests s) (draws s) (polls s)
    (playerCache s) (playerCache s) (results s) (seenPuuids s)
    (processedMatchIds s) (trace s).
Definition pushResult (p : Player.t) (s : State) : State :=
  mkState (now s) (lastRequest s) (requests s) (draws s) (polls s)
    (playerCache s) (cacheFile s) (results s ++ [p]) (seenPuuids s)
    (processedMatchIds s) (trace s).
Definition addSeen (x : string) (s : State) : State :=
  mkState (now s) (lastRequest s) (requests s) (draws s) (polls s)
    (playerCache s) (cacheFile s) (results s) ({[x]} ∪ seenPuuids s)
    (processedMatchIds s) (trace s).
Definition addProcessed (x : string) (s : State) : State :=
  mkState (now s) (lastRequest s) (requests s) (draws s) (polls s)
    (playerCache s) (cacheFile s) (results s) (seenPuuids s)
    ({[x]} ∪ processedMatchIds s) (trace s).
Definition newSearch (s : State) : State :=
  mkState (now s) (lastRequest s) (requests s) (draws s) (polls s)
    (playerCache s) (cacheFile s) [] ∅ ∅ (trace s).
Definition record (e : Event) (s : State) : State :=
  mkState (now s) (lastRequest s) (requests s) (draws s) (polls s)
    (playerCache s) (cacheFile s) (results s) (seenPuuids s)
    (processedMatchIds s) (trace s ++ [e]).

(** ** The monad of the script: state, exceptions, and running out of fuel *)

Inductive Res (A : Type) : Type :=
  | Val (a : A)
  | Throw (e : Error)
  | Diverge.
Arguments Val {A} _.
Arguments Throw {A} _.
Arguments Diverge {A}.

Definition M (A : Type) : Type := State -> Res A * State.

Definition ret {A} (a : A) : M A := fun s => (Val a, s).
Definition throw {A} (e : Error) : M A := fun s => (Throw e, s).
Definition diverge {A} : M A := fun s => (Diverge, s).
Definition bind {A B} (m : M A) (f : A -> M B) : M B :=
  fun s =>
    match m s with
    | (Val a, s') => f a s'
    | (Throw e, s') => (Throw e, s')
    | (Diverge, s') => (Diverge, s')
    end.
(** [try { m } catch (err) { h err }]: what [m] did to the state stays. *)
Definition tryCatch {A} (m : M A) (h : Error -> M A) : M A :=
  fun s =>
    match m s with
    | (Throw e, s') => h e s'
    | r => r
    end.
Definition gets {A} (f : State -> A) : M A := fun s => (Val (f s), s).
Definition modify (f : State -> State) : M unit := fun s => (Val tt, f s).

Notation "'do' x <- m ; k" := (bind m (fun x => k))
  (at level 10, x name, m at level 100, k at level 200).
Notation "'run' m ; k" := (bind m (fun _ => k))
  (at level 10, m at level 100, k at level 200).

(** [continue] and [break] of a loop body. *)
Inductive Ctl : Type := Next | Break.

Fixpoint forOf {A} (l : list A) (body : A -> M Ctl) : M unit :=
  match l with
  | [] => ret tt
  | x :: r =>
      do c <- body x;
      match c with
      | Break => ret tt
      | Next => forOf r body
      end
  end.

(** ** Player cache system *)

Definition CACHE_MAX_AGE : Z := 60 * 60 * 1000.

(** The [options] argument of [cachedPlayerMeetsCriteria]. *)
Record CacheOptions : Type := mkCacheOptions {
  activeWithinMinutes : Z;
  minWinRate : Q;
  minLP : option Z;
  maxLP : option Z
}.

(** [getCachedPlayer] at clock reading [t]. *)
Definition cacheLookup (t : Z) (m : gmap string CachedPlayer) (puuid : string)
  : option CachedPlayer :=
  match m !! puuid with
  | None => None
  | Some c => if CACHE_MAX_AGE <? t - cachedAt c then None else Some c
  end.

Definition getCachedPlayer (puuid : string) : M (option CachedPlayer) :=
  gets (fun s => cacheLookup (now s) (playerCache s) puuid).

(** [cached.lastActiveMinutes + Math.floor(cachedAge / 60000)] at clock
    reading [t]. *)
Definition adjustedActiveMinutes (t : Z) (c : CachedPlayer) : Z :=
  Player.lastActiveMinutes (cached c) + (t - cachedAt c) / 60000.

(** [cachedPlayerMeetsCriteria] at clock reading [t]. *)
Definition cachedPlayerMeetsCriteria (t : Z) (c : CachedPlayer) (o : CacheOptions)
  : bool :=
  if activeWithinMinutes o <? adjustedActiveMinutes t c then false
  else
    let winRate :=
      js_div (Player.wins (cached c))
             (Player.wins (cached c) + Player.losses (cached c)) in
    if js_lt winRate (minWinRate o) then false
    else
      match minLP o, maxLP o with
      | Some lo, Some hi =>
          if (nullToNumber (Player.totalLP (cached c)) <? lo)
             || (hi <? nullToNumber (Player.totalLP (cached c)))
          then false else true
      | _, _ => true
      end.

(** [writeFileSync] of the whole cache; a failing write is only logged by the
    script and is not represented. *)
Definition saveCache : M unit :=
  run modify writeCacheFile; modify (record EvSaveCache).

Definition cachePlayer (player : Player.t) : M unit :=
  do t <- gets now;
  run modify (fun s =>
        setCache (<[Player.puuid player := mkCached player t]> (playerCache s)) s);
  do n <- gets (fun s => size (playerCache s));
  if (Z.of_nat n mod 10 =? 0) then saveCache else ret tt.

(** ** Rate limiter and request gate *)

Definition requestsPerSecond : Z := 10.
Definition minDelay : Z := 1000 / requestsPerSecond.

(** [rateLimiter.sleep]: the timer fires after exactly [ms]. *)
Definition sleep (ms : Z) : M unit :=
  run modify (advanceClock ms); modify (record (EvSleep ms)).

Definition rateLimiterWait : M unit :=
  do elapsed <- gets (fun s => now s - lastRequest s);
  run (if elapsed <? minDelay then sleep (minDelay - elapsed) else ret tt);
  modify stampRequest.

(** ** Search configuration and search combinations *)

(** The [options] argument of [scoutPlayers], after its defaults.  The target
    count [maxPlayers] is a natural number, the minimum win rate a fraction. *)
Module Options.
Record t : Type := mk {
  queue : option string;
  tier : string;
  division : string;
  lpRange : option string;
  maxPlayers : nat;
  activeWithinMinutes : Z;
  minWinRate : Q
}.
End Options.

(** One element of [searchCombinations]. *)
Module Combo.
Record t : Type := mk {
  queue : string;
  tier : string;
  division : string;
  triedPages : gset nat;
  maxPageReached : bool;
  currentMaxPage : nat
}.

Definition exhaust (c : t) : t :=
  mk (queue c) (tier c) (division c) (triedPages c) true (currentMaxPage c).
Definition tryPage (page : nat) (c : t) : t :=
  mk (queue c) (tier c) (division c) ({[page]} ∪ triedPages c)
     (maxPageReached c) (currentMaxPage c).
(** The update made when [page] came back empty. *)
Definition shrink (page : nat) (c : t) : t :=
  let cmax := Nat.min (currentMaxPage c) (page - 1) in
  mk (queue c) (tier c) (division c) (triedPages c)
     (if (cmax <? 1)%nat || (cmax <=? size (triedPages c))%nat then true
      else maxPageReached c)
     cmax.
End Combo.

(** The test of [/^(\d+)-(\d+)$/]: the two digit groups, if the whole string
    matches. *)
Definition isDigit (c : ascii) : bool :=
  let n := nat_of_ascii c in (48 <=? n)%nat && (n <=? 57)%nat.

Fixpoint spanDigits (s : string) : string * string :=
  match s with
  | String c r =>
      if isDigit c then let (d, t) := spanDigits r in (String c d, t)
      else (EmptyString, s)
  | EmptyString => (EmptyString, EmptyString)
  end.

Definition matchLpRange (s : string) : option (string * string) :=
  match spanDigits s with
  | (EmptyString, _) => None
  | (lo, String "-" r) =>
      match spanDigits r with
      | (EmptyString, _) => None
      | (hi, EmptyString) => Some (lo, hi)
      | (_, String _ _) => None
      end
  | (_, _) => None
  end.

(** [parseInt] on a string of decimal digits (kept exact). *)
Definition parseInt (digits : string) : Z :=
  fold_left (fun acc c => 10 * acc + Z.of_nat (nat_of_ascii c - 48))
            (list_ascii_of_string digits) 0.

Section Engine.

Variable env : Env.

(** [global.isSearchAborted && global.isSearchAborted()] *)
Definition searchAborted : M bool :=
  match isSearchAborted env with
  | None => ret false
  | Some answer =>
      do k <- gets polls;
      run modify countPoll;
      run modify (record (EvAbortPoll (answer k)));
      ret (answer k)
  end.

Definition notifyRateLimit (isLimited : bool) (seconds : Z) : M unit :=
  if sendRateLimit env then modify (record (EvRateLimit isLimited seconds))
  else ret tt.

Definition notifyPlayerFound (p : Player.t) : M unit :=
  if sendPlayerFound env then modify (record (EvPlayerFound p)) else ret tt.

(** [Math.floor(Math.random() * n)] *)
Definition randomIndex (n : nat) : M nat :=
  do k <- gets draws;
  run modify countDraw;
  ret (random env k mod n)%nat.

(** [fetch(url, ...)]: the answer is the provider's to this request number. *)
Definition fetch {A} (url : Url) (answer : nat -> Response A) : M (Response A) :=
  do k <- gets requests;
  run modify countRequest;
  run modify (record (EvFetch url));
  ret (answer k).

Definition waitTime : Z := 120000.
Definition checkInterval : Z := 1000.

(** The [for (waited = 0; waited < waitTime; waited += checkInterval)] loop,
    by its number of remaining rounds. *)
Fixpoint coolDown (rounds : nat) : M unit :=
  match rounds with
  | O => ret tt
  | S rounds' =>
      do aborted <- searchAborted;
      if aborted then throw SearchAborted
      else run sleep checkInterval; coolDown rounds'
  end.

(** [apiRequest]; [fuel] bounds the chain of retries. *)
Fixpoint apiRequest {A} (fuel : nat) (url : Url) (answer : nat -> Response A)
  : M (option A) :=
  match fuel with
  | O => diverge
  | S fuel' =>
      run rateLimiterWait;
      do response <- fetch url answer;
      if negb (ok response) then
        if status response =? 403 then throw ApiKeyInvalid
        else if status response =? 429 then
          run notifyRateLimit true 120;
          run coolDown (Z.to_nat (waitTime / checkInterval));
          run notifyRateLimit false 0;
          apiRequest fuel' url answer
        else throw (ApiError (status response) url)
      else ret (body response)
  end.

Variable gas : nat.

Definition getLeagueEntries (queue tier division : string) (page : nat) :=
  apiRequest gas (LeagueExpUrl queue tier division page)
    (fun k => leagueExp env k queue tier division page).
Definition getSummonerByPuuid (puuid : string) :=
  apiRequest gas (SummonerByPuuidUrl puuid) (fun k => summonerByPuuid env k puuid).
Definition getLeagueEntriesBySummonerId (id : string) :=
  apiRequest gas (LeagueBySummonerUrl id) (fun k => leagueBySummoner env k id).
Definition getRiotIdByPuuid (puuid : string) :=
  apiRequest gas (AccountByPuuidUrl puuid) (fun k => accountByPuuid env k puuid).
Definition getMatchIds (puuid : string) (count : nat) (queue : option Z) :=
  apiRequest gas (MatchIdsUrl puuid count queue)
    (fun k => matchIds env k puuid count queue).
Definition getMatchDetails (matchId : string) :=
  apiRequest gas (MatchUrl matchId) (fun k => matchDetails env k matchId).

(** What [getLastActiveMinutes] returns when it does not return [null]. *)
Record Activity : Type := mkActivity {
  minutesAgo : Z;
  activityGameMode : string;
  activityQueueId : Z;
  activityMatch : Match.t
}.

Definition getLastActiveMinutes (puuid : string) : M (option Activity) :=
  tryCatch
    (do ids <- getMatchIds puuid 1 None;
     match ids with
     | None | Some [] => ret None
     | Some (first :: _) =>
         do m <- getMatchDetails first;
         match m with
         | None => throw TypeError
         | Some m =>
             do t <- gets now;
             ret (Some (mkActivity ((t - Match.gameEndTimestamp m) / 60000)
                          (Match.gameMode m) (Match.queueId m) m))
         end
     end)
    (fun _ =>
       run modify (record (EvConsoleError "Error checking activity"));
       ret None).

(** [shuffleArray]: Fisher-Yates on a copy. *)
Definition swap {A} (l : list A) (i j : nat) : list A :=
  match l !! i, l !! j with
  | Some x, Some y => <[j := x]> (<[i := y]> l)
  | _, _ => l
  end.

Fixpoint shuffleFrom {A} (i : nat) (shuffled : list A) : M (list A) :=
  match i with
  | O => ret shuffled
  | S i' =>
      do j <- randomIndex (i + 1);
      shuffleFrom i' (swap shuffled i j)
  end.

Definition shuffleArray {A} (array : list A) : M (list A) :=
  shuffleFrom (length array - 1) array.

(** *** The exploration search *)

Definition region : string := "na1".

Definition queueShortName (queueType : string) : string :=
  if String.eqb queueType "RANKED_SOLO_5x5" then "Solo/Duo" else "Flex".

(** [totalGames > 0 ? wins / totalGames : 0] *)
Definition entryWinRate (wins losses : Z) : JsNumber :=
  let totalGames := wins + losses in
  if 0 <? totalGames then js_div wins totalGames else Finite 0.

(** [{ ...cached, lastActiveMinutes, fromCache: true, updatedAt: cached.cachedAt }] *)
Definition playerFromCache (t : Z) (c : CachedPlayer) : Player.t :=
  let p := cached c in
  Player.mk (Player.name p) (Player.region p) (Player.queue p) (Player.rank p)
    (Player.lp p) (Player.totalLP p) (Player.wins p) (Player.losses p)
    (adjustedActiveMinutes t c) (Player.lastGameMode p)
    (Player.hotStreak p) (Player.veteran p) (Player.freshBlood p)
    (Player.puuid p) true (Player.fromMatch p) (cachedAt c).

(** The player object of a fresh lookup or of a match participant. *)
Definition playerFromEntry (displayName queueShort tierName divName : string)
    (e : Entry.t) (total : option Z) (activity : Activity) (puuid : string)
    (viaMatch : bool) (t : Z) : Player.t :=
  Player.mk displayName region queueShort (tierName +:+ " " +:+ divName)
    (Entry.leaguePoints e) total (Entry.wins e) (Entry.losses e)
    (minutesAgo activity) (activityGameMode activity)
    (Entry.hotStreak e) (Entry.veteran e) (Entry.freshBlood e)
    puuid false viaMatch t.

Variable maxPlayers : nat.
Variable cacheOptions : CacheOptions.

(** [results.length >= maxPlayers] *)
Definition resultsFull : M bool :=
  gets (fun s => (maxPlayers <=? length (results s))%nat).

Definition hasSeen (puuid : string) : M bool :=
  gets (fun s => bool_decide (puuid ∈ seenPuuids s)).

(** [cached && cachedPlayerMeetsCriteria(cached, cacheOptions)] *)
Definition usableCached (puuid : string) : M (option CachedPlayer) :=
  do c <- getCachedPlayer puuid;
  do t <- gets now;
  match c with
  | Some c => if cachedPlayerMeetsCriteria t c cacheOptions then ret (Some c)
              else ret None
  | None => ret None
  end.

(** The cache accept path, shared by ladder entries and match participants. *)
Definition acceptCached (puuid : string) (c : CachedPlayer) : M unit :=
  run modify (addSeen puuid);
  do t <- gets now;
  let player := playerFromCache t c in
  run modify (pushResult player);
  notifyPlayerFound player.

(** The [try { account = await getRiotIdByPuuid(..) } catch {}] block. *)
Definition resolveName (puuid : string) : M string :=
  tryCatch
    (do account <- getRiotIdByPuuid puuid;
     match account with
     | None => throw TypeError
     | Some a => ret (gameName a +:+ "#" +:+ tagLine a)
     end)
    (fun _ => ret "Unknown").

(** [total < minLP || total > maxLP] under [minLP !== null && maxLP !== null] *)
Definition outsideLpRange (total : option Z) : bool :=
  match minLP cacheOptions, maxLP cacheOptions with
  | Some lo, Some hi => (nullToNumber total <? lo) || (hi <? nullToNumber total)
  | _, _ => false
  end.

(** Body of [for (const leagueEntry of leagueEntries)]. *)
Definition processLeagueEntry (activity : Activity) (participantPuuid : string)
    (leagueEntry : Entry.t) : M Ctl :=
  do full <- resultsFull;
  if full then ret Break
  else if negb (String.eqb (Entry.queueType leagueEntry) "RANKED_SOLO_5x5")
          && negb (String.eqb (Entry.queueType leagueEntry) "RANKED_FLEX_SR")
  then ret Next
  else
    let participantTotalLP :=
      toTotalLP (Entry.tier leagueEntry) (Entry.rank leagueEntry)
                (Entry.leaguePoints leagueEntry) in
    let outside :=
      match minLP cacheOptions, maxLP cacheOptions with
      | Some _, Some _ =>
          match participantTotalLP with
          | None => true
          | Some _ => outsideLpRange participantTotalLP
          end
      | _, _ => false
      end in
    if outside then ret Next
    else if js_lt (entryWinRate (Entry.wins leagueEntry) (Entry.losses leagueEntry))
                  (minWinRate cacheOptions)
    then ret Next
    else
      run modify (addSeen participantPuuid);
      do participantName <- resolveName participantPuuid;
      do t <- gets now;
      let matchParticipant :=
        playerFromEntry participantName
          (queueShortName (Entry.queueType leagueEntry))
          (Entry.tier leagueEntry) (Entry.rank leagueEntry)
          leagueEntry participantTotalLP activity participantPuuid true t in
      run cachePlayer matchParticipant;
      run modify (pushResult matchParticipant);
      run notifyPlayerFound matchParticipant;
      ret Break.

(** Body of [for (const participant of participants)]. *)
Definition processParticipant (puuid : string) (activity : Activity)
    (participantPuuid : string) : M Ctl :=
  do full <- resultsFull;
  if full then ret Break
  else
    do aborted <- searchAborted;
    if aborted then ret Break
    else
      do seen <- hasSeen participantPuuid;
      if String.eqb participantPuuid EmptyString || String.eqb participantPuuid puuid || seen
      then ret Next
      else
        do hit <- usableCached participantPuuid;
        match hit with
        | Some c => run acceptCached participantPuuid c; ret Next
        | None =>
            tryCatch
              (do summoner <- getSummonerByPuuid participantPuuid;
               match summoner with
               | None => ret Next
               | Some su =>
                   if String.eqb (summonerId su) EmptyString then ret Next
                   else
                     do leagueEntries <- getLeagueEntriesBySummonerId (summonerId su);
                     match leagueEntries with
                     | None | Some [] => ret Next
                     | Some les =>
                         run forOf les (processLeagueEntry activity participantPuuid);
                         ret Next
                     end
               end)
              (fun _ => ret Next)
        end.

(** The participants of the triggering match, looked at once per match. *)
Definition expandMatch (puuid : string) (activity : Activity) : M unit :=
  let matchId := Match.matchId (activityMatch activity) in
  do processed <- gets (fun s => bool_decide (matchId ∈ processedMatchIds s));
  do full <- resultsFull;
  if negb (String.eqb matchId EmptyString) && negb processed && negb full then
    run modify (addProcessed matchId);
    forOf (Match.participants (activityMatch activity))
          (processParticipant puuid activity)
  else ret tt.

(** Body of [for (const entry of shuffledEntries)]. *)
Definition processEntry (searchQueue searchTier searchDiv : string)
    (entry : Entry.t) : M Ctl :=
  do full <- resultsFull;
  if full then ret Break
  else
    do aborted <- searchAborted;
    if aborted then ret Break
    else if outsideLpRange
              (toTotalLP searchTier searchDiv (Entry.leaguePoints entry))
    then ret Next
    else if js_lt (entryWinRate (Entry.wins entry) (Entry.losses entry))
                  (minWinRate cacheOptions)
    then ret Next
    else
      let puuid := Entry.puuid entry in
      if String.eqb puuid EmptyString then ret Next
      else
        do seen <- hasSeen puuid;
        if seen then ret Next
        else
          do hit <- usableCached puuid;
          match hit with
          | Some c => run acceptCached puuid c; ret Next
          | None =>
              do activity <- getLastActiveMinutes puuid;
              match activity with
              | None => ret Next
              | Some a =>
                  if minutesAgo a <=? activeWithinMinutes cacheOptions then
                    run modify (addSeen puuid);
                    do displayName <- resolveName puuid;
                    do t <- gets now;
                    let player :=
                      playerFromEntry displayName (queueShortName searchQueue)
                        searchTier searchDiv entry
                        (toTotalLP searchTier searchDiv (Entry.leaguePoints entry))
                        a puuid false t in
                    run cachePlayer player;
                    run modify (pushResult player);
                    run notifyPlayerFound player;
                    run expandMatch puuid a;
                    ret Next
                  else ret Next
              end
          end.

(** Positions in [shuffledCombinations] of the combinations that pass
    [c => !c.maxPageReached]. *)
Definition activeCombinations (combos : list Combo.t) : list nat :=
  List.filter
    (fun i => match combos !! i with
              | Some c => negb (Combo.maxPageReached c)
              | None => false
              end)
    (seq 0 (length combos)).

(** The pages [1 .. currentMaxPage] that are not in [triedPages]. *)
Definition untriedPages (c : Combo.t) : list nat :=
  List.filter (fun p => negb (bool_decide (p ∈ Combo.triedPages c)))
              (seq 1 (Combo.currentMaxPage c)).

(** The [while (results.length < maxPlayers)] loop; [fuel] bounds its
    number of rounds. *)
Fixpoint mainLoop (fuel : nat) (combos : list Combo.t) : M unit :=
  match fuel with
  | O => diverge
  | S fuel' =>
      do full <- resultsFull;
      if full then ret tt
      else
        do aborted <- searchAborted;
        if aborted then ret tt
        else
          let active := activeCombinations combos in
          match active with
          | [] => ret tt
          | _ :: _ =>
              do k <- randomIndex (length active);
              match active !! k with
              | None => throw TypeError
              | Some i =>
                  match combos !! i with
                  | None => throw TypeError
                  | Some combo =>
                      match untriedPages combo with
                      | [] => mainLoop fuel' (<[i := Combo.exhaust combo]> combos)
                      | (_ :: _) as untried =>
                          do r <- randomIndex (length untried);
                          match untried !! r with
                          | None => throw TypeError
                          | Some page =>
                              let combo := Combo.tryPage page combo in
                              do entries <-
                                getLeagueEntries (Combo.queue combo) (Combo.tier combo)
                                                 (Combo.division combo) page;
                              match entries with
                              | None | Some [] =>
                                  mainLoop fuel' (<[i := Combo.shrink page combo]> combos)
                              | Some entries =>
                                  do shuffledEntries <- shuffleArray entries;
                                  run forOf shuffledEntries
                                        (processEntry (Combo.queue combo)
                                           (Combo.tier combo) (Combo.division combo));
                                  mainLoop fuel' (<[i := combo]> combos)
                              end
                          end
                      end
                  end
              end
          end
  end.

End Engine.

(** The cross product built by the two nested [for] loops of [scoutPlayers]. *)
Definition searchCombinations (queuesToSearch : list string)
    (tierDivisionsToSearch : list (string * string)) : list Combo.t :=
  flat_map (fun q =>
    map (fun td => Combo.mk q (fst td) (snd td) ∅ false 50) tierDivisionsToSearch)
    queuesToSearch.

Definition queuesToSearch (options : Options.t) : list string :=
  match Options.queue options with
  | None | Some EmptyString => ["RANKED_SOLO_5x5"; "RANKED_FLEX_SR"]
  | Some q => [q]
  end.

(** [scoutPlayers] from [const results = []] on. *)
Definition runSearch (env : Env) (fuel : nat) (options : Options.t)
    (tierDivisionsToSearch : list (string * string)) (lo hi : option Z)
  : M (list Player.t) :=
  let cacheOptions :=
    mkCacheOptions (Options.activeWithinMinutes options)
                   (Options.minWinRate options) lo hi in
  run modify newSearch;
  do shuffledCombinations <-
    shuffleArray env
      (searchCombinations (queuesToSearch options) tierDivisionsToSearch);
  run mainLoop env fuel (Options.maxPlayers options) cacheOptions fuel
        shuffledCombinations;
  run saveCache;
  gets results.

(** [scoutPlayers]; [fuel] bounds the rounds of the main loop and every chain
    of retries of the request gate. *)
Definition scoutPlayers (env : Env) (fuel : nat) (options : Options.t)
  : M (list Player.t) :=
  match Options.lpRange options with
  | None | Some EmptyString =>
      runSearch env fuel options
        [(toUpperCase (Options.tier options),
          toUpperCase (Options.division options))] None None
  | Some lpRange =>
      match matchLpRange lpRange with
      | None =>
          run modify (record (EvConsoleError "Invalid lpRange format"));
          ret []
      | Some (lo, hi) =>
          let minLP := parseInt lo in
          let maxLP := parseInt hi in
          runSearch env fuel options (getTierDivisionsInRange minLP maxLP)
            (Some minLP) (Some maxLP)
      end
  end.

(** ** Specification vocabulary *)

(** The three checks of [cachedPlayerMeetsCriteria], one by one. *)
Definition activityCheck (t : Z) (c : CachedPlayer) (o : CacheOptions) : bool :=
  negb (activeWithinMinutes o <? adjustedActiveMinutes t c).

Definition winRateCheck (c : CachedPlayer) (o : CacheOptions) : bool :=
  negb (js_lt (js_div (Player.wins (cached c))
                      (Player.wins (cached c) + Player.losses (cached c)))
              (minWinRate o)).

Definition lpCheck (c : CachedPlayer) (o : CacheOptions) : bool :=
  match minLP o, maxLP o with
  | Some lo, Some hi =>
      negb ((nullToNumber (Player.totalLP (cached c)) <? lo)
            || (hi <? nullToNumber (Player.totalLP (cached c))))
  | _, _ => true
  end.

(** A run of [cachePlayer] calls, and the number of durable saves in a trace. *)
Fixpoint cachePlayers (players : list Player.t) : M unit :=
  match players with
  | [] => ret tt
  | p :: r => run cachePlayer p; cachePlayers r
  end.

Definition isSave (e : Event) : bool :=
  match e with EvSaveCache => true | _ => false end.

Definition countSaves (tr : list Event) : nat := length (List.filter isSave tr).

Definition isFetch (e : Event) : bool :=
  match e with EvFetch _ => true | _ => false end.

(** Weakest precondition of a computation of the script. *)
Definition wp {A} (m : M A) (Q : Res A -> State -> Prop) (s : State) : Prop :=
  Q (fst (m s)) (snd (m s)).

(** The result list, the seen identifiers and the cache are as they were. *)
Definition sameSearch (s s' : State) : Prop :=
  results s' = results s /\ seenPuuids s' = seenPuuids s /\
  playerCache s' = playerCache s.

(** A computation that leaves them alone, however it ends. *)
Definition leavesSearch {A} (m : M A) : Prop :=
  forall s, sameSearch s (snd (m s)).

(** How a computation may end: with a value, or, unless [strict], with an
    exception; never by running out of fuel. *)
Definition outcomeOk {A} (strict : bool) (r : Res A) : Prop :=
  match r with
  | Val _ => True
  | Throw _ => strict = false
  | Diverge => False
  end.

Definition safe {A} (strict : bool) (m : M A) : Prop :=
  forall s, outcomeOk strict (fst (m s)).

(** Every cache record sits under its own player identifier, as
    [cachePlayer] stores it. *)
Definition cacheKeyed (m : gmap string CachedPlayer) : Prop :=
  forall k c, m !! k = Some c -> Player.puuid (cached c) = k.

(** The invariant of the result list during a search for [maxPlayers]. *)
Definition searchInv (maxPlayers : nat) (s : State) : Prop :=
  NoDup (map Player.puuid (results s)) /\
  (forall p, p ∈ results s -> Player.puuid p ∈ seenPuuids s) /\
  (length (results s) <= maxPlayers)%nat /\
  cacheKeyed (playerCache s).

(** Termination measure of the main loop: what a combination can still cost. *)
Definition weight (c : Combo.t) : nat :=
  if Combo.maxPageReached c then 0%nat else S (length (untriedPages c)).

Definition measure (combos : list Combo.t) : nat :=
  foldr (fun c n => (weight c + n)%nat) 0%nat combos.

(** From any request number on, one of the next [K] answers is not a 429. *)
Definition relents {A} (K : nat) (answer : nat -> Response A) : Prop :=
  forall k, exists j, (j < K)%nat /\ status (answer (k + j)%nat) <> 429.

Definition boundedOverload (K : nat) (env : Env) : Prop :=
  (forall q t d p, relents K (fun k => leagueExp env k q t d p)) /\
  (forall p, relents K (fun k => summonerByPuuid env k p)) /\
  (forall i, relents K (fun k => leagueBySummoner env k i)) /\
  (forall p, relents K (fun k => accountByPuuid env k p)) /\
  (forall p c q, relents K (fun k => matchIds env k p c q)) /\
  (forall m, relents K (fun k => matchDetails env k m)).

(** The [lpRange] option lets the search start: it is absent, empty, or of
    the form [min-max]. *)
Definition lpRangeAccepted (options : Options.t) : bool :=
  match Options.lpRange options with
  | None | Some EmptyString => true
  | Some r => match matchLpRange r with Some _ => true | None => false end
  end.

(** The number of combinations [scoutPlayers] builds. *)
Definition searchCombinationCount (options : Options.t) : nat :=
  let tierDivisions :=
    match Options.lpRange options with
    | None | Some EmptyString => 1%nat
    | Some r =>
        match matchLpRange r with
        | None => 0%nat
        | Some (lo, hi) => length (getTierDivisionsInRange (parseInt lo) (parseInt hi))
        end
    end in
  (length (queuesToSearch options) * tierDivisions)%nat.

(** The events of the request gate around one overload. *)
Definition waitEvents (s : State) : list Event :=
  if now s - lastRequest s <? minDelay
  then [EvSleep (minDelay - (now s - lastRequest s))] else [].

Definition rateLimitEvents (env : Env) (isLimited : bool) (seconds : Z) : list Event :=
  if sendRateLimit env then [EvRateLimit isLimited seconds] else [].

Definition coolDownRound (env : Env) : list Event :=
  match isSearchAborted env with
  | Some _ => [EvAbortPoll false; EvSleep checkInterval]
  | None => [EvSleep checkInterval]
  end.

Definition coolDownEvents (env : Env) (rounds : nat) : list Event :=
  concat (replicate rounds (coolDownRound env)).

(** The abort predicate, if one is installed, answers [false] at the next
    [n] polls. *)
Definition quietFor (env : Env) (from n : nat) : Prop :=
  forall answer, isSearchAborted env = Some answer ->
  forall j, (j < n)%nat -> answer (from + j)%nat = false.

(** ** Sample worlds *)

Definition entryP1 : Entry.t :=
  Entry.mk "p1" "RANKED_SOLO_5x5" "GOLD" "II" 40 10 5 false false false.
Definition entryP2 : Entry.t :=
  Entry.mk "p2" "RANKED_SOLO_5x5" "GOLD" "II" 60 10 5 true false false.
Definition entryP3 : Entry.t :=
  Entry.mk "p3" "RANKED_FLEX_SR" "SILVER" "I" 10 3 3 false false false.
Definition matchM1 : Match.t :=
  Match.mk "M1" 1000000 "CLASSIC" 420 ["p1"; "p2"; "p3"].

(** A provider with one ladder page of two players, who last played the same
    match; every request succeeds, every draw of [Math.random] is the lowest,
    the front end never aborts. *)
Definition sampleEnv : Env :=
  mkEnv
    (fun _ _ _ _ page =>
       if (page =? 1)%nat then mkResponse 200 (Some [entryP1; entryP2])
       else mkResponse 200 (Some []))
    (fun _ _ => mkResponse 200 (Some (mkSummoner "s3")))
    (fun _ _ => mkResponse 200 (Some [entryP3]))
    (fun _ _ => mkResponse 200 (Some (mkAccount "Name" "NA1")))
    (fun _ _ _ _ => mkResponse 200 (Some ["M1"]))
    (fun _ _ => mkResponse 200 (Some matchM1))
    (fun _ => 0%nat)
    (Some (fun _ => false))
    true true.

Definition playerP9 : Player.t :=
  Player.mk "Old#NA1" "na1" "Solo/Duo" "GOLD II" 20 (Some 1420) 5 5 10 "CLASSIC"
    false false false "p9" false false 0.

(** The clock reads 20 minutes; nothing requested, nothing cached. *)
Definition sampleState : State :=
  mkState 1200000 0 0 0 0 ∅ ∅ [] ∅ ∅ [].

Definition sampleOptions : Options.t :=
  Options.mk (Some "RANKED_SOLO_5x5") "gold" "ii" None 5 30 0.

Definition withLpRange (r : string) (o : Options.t) : Options.t :=
  Options.mk (Options.queue o) (Options.tier o) (Options.division o) (Some r)
    (Options.maxPlayers o) (Options.activeWithinMinutes o) (Options.minWinRate o).

(** Ten players with the identifiers [q0] .. [q9]. *)
Definition numbered (k : nat) : Player.t :=
  Player.mk "Some#NA1" "na1" "Flex" "GOLD II" 20 (Some 1420) 5 5 10 "CLASSIC"
    false false false (String "q" (String (ascii_of_nat (48 + k)) EmptyString))
    false false 0.

Definition tenPlayers : list Player.t := map numbered (seq 0 10).

(** The provider of [sampleEnv], except that every ladder page but the first
    is answered with 429, and a front end that raises the abort flag at poll
    number [n]. *)
Definition abortingEnv (n : nat) : Env :=
  mkEnv
    (fun _ _ _ _ page =>
       if (page =? 1)%nat then mkResponse 200 (Some [entryP1; entryP2])
       else mkResponse 429 None)
    (summonerByPuuid sampleEnv) (leagueBySummoner sampleEnv)
    (accountByPuuid sampleEnv) (matchIds sampleEnv) (matchDetails sampleEnv)
    (random sampleEnv)
    (Some (fun k => (n <=? k)%nat))
    true true.

(** A provider that answers every ladder request with 429; no abort hook. *)
Definition overloadedEnv : Env :=
  mkEnv
    (fun _ _ _ _ _ => mkResponse 429 None)
    (summonerByPuuid sampleEnv) (leagueBySummoner sampleEnv)
    (accountByPuuid sampleEnv) (matchIds sampleEnv) (matchDetails sampleEnv)
    (random sampleEnv)
    None
    true true.

(** One 429, then the page. *)
Definition overloadedOnce (k : nat) : Response (list Entry.t) :=
  if (k =? 0)%nat then mkResponse 429 None
  else mkResponse 200 (Some [entryP1; entryP2]).

(** The search can take the player [pp]: the invariant holds, the result list
    is not full and holds no entry of that identifier. *)
Definition hasRoom (maxPlayers : nat) (pp : string) (s : State) : Prop :=
  searchInv maxPlayers s /\
  (length (results s) < maxPlayers)%nat /\
  pp ∉ map Player.puuid (results s).

(** [sampleState] with one record in the cache, taken 100 seconds ago. *)
Definition playerP1 : Player.t :=
  Player.mk "One#NA1" "na1" "Solo/Duo" "GOLD II" 40 (Some 1440) 10 5 5 "CLASSIC"
    false false false "p1" false false 1100000.

Definition warmState : State :=
  mkState 1200000 0 0 0 0 {[ "p1" := mkCached playerP1 1100000 ]} ∅ [] ∅ ∅ [].

(** ** Vocabulary of the further properties *)

(** A string of decimal digits, possibly empty. *)
Fixpoint allDigits (s : string) : bool :=
  match s with
  | EmptyString => true
  | String c r => isDigit c && allDigits r
  end.

(** A computation that keeps the property [P] of the state, however it ends. *)
Definition keeps {A} (P : State -> Prop) (m : M A) : Prop :=
  forall s, P s -> P (snd (m s)).

(** What a property [P] of the state needs, to hold all along a search with
    the criteria [o]: every step of the engine keeps it, an accepted player
    [good] may join the result list and be shown to the observer, and the
    players the engine accepts are [good]. *)
Record searchProperty (env : Env) (o : CacheOptions)
    (P : State -> Prop) (good : Player.t -> Prop) : Prop := {
  kept_sleep : keeps P (sleep checkInterval);
  kept_fetch : forall url s,
    P s -> P (record (EvFetch url) (countRequest (snd (rateLimiterWait s))));
  kept_poll : keeps P (searchAborted env);
  kept_draw : forall n, keeps P (randomIndex env n);
  kept_limit : forall b n, keeps P (notifyRateLimit env b n);
  kept_cache : forall p, keeps P (cachePlayer p);
  kept_save : keeps P saveCache;
  kept_seen : forall x s, P s -> P (addSeen x s);
  kept_processed : forall x s, P s -> P (addProcessed x s);
  kept_console : forall msg s, P s -> P (record (EvConsoleError msg) s);
  kept_push : forall p s,
    good p -> P s -> P (snd (notifyPlayerFound env p (pushResult p s)));
  good_cached : forall t c,
    cachedPlayerMeetsCriteria t c o = true -> good (playerFromCache t c);
  good_entry : forall name q tierName divName e a puuid viaMatch t,
    minutesAgo a <= activeWithinMinutes o ->
    outsideLpRange o (toTotalLP tierName divName (Entry.leaguePoints e)) = false ->
    js_lt (entryWinRate (Entry.wins e) (Entry.losses e)) (minWinRate o) = false ->
    good (playerFromEntry name q tierName divName e
            (toTotalLP tierName divName (Entry.leaguePoints e))
            a puuid viaMatch t)
}.

(** The criteria of a search, read on a player of the result list. *)
Definition meetsCriteria (o : CacheOptions) (p : Player.t) : Prop :=
  Player.lastActiveMinutes p <= activeWithinMinutes o /\
  outsideLpRange o (Player.totalLP p) = false /\
  (0 < Player.wins p + Player.losses p ->
   js_lt (js_div (Player.wins p) (Player.wins p + Player.losses p))
         (minWinRate o) = false).

(** The criteria [scoutPlayers] searches with. *)
Definition searchCriteria (options : Options.t) : CacheOptions :=
  match Options.lpRange options with
  | None | Some EmptyString =>
      mkCacheOptions (Options.activeWithinMinutes options)
                     (Options.minWinRate options) None None
  | Some lpRange =>
      match matchLpRange lpRange with
      | None =>
          mkCacheOptions (Options.activeWithinMinutes options)
                         (Options.minWinRate options) None None
      | Some (lo, hi) =>
          mkCacheOptions (Options.activeWithinMinutes options)
                         (Options.minWinRate options)
                         (Some (parseInt lo)) (Some (parseInt hi))
      end
  end.

(** The players handed to the observer, in the order of the calls. *)
Definition playersFound (tr : list Event) : list Player.t :=
  flat_map (fun e => match e with EvPlayerFound p => [p] | _ => [] end) tr.

(** The time slept in a trace, and the clock readings, from [clock] at its
    start, at which its requests were sent. *)
Definition clockOf (tr : list Event) : Z :=
  fold_right (fun e acc => match e with EvSleep ms => ms + acc | _ => acc end) 0 tr.

Fixpoint fetchClocks (clock : Z) (tr : list Event) : list Z :=
  match tr with
  | [] => []
  | EvSleep ms :: r => fetchClocks (clock + ms) r
  | EvFetch _ :: r => clock :: fetchClocks clock r
  | _ :: r => fetchClocks clock r
  end.

(** Consecutive readings are at least [d] apart. *)
Fixpoint spaced (d : Z) (l : list Z) : Prop :=
  match l with
  | a :: r => match r with b :: _ => d <= b - a | [] => True end /\ spaced d r
  | [] => True
  end.

(** The state of a script whose clock read [start] when its trace began: the
    clock is the start plus the time slept, no request is stamped or sent
    later than the clock reads, and the requests sent are [minDelay] apart. *)
Definition paced (start : Z) (s : State) : Prop :=
  now s = start + clockOf (trace s) /\
  lastRequest s <= now s /\
  (forall f, last (fetchClocks start (trace s)) = Some f -> f <= lastRequest s) /\
  spaced minDelay (fetchClocks start (trace s)).

(** What the rate-limit observer was told, in the order of the calls. *)
Definition rateLimitsShown (tr : list Event) : list (bool * Z) :=
  flat_map (fun e => match e with EvRateLimit b n => [(b, n)] | _ => [] end) tr.

(** A computation that never ends with an exception. *)
Definition neverThrows {A} (m : M A) : Prop :=
  forall s e, fst (m s) <> Throw e.


(** ** Command line (cli.js) *)

Module Cli.

(** A value of the [options] object of [parseArgs]: the argument that follows
    the key, or [true]. *)
Inductive ArgValue : Type :=
  | ArgText (value : string)
  | ArgTrue.

(** [s.startsWith('--')] and [s.slice(2)] *)
Definition startsWithDashes (s : string) : bool := String.prefix "--" s.

Definition slice2 (s : string) : string :=
  match s with
  | String _ (String _ r) => r
  | _ => EmptyString
  end.

(** [options[key] = value] on the plain object [options]: a string or [true]
    assigned to [__proto__] is dropped by the setter of [Object.prototype];
    any other key becomes, or stays, an own property. *)
Definition setOption (key : string) (value : ArgValue)
    (options : gmap string ArgValue) : gmap string ArgValue :=
  if String.eqb key "__proto__" then options else <[key := value]> options.

(** The [for] loop of [parseArgs], from the argument it stands at. *)
Fixpoint parseOptions (args : list string) (options : gmap string ArgValue)
  : gmap string ArgValue :=
  match args with
  | [] => options
  | arg :: rest =>
      if startsWithDashes arg then
        let key := slice2 arg in
        match rest with
        | value :: rest' =>
            if negb (String.eqb value EmptyString) && negb (startsWithDashes value)
            then parseOptions rest' (setOption key (ArgText value) options)
            else parseOptions rest (setOption key ArgTrue options)
        | [] => setOption key ArgTrue options
        end
      else parseOptions rest options
  end.

Record Parsed : Type := mkParsed {
  command : option string;
  options : gmap string ArgValue
}.

(** [parseArgs], of [process.argv]. *)
Definition parseArgs (argv : list string) : Parsed :=
  let args := drop 2 argv in
  mkParsed (head args) (parseOptions (tail args) ∅).

(** A command line as its author means it: keys with a value and bare
    flags. *)
Inductive Item : Type :=
  | WithValue (key value : string)
  | Flag (key : string).

Definition render (item : Item) : list string :=
  match item with
  | WithValue key value => ["--" +:+ key; value]
  | Flag key => ["--" +:+ key]
  end.

Definition assign (options : gmap string ArgValue) (item : Item)
  : gmap string ArgValue :=
  match item with
  | WithValue key value => setOption key (ArgText value) options
  | Flag key => setOption key ArgTrue options
  end.

(** A value the loop takes as one: not empty, and not itself a key. *)
Definition takenAsValue (item : Item) : Prop :=
  match item with
  | WithValue _ value => value <> EmptyString /\ startsWithDashes value = false
  | Flag _ => True
  end.

End Cli.

(** ** The sequential engine (scout.js) *)

Module Legacy.

Definition requestsPerSecond : Z := 20.
Definition minDelay : Z := 1000 / requestsPerSecond.

Definition rateLimiterWait : M unit :=
  do elapsed <- gets (fun s => now s - lastRequest s);
  run (if elapsed <? minDelay then sleep (minDelay - elapsed) else ret tt);
  modify stampRequest.

(** [apiRequest] of scout.js: after a 429 it sleeps the two minutes in one
    piece; [fuel] bounds the chain of retries. *)
Fixpoint apiRequest (env : Env) {A} (fuel : nat) (url : Url)
    (answer : nat -> Response A) : M (option A) :=
  match fuel with
  | O => diverge
  | S fuel' =>
      run rateLimiterWait;
      do response <- fetch url answer;
      if negb (ok response) then
        if status response =? 403 then throw ApiKeyInvalid
        else if status response =? 429 then
          run notifyRateLimit env true 120;
          run sleep 120000;
          run notifyRateLimit env false 0;
          apiRequest env fuel' url answer
        else throw (ApiError (status response) url)
      else ret (body response)
  end.

(** The [get...] wrappers scout.js uses, over its own gate. *)
Section Engine.

Variable env : Env.
Variable gas : nat.

Definition getLeagueEntries (queue tier division : string) (page : nat) :=
  apiRequest env gas (LeagueExpUrl queue tier division page)
    (fun k => leagueExp env k queue tier division page).
Definition getRiotIdByPuuid (puuid : string) :=
  apiRequest env gas (AccountByPuuidUrl puuid) (fun k => accountByPuuid env k puuid).
Definition getMatchIds (puuid : string) (count : nat) (queue : option Z) :=
  apiRequest env gas (MatchIdsUrl puuid count queue)
    (fun k => matchIds env k puuid count queue).
Definition getMatchDetails (matchId : string) :=
  apiRequest env gas (MatchUrl matchId) (fun k => matchDetails env k matchId).

(** What [getLastActiveMinutes] of scout.js returns when it does not return
    [null]: the match itself is not part of it. *)
Record Activity : Type := mkActivity {
  minutesAgo : Z;
  gameMode : string;
  queueId : Z
}.

Definition getLastActiveMinutes (puuid : string) : M (option Activity) :=
  tryCatch
    (do ids <- getMatchIds puuid 1 None;
     match ids with
     | None | Some [] => ret None
     | Some (first :: _) =>
         do m <- getMatchDetails first;
         match m with
         | None => throw TypeError
         | Some m =>
             do t <- gets now;
             ret (Some (mkActivity ((t - Match.gameEndTimestamp m) / 60000)
                          (Match.gameMode m) (Match.queueId m)))
         end
     end)
    (fun _ =>
       run modify (record (EvConsoleError "Error checking activity"));
       ret None).

Definition resolveName (puuid : string) : M string :=
  tryCatch
    (do account <- getRiotIdByPuuid puuid;
     match account with
     | None => throw TypeError
     | Some a => ret (gameName a +:+ "#" +:+ tagLine a)
     end)
    (fun _ => ret "Unknown").

(** The player object of a fresh lookup. *)
Definition playerFromEntry (displayName searchQueue searchTier searchDiv : string)
    (entry : Entry.t) (activity : Activity) (t : Z) : Player.t :=
  Player.mk displayName region (queueShortName searchQueue)
    (searchTier +:+ " " +:+ searchDiv)
    (Entry.leaguePoints entry)
    (toTotalLP searchTier searchDiv (Entry.leaguePoints entry))
    (Entry.wins entry) (Entry.losses entry)
    (minutesAgo activity) (gameMode activity)
    (Entry.hotStreak entry) (Entry.veteran entry) (Entry.freshBlood entry)
    (Entry.puuid entry) false false t.

Variable maxPlayers : nat.
Variable cacheOptions : CacheOptions.

(** Body of [for (const entry of entries)]. *)
Definition processEntry (searchQueue searchTier searchDiv : string)
    (entry : Entry.t) : M Ctl :=
  do full <- resultsFull maxPlayers;
  if full then ret Break
  else if outsideLpRange cacheOptions
            (toTotalLP searchTier searchDiv (Entry.leaguePoints entry))
  then ret Next
  else if js_lt (entryWinRate (Entry.wins entry) (Entry.losses entry))
                (minWinRate cacheOptions)
  then ret Next
  else
    let puuid := Entry.puuid entry in
    if String.eqb puuid EmptyString then ret Next
    else
      do seen <- hasSeen puuid;
      if seen then ret Next
      else
        do hit <- usableCached cacheOptions puuid;
        match hit with
        | Some c => run acceptCached env puuid c; ret Next
        | None =>
            do activity <- getLastActiveMinutes puuid;
            match activity with
            | None => ret Next
            | Some a =>
                if minutesAgo a <=? activeWithinMinutes cacheOptions then
                  run modify (addSeen puuid);
                  do displayName <- resolveName puuid;
                  do t <- gets now;
                  let player :=
                    playerFromEntry displayName searchQueue searchTier searchDiv
                      entry a t in
                  run cachePlayer player;
                  run modify (pushResult player);
                  run notifyPlayerFound env player;
                  ret Next
                else ret Next
            end
        end.

(** The [while (results.length < maxPlayers)] loop over the pages of one
    tier and division, from [page] on; [fuel] bounds its number of rounds. *)
Fixpoint pagesLoop (fuel : nat) (searchQueue searchTier searchDiv : string)
    (page : nat) : M unit :=
  match fuel with
  | O => diverge
  | S fuel' =>
      do full <- resultsFull maxPlayers;
      if full then ret tt
      else
        do entries <- getLeagueEntries searchQueue searchTier searchDiv page;
        match entries with
        | None | Some [] => ret tt
        | Some entries =>
            run forOf entries (processEntry searchQueue searchTier searchDiv);
            pagesLoop fuel' searchQueue searchTier searchDiv (S page)
        end
  end.

(** Body of [for (const { tier, division } of tierDivisionsToSearch)]. *)
Definition searchDivision (fuel : nat) (searchQueue : string)
    (td : string * string) : M Ctl :=
  do full <- resultsFull maxPlayers;
  if full then ret Break
  else
    run pagesLoop fuel searchQueue (fst td) (snd td) 1;
    ret Next.

(** Body of [for (const searchQueue of queuesToSearch)]. *)
Definition searchQueue (fuel : nat) (tierDivisionsToSearch : list (string * string))
    (queue : string) : M Ctl :=
  do full <- resultsFull maxPlayers;
  if full then ret Break
  else
    run forOf tierDivisionsToSearch (searchDivision fuel queue);
    ret Next.

End Engine.

(** [scoutPlayers] of scout.js from [const results = []] on. *)
Definition runSearch (env : Env) (fuel : nat) (options : Options.t)
    (tierDivisionsToSearch : list (string * string)) (lo hi : option Z)
  : M (list Player.t) :=
  let cacheOptions :=
    mkCacheOptions (Options.activeWithinMinutes options)
                   (Options.minWinRate options) lo hi in
  run modify newSearch;
  run forOf (queuesToSearch options)
        (searchQueue env fuel (Options.maxPlayers options) cacheOptions fuel
           tierDivisionsToSearch);
  run saveCache;
  gets results.

(** [scoutPlayers] of scout.js; [fuel] bounds the pages of one division and
    every chain of retries of the request gate. *)
Definition scoutPlayers (env : Env) (fuel : nat) (options : Options.t)
  : M (list Player.t) :=
  match Options.lpRange options with
  | None | Some EmptyString =>
      runSearch env fuel options
        [(toUpperCase (Options.tier options),
          toUpperCase (Options.division options))] None None
  | Some lpRange =>
      match matchLpRange lpRange with
      | None =>
          run modify (record (EvConsoleError "Invalid lpRange format"));
          ret []
      | Some (lo, hi) =>
          let minLP := parseInt lo in
          let maxLP := parseInt hi in
          runSearch env fuel options (getTierDivisionsInRange minLP maxLP)
            (Some minLP) (Some maxLP)
      end
  end.

End Legacy.

(** * Properties *)

(** ** Rank codec *)

Example toTotalLP_silver : toTotalLP "SILVER" "IV" 50 = Some 850.
Proof. reflexivity. Qed.

Example toTotalLP_gold : toTotalLP "GOLD" "I" 75 = Some 1575.
Proof. reflexivity. Qed.

Example toTotalLP_any_case : toTotalLP "gold" "i" 75 = Some 1575.
Proof. reflexivity. Qed.

Example toTotalLP_apex_is_null : toTotalLP "MASTER" "I" 10 = None.
Proof. reflexivity. Qed.

Example fromTotalLP_850 : fromTotalLP 850 = mkRank (Some "SILVER") (Some "IV") 50.
Proof. reflexivity. Qed.

Example range_800_1000 :
  getTierDivisionsInRange 800 1000 =
  [("SILVER", "IV"); ("SILVER", "III"); ("SILVER", "II")].
Proof. reflexivity. Qed.

(** Below the apex threshold [fromTotalLP] reads the tier, the division and
    the points off the quotients and remainders. *)
Lemma fromTotalLP_decompose (ti di : nat) (p : Z) :
  (ti < 7)%nat -> (di < 4)%nat -> 0 <= p <= 99 ->
  fromTotalLP (Z.of_nat ti * 400 + Z.of_nat di * 100 + p)
  = mkRank (TIERS !! ti) (DIVISIONS !! di) p.
Proof.
  intros Hti Hdi Hp. unfold fromTotalLP.
  set (total := Z.of_nat ti * 400 + Z.of_nat di * 100 + p).
  assert (Hlo : 0 <= total) by (unfold total; lia).
  assert (Hhi : total < 2800) by (unfold total; lia).
  destruct (Z.ltb_spec total 0) as [Hneg|_]; [lia|].
  change (Z.of_nat (length TIERS) * 400) with 2800.
  destruct (Z.leb_spec 2800 total) as [Hbig|_]; [lia|].
  assert (Hq : total / 400 = Z.of_nat ti).
  { symmetry. apply (Z.div_unique total 400 _ (Z.of_nat di * 100 + p)); unfold total; lia. }
  assert (Hr : total mod 400 = Z.of_nat di * 100 + p).
  { symmetry. apply (Z.mod_unique total 400 (Z.of_nat ti)); unfold total; lia. }
  assert (Hq2 : (Z.of_nat di * 100 + p) / 100 = Z.of_nat di).
  { symmetry. apply (Z.div_unique _ 100 _ p); lia. }
  assert (Hr2 : (Z.of_nat di * 100 + p) mod 100 = p).
  { symmetry. apply (Z.mod_unique _ 100 (Z.of_nat di)); lia. }
  cbv zeta. rewrite Hq, Hr, Hq2, Hr2, !Nat2Z.id. reflexivity.
Qed.

(** C5. For every tier of [TIERS], every division of [DIVISIONS] and every
    points value in [0, 99], [toTotalLP] yields a total and [fromTotalLP]
    maps that total back to the same tier, division and points. *)
Theorem fromTotalLP_toTotalLP (t d : string) (p : Z) :
  In t TIERS -> In d DIVISIONS -> 0 <= p <= 99 ->
  exists total,
    toTotalLP t d p = Some total /\
    fromTotalLP total = mkRank (Some t) (Some d) p.
Proof.
  intros Ht Hd Hp.
  assert (Hidx : exists ti di, (ti < 7)%nat /\ (di < 4)%nat /\
            TIERS !! ti = Some t /\ DIVISIONS !! di = Some d /\
            toTotalLP t d p = Some (Z.of_nat ti * 400 + Z.of_nat di * 100 + p)).
  { simpl in Ht, Hd.
    repeat (destruct Ht as [<-|Ht]; [|]); try contradiction;
    repeat (destruct Hd as [<-|Hd]; [|]); try contradiction;
    match goal with
    | |- context [toTotalLP ?a ?b _] =>
        let ti := eval vm_compute in (default 0%nat (indexOf TIERS a)) in
        let di := eval vm_compute in (default 0%nat (indexOf DIVISIONS b)) in
        exists ti, di; repeat split; try lia; reflexivity
    end. }
  destruct Hidx as (ti & di & Hti & Hdi & Et & Ed & Etot).
  eexists; split; [exact Etot|].
  rewrite fromTotalLP_decompose by assumption. now rewrite Et, Ed.
Qed.

Lemma fromTotalLP_toTotalLP_witness :
  exists total,
    toTotalLP "GOLD" "I" 75 = Some total /\
    fromTotalLP total = mkRank (Some "GOLD") (Some "I") 75.
Proof.
  apply (fromTotalLP_toTotalLP "GOLD" "I" 75); simpl; [tauto | tauto | lia].
Defined.

(** The apex record carries the division [I]: it is not left out. *)
Lemma fromTotalLP_apex_division :
  fromTotalLP 2800 = mkRank (Some "MASTER") (Some "I") 0 /\
  division (fromTotalLP 2800) <> None.
Proof. split; [reflexivity | discriminate]. Qed.

(** C6 (as the code has it). [fromTotalLP] clamps a negative total to
    IRON IV 0; from 2800 on it returns MASTER with division I and the points
    above 2800; in between it is the tier at [total / 400], the division at
    [(total mod 400) / 100] and [(total mod 400) mod 100] points, both array
    reads being in range. *)
Theorem fromTotalLP_cases (total : Z) :
  (total < 0 -> fromTotalLP total = mkRank (Some "IRON") (Some "IV") 0) /\
  (2800 <= total ->
     fromTotalLP total = mkRank (Some "MASTER") (Some "I") (total - 2800)) /\
  (0 <= total < 2800 ->
     exists t d,
       TIERS !! Z.to_nat (total / 400) = Some t /\
       DIVISIONS !! Z.to_nat ((total mod 400) / 100) = Some d /\
       fromTotalLP total = mkRank (Some t) (Some d) ((total mod 400) mod 100)).
Proof.
  unfold fromTotalLP. change (Z.of_nat (length TIERS) * 400) with 2800.
  repeat split.
  - intros H. destruct (Z.ltb_spec total 0); [reflexivity | lia].
  - intros H. destruct (Z.ltb_spec total 0); [lia|].
    destruct (Z.leb_spec 2800 total); [reflexivity | lia].
  - intros [Hlo Hhi].
    destruct (Z.ltb_spec total 0); [lia|].
    destruct (Z.leb_spec 2800 total); [lia|].
    assert (Hq : 0 <= total / 400 < 7).
    { split; [apply Z.div_pos; lia | apply Z.div_lt_upper_bound; lia]. }
    assert (Hm : 0 <= total mod 400 < 400) by (apply Z.mod_pos_bound; lia).
    assert (Hd : 0 <= (total mod 400) / 100 < 4).
    { split; [apply Z.div_pos; lia | apply Z.div_lt_upper_bound; lia]. }
    destruct (lookup_lt_is_Some_2 TIERS (Z.to_nat (total / 400))) as [t Et];
      [simpl; lia|].
    destruct (lookup_lt_is_Some_2 DIVISIONS (Z.to_nat ((total mod 400) / 100)))
      as [d Ed]; [simpl; lia|].
    exists t, d. cbv zeta. rewrite Et, Ed. auto.
Qed.

Lemma fromTotalLP_cases_witness :
  fromTotalLP (-5) = mkRank (Some "IRON") (Some "IV") 0 /\
  fromTotalLP 2950 = mkRank (Some "MASTER") (Some "I") 150 /\
  exists t d,
    TIERS !! Z.to_nat (1575 / 400) = Some t /\
    DIVISIONS !! Z.to_nat ((1575 mod 400) / 100) = Some d /\
    fromTotalLP 1575 = mkRank (Some t) (Some d) ((1575 mod 400) mod 100).
Proof.
  split; [|split].
  - apply (proj1 (fromTotalLP_cases (-5))). lia.
  - apply (proj1 (proj2 (fromTotalLP_cases 2950))). lia.
  - apply (proj2 (proj2 (fromTotalLP_cases 1575))). lia.
Defined.

(** ** Freshness cache *)

Lemma cachedPlayerMeetsCriteria_checks (t : Z) (c : CachedPlayer) (o : CacheOptions) :
  cachedPlayerMeetsCriteria t c o
  = activityCheck t c o && winRateCheck c o && lpCheck c o.
Proof.
  unfold cachedPlayerMeetsCriteria, activityCheck, winRateCheck, lpCheck.
  destruct (activeWithinMinutes o <? adjustedActiveMinutes t c); [reflexivity|].
  cbv zeta. destruct (js_lt _ _); [reflexivity|].
  destruct (minLP o), (maxLP o); try reflexivity.
Qed.

(** C7. With the win-rate and LP checks passing, [cachedPlayerMeetsCriteria]
    rejects exactly when [lastActiveMinutes + floor((now - cachedAt) / 60000)]
    exceeds [activeWithinMinutes]; a record cached 59 minutes ago with
    [lastActiveMinutes = 10] passes at 70 and fails at 60. *)
Theorem cachedPlayerMeetsCriteria_activity (t : Z) (c : CachedPlayer) (o : CacheOptions) :
  winRateCheck c o = true -> lpCheck c o = true ->
  (cachedPlayerMeetsCriteria t c o = false <->
   activeWithinMinutes o
     < Player.lastActiveMinutes (cached c) + (t - cachedAt c) / 60000) /\
  (Player.lastActiveMinutes (cached c) = 10 -> t - cachedAt c = 59 * 60000 ->
   (activeWithinMinutes o = 70 -> cachedPlayerMeetsCriteria t c o = true) /\
   (activeWithinMinutes o = 60 -> cachedPlayerMeetsCriteria t c o = false)).
Proof.
  intros Hw Hl. rewrite cachedPlayerMeetsCriteria_checks, Hw, Hl, !andb_true_r.
  unfold activityCheck, adjustedActiveMinutes.
  split.
  - rewrite negb_false_iff. apply Z.ltb_lt.
  - intros -> ->. change (59 * 60000 / 60000) with 59.
    split; intros ->; reflexivity.
Qed.

Lemma cachedPlayerMeetsCriteria_activity_witness :
  let c := mkCached playerP9 1000 in
  let t := 1000 + 59 * 60000 in
  cachedPlayerMeetsCriteria t c (mkCacheOptions 70 (1 # 2) (Some 1400) (Some 1500)) = true /\
  cachedPlayerMeetsCriteria t c (mkCacheOptions 60 (1 # 2) (Some 1400) (Some 1500)) = false.
Proof.
  split.
  - apply (cachedPlayerMeetsCriteria_activity (1000 + 59 * 60000)
             (mkCached playerP9 1000)
             (mkCacheOptions 70 (1 # 2) (Some 1400) (Some 1500)));
      reflexivity.
  - apply (cachedPlayerMeetsCriteria_activity (1000 + 59 * 60000)
             (mkCached playerP9 1000)
             (mkCacheOptions 60 (1 # 2) (Some 1400) (Some 1500)));
      reflexivity.
Defined.

Lemma Qlt_bool_pos (m : Q) : (0 < m)%Q -> Qlt_bool 0 m = true.
Proof.
  intros H. unfold Qlt_bool. apply negb_true_iff.
  destruct (Qle_bool m 0) eqn:E; [|reflexivity].
  apply Qle_bool_iff in E. exfalso. exact (Qlt_not_le _ _ H E).
Qed.

(** ** Reasoning about computations of the script *)

Lemma wp_bind {A B} (m : M A) (f : A -> M B) Q s :
  wp m (fun r s' =>
          match r with
          | Val a => wp (f a) Q s'
          | Throw e => Q (Throw e) s'
          | Diverge => Q Diverge s'
          end) s ->
  wp (bind m f) Q s.
Proof. unfold wp, bind. destruct (m s) as [[a|e|] s']; simpl; auto. Qed.

Lemma wp_mono {A} (m : M A) (Q1 Q2 : Res A -> State -> Prop) s :
  wp m Q1 s -> (forall r s', Q1 r s' -> Q2 r s') -> wp m Q2 s.
Proof. unfold wp. auto. Qed.

Lemma wp_tryCatch {A} (m : M A) (h : Error -> M A) Q s :
  wp m (fun r s' =>
          match r with
          | Val a => Q (Val a) s'
          | Throw e => wp (h e) Q s'
          | Diverge => Q Diverge s'
          end) s ->
  wp (tryCatch m h) Q s.
Proof. unfold wp, tryCatch. destruct (m s) as [[a|e|] s']; simpl; auto. Qed.

(** Loop rule: [I] holds while the loop goes on, [J] when it is left. *)
Lemma wp_forOf {A} (body : A -> M Ctl) (I : State -> Prop)
    (J : Res unit -> State -> Prop) :
  (forall s, I s -> J (Val tt) s) ->
  (forall x s, I s ->
     wp (body x) (fun r s' =>
                    match r with
                    | Val Next => I s'
                    | Val Break => J (Val tt) s'
                    | Throw e => J (Throw e) s'
                    | Diverge => J Diverge s'
                    end) s) ->
  forall l s, I s -> wp (forOf l body) J s.
Proof.
  intros Hend Hbody l. induction l as [|x l IH]; intros s Hs; simpl.
  - apply Hend, Hs.
  - apply wp_bind. eapply wp_mono; [apply Hbody, Hs|].
    intros [[|]|e|] s' H; simpl; auto.
Qed.

Lemma bind_Val_inv {A B} (m : M A) (f : A -> M B) s b s' :
  bind m f s = (Val b, s') ->
  exists a s1, m s = (Val a, s1) /\ f a s1 = (Val b, s').
Proof.
  unfold bind. destruct (m s) as [[a|e|] s1]; intros H; try discriminate.
  eauto.
Qed.

(** ** Batch flush of the cache *)

Lemma cachePlayer_run (p : Player.t) (s : State) :
  let s1 := setCache (<[Player.puuid p := mkCached p (now s)]> (playerCache s)) s in
  cachePlayer p s
  = (Val tt,
     if Z.of_nat (size (playerCache s1)) mod 10 =? 0
     then record EvSaveCache (writeCacheFile s1) else s1).
Proof.
  unfold cachePlayer, bind, gets, modify, saveCache, bind, modify. simpl.
  destruct (_ =? 0); reflexivity.
Qed.

Lemma countSaves_app (a b : list Event) :
  countSaves (a ++ b) = (countSaves a + countSaves b)%nat.
Proof. unfold countSaves. now rewrite List.filter_app, List.length_app. Qed.

Lemma div10_step (n : nat) :
  (S n / 10 = n / 10 + (if (Z.of_nat (S n) mod 10 =? 0)%Z then 1 else 0))%nat.
Proof.
  destruct (Z.eqb_spec (Z.of_nat (S n) mod 10) 0) as [E|E];
    apply Nat2Z.inj; rewrite Nat2Z.inj_add, !Nat2Z.inj_div;
    change (Z.of_nat 10) with 10 in *; simpl Z.of_nat in *;
    revert E; rewrite Nat2Z.inj_succ;
    generalize (Z.of_nat n) (Nat2Z.is_nonneg n); intros z Hz E;
    Z.div_mod_to_equations; lia.
Qed.

(** From a cache of [n] keys, inserting players with new, distinct keys saves
    each time the number of keys reaches a multiple of ten. *)
Lemma cachePlayers_fresh_keys (ps : list Player.t) :
  forall s,
    NoDup (map Player.puuid ps) ->
    (forall p, p ∈ ps -> playerCache s !! Player.puuid p = None) ->
    let s' := snd (cachePlayers ps s) in
    (countSaves (trace s') + size (playerCache s) / 10
     = countSaves (trace s) + (size (playerCache s) + length ps) / 10)%nat /\
    size (playerCache s') = (size (playerCache s) + length ps)%nat.
Proof.
  induction ps as [|p ps IH]; intros s Hnd Hfresh; cbn -[Nat.div countSaves].
  - rewrite !Nat.add_0_r. auto.
  - unfold bind. rewrite cachePlayer_run. cbv zeta.
    inversion Hnd as [|k ks Hnotin Hnd']; subst.
    assert (Hp : playerCache s !! Player.puuid p = None)
      by (apply Hfresh; left).
    set (m1 := <[Player.puuid p := mkCached p (now s)]> (playerCache s)).
    assert (Hsize : size m1 = S (size (playerCache s)))
      by (apply map_size_insert_None, Hp).
    assert (Hfresh' : forall q, q ∈ ps -> m1 !! Player.puuid q = None).
    { intros q Hq. unfold m1. rewrite lookup_insert_ne.
      - apply Hfresh. now right.
      - intros E. apply Hnotin. rewrite E. apply list_elem_of_In.
        apply in_map, list_elem_of_In, Hq. }
    simpl playerCache. fold m1. rewrite Hsize.
    pose proof (div10_step (size (playerCache s))) as Hstep.
    destruct (Z.of_nat (S (size (playerCache s))) mod 10 =? 0).
    + specialize (IH (record EvSaveCache (writeCacheFile (setCache m1 s))) Hnd').
      cbn -[Nat.div countSaves] in IH. destruct (IH Hfresh') as [IH1 IH2].
      rewrite countSaves_app in IH1. change (countSaves [EvSaveCache]) with 1%nat in IH1.
      rewrite Hsize in IH1, IH2. split; [|lia].
      replace (size (playerCache s) + S (length ps))%nat
        with (S (size (playerCache s)) + length ps)%nat by lia.
      lia.
    + specialize (IH (setCache m1 s) Hnd').
      cbn -[Nat.div countSaves] in IH. destruct (IH Hfresh') as [IH1 IH2].
      rewrite Hsize in IH1, IH2. split; [|lia].
      replace (size (playerCache s) + S (length ps))%nat
        with (S (size (playerCache s)) + length ps)%nat by lia.
      lia.
Qed.

Lemma saveCache_run (s : State) :
  saveCache s = (Val tt, record EvSaveCache (writeCacheFile s)).
Proof. reflexivity. Qed.

(** A search that returns has saved the cache as its last effect. *)
Lemma runSearch_saves_at_end env fuel o tds lo hi s rs s' :
  runSearch env fuel o tds lo hi s = (Val rs, s') ->
  (exists tr, trace s' = tr ++ [EvSaveCache]) /\
  cacheFile s' = playerCache s' /\ rs = results s'.
Proof.
  unfold runSearch. intros H.
  apply bind_Val_inv in H as (_ & s1 & _ & H).
  apply bind_Val_inv in H as (l & s2 & _ & H).
  apply bind_Val_inv in H as (_ & s3 & _ & H).
  apply bind_Val_inv in H as (u & s4 & Hsave & H).
  rewrite saveCache_run in Hsave. unfold gets in H.
  injection Hsave as _ <-. injection H as <- <-. simpl.
  split; [eauto|]. split; reflexivity.
Qed.

(** Ten upserts of one and the same player into an empty cache: the tenth
    does not save. *)
Lemma ten_upserts_one_key_no_save :
  countSaves (trace (snd (cachePlayers (replicate 10 playerP9) sampleState)))
  = 0%nat /\
  (0 <> 10 / 10)%nat.
Proof. split; [vm_compute; reflexivity | discriminate]. Qed.

(** Overwriting a key of a cache that holds ten keys saves at once. *)
Example overwrite_at_ten_keys_saves :
  let s := snd (cachePlayers tenPlayers sampleState) in
  countSaves (trace s) = 1%nat /\
  countSaves (trace (snd (cachePlayer (numbered 3) s))) = 2%nat.
Proof. split; vm_compute; reflexivity. Qed.

(** C9 (as the code has it). [cachePlayer] saves exactly when the cache,
    after the upsert, holds a multiple of ten keys; so players with new,
    distinct identifiers put into an empty cache cause one save per ten of
    them; and a search that was started and returns has saved the cache as its
    last effect, the file then holding the whole cache. *)
Theorem cache_flush_policy :
  (forall p s,
     let n := size (<[Player.puuid p := mkCached p (now s)]> (playerCache s)) in
     trace (snd (cachePlayer p s))
     = trace s ++ (if Z.of_nat n mod 10 =? 0 then [EvSaveCache] else [])) /\
  (forall ps s,
     NoDup (map Player.puuid ps) -> playerCache s = ∅ ->
     countSaves (trace (snd (cachePlayers ps s)))
     = (countSaves (trace s) + length ps / 10)%nat) /\
  (forall env fuel o s rs s',
     lpRangeAccepted o = true ->
     scoutPlayers env fuel o s = (Val rs, s') ->
     (exists tr, trace s' = tr ++ [EvSaveCache]) /\
     cacheFile s' = playerCache s').
Proof.
  split; [|split].
  - intros p s n. rewrite cachePlayer_run. cbv zeta. subst n. simpl.
    destruct (_ =? 0); simpl; [reflexivity | now rewrite app_nil_r].
  - intros ps s Hnd Hempty.
    destruct (cachePlayers_fresh_keys ps s Hnd) as [H _].
    { intros p _. rewrite Hempty. apply lookup_empty. }
    rewrite Hempty, map_size_empty in H. simpl in H.
    rewrite Nat.add_0_r in H. exact H.
  - intros env fuel o s rs s' Hacc H. unfold scoutPlayers in H.
    unfold lpRangeAccepted in Hacc.
    destruct (Options.lpRange o) as [[|c r]|].
    + apply runSearch_saves_at_end in H. tauto.
    + destruct (matchLpRange (String c r)) as [[lo hi]|]; [|discriminate].
      apply runSearch_saves_at_end in H. tauto.
    + apply runSearch_saves_at_end in H. tauto.
Qed.

Lemma cache_flush_policy_witness :
  countSaves (trace (snd (cachePlayers tenPlayers sampleState))) = 1%nat.
Proof.
  apply (proj1 (proj2 cache_flush_policy) tenPlayers sampleState).
  - apply (bool_decide_unpack _). vm_compute. exact I.
  - reflexivity.
Defined.

(** ** Configuration errors *)

Example matchLpRange_ok : matchLpRange "800-1000" = Some ("800", "1000").
Proof. reflexivity. Qed.

Example matchLpRange_examples :
  matchLpRange "abc" = None /\ matchLpRange "800" = None /\
  matchLpRange "800-" = None /\ matchLpRange "-1000" = None /\
  matchLpRange "800-1000 " = None /\ matchLpRange "8oo-1000" = None.
Proof. repeat split. Qed.

(** An unparseable range makes [scoutPlayers] return the empty list: nothing is
    thrown. *)
Lemma bad_lpRange_returns_normally :
  fst (scoutPlayers sampleEnv 10 (withLpRange "abc" sampleOptions) sampleState)
  = Val [] /\
  forall e,
    fst (scoutPlayers sampleEnv 10 (withLpRange "abc" sampleOptions) sampleState)
    <> Throw e.
Proof. split; [reflexivity | intros e; discriminate]. Qed.

(** The empty string is no range at all: the search runs on tier and division. *)
Example empty_lpRange_searches :
  List.filter isFetch
    (trace (snd (scoutPlayers sampleEnv 10 (withLpRange EmptyString sampleOptions)
                   sampleState)))
  <> [].
Proof. vm_compute. discriminate. Qed.

(** C8 (as the code has it). For every non-empty [lpRange] that is not of the
    form [min-max], [scoutPlayers] logs the format error and returns the empty
    list at once: nothing is thrown, no request is made, the cache is not
    saved, the state of the previous search is not touched. *)
Theorem scoutPlayers_bad_lpRange env fuel (o : Options.t) (r : string) (s : State) :
  Options.lpRange o = Some r -> r <> EmptyString -> matchLpRange r = None ->
  scoutPlayers env fuel o s
  = (Val [], record (EvConsoleError "Invalid lpRange format") s).
Proof.
  intros Hr Hne Hm. unfold scoutPlayers. rewrite Hr.
  destruct r as [|c r]; [contradiction|]. rewrite Hm. reflexivity.
Qed.

Lemma scoutPlayers_bad_lpRange_witness :
  scoutPlayers sampleEnv 10 (withLpRange "10-x" sampleOptions) sampleState
  = (Val [], record (EvConsoleError "Invalid lpRange format") sampleState).
Proof.
  apply (scoutPlayers_bad_lpRange sampleEnv 10 (withLpRange "10-x" sampleOptions)
           "10-x" sampleState); [reflexivity | discriminate | reflexivity].
Defined.

(** ** Request gate *)

Lemma bind_run {A B} (m : M A) (f : A -> M B) s a s1 :
  m s = (Val a, s1) -> bind m f s = f a s1.
Proof. unfold bind. now intros ->. Qed.

Lemma rateLimiterWait_run (s : State) :
  rateLimiterWait s
  = (Val tt,
     if now s - lastRequest s <? minDelay
     then stampRequest
            (record (EvSleep (minDelay - (now s - lastRequest s)))
                    (advanceClock (minDelay - (now s - lastRequest s)) s))
     else stampRequest s).
Proof.
  unfold rateLimiterWait, bind, gets. simpl.
  destruct (now s - lastRequest s <? minDelay); reflexivity.
Qed.

(** With no abort signalled, the cool-down runs all its rounds: it only
    sleeps (and polls), one [checkInterval] per round. *)
Lemma coolDown_quiet env (n : nat) :
  forall s,
    quietFor env (polls s) n ->
    exists s',
      coolDown env n s = (Val tt, s') /\
      trace s' = trace s ++ coolDownEvents env n /\
      now s' = now s + checkInterval * Z.of_nat n /\
      requests s' = requests s /\ lastRequest s' = lastRequest s.
Proof.
  induction n as [|n IH]; intros s Hq.
  - exists s. simpl. rewrite app_nil_r. repeat split; lia.
  - assert (Hstep : exists s1,
              searchAborted env s = (Val false, s1) /\
              sleep checkInterval s1
              = (Val tt, record (EvSleep checkInterval) (advanceClock checkInterval s1)) /\
              trace s1 ++ [EvSleep checkInterval] = trace s ++ coolDownRound env /\
              now s1 = now s /\ requests s1 = requests s /\
              lastRequest s1 = lastRequest s /\
              quietFor env (polls s1) n).
    { unfold searchAborted, coolDownRound, quietFor in *.
      destruct (isSearchAborted env) as [answer|] eqn:E.
      - assert (H0 : answer (polls s) = false).
        { specialize (Hq answer eq_refl 0%nat). rewrite Nat.add_0_r in Hq.
          apply Hq. lia. }
        eexists. unfold bind, gets, modify. simpl. rewrite H0.
        repeat split; try reflexivity.
        + simpl. now rewrite <- app_assoc.
        + intros a Ha j Hj. injection Ha as <-. simpl.
          replace (S (polls s + j))%nat with (polls s + S j)%nat by lia.
          apply Hq; [reflexivity | lia].
      - exists s. repeat split; try reflexivity. intros a Ha. discriminate. }
    destruct Hstep as (s1 & Hab & Hsl & Htr & Hnow & Hreq & Hlast & Hq1).
    destruct (IH (record (EvSleep checkInterval) (advanceClock checkInterval s1)))
      as (s' & Hrun & Htr' & Hnow' & Hreq' & Hlast'); [exact Hq1|].
    exists s'. simpl coolDown.
    rewrite (bind_run _ _ _ _ _ Hab). simpl.
    rewrite (bind_run _ _ _ _ _ Hsl). rewrite Hrun.
    simpl in Htr', Hnow', Hreq', Hlast'.
    repeat split.
    + rewrite Htr', Htr. unfold coolDownEvents. simpl.
      now rewrite <- app_assoc.
    + lia.
    + congruence.
    + congruence.
Qed.

Lemma fetch_run {A} url (answer : nat -> Response A) s :
  fetch url answer s
  = (Val (answer (requests s)), record (EvFetch url) (countRequest s)).
Proof. reflexivity. Qed.

Lemma notifyRateLimit_run env b n s :
  exists s',
    notifyRateLimit env b n s = (Val tt, s') /\
    trace s' = trace s ++ rateLimitEvents env b n /\
    now s' = now s /\ requests s' = requests s /\
    lastRequest s' = lastRequest s /\ polls s' = polls s.
Proof.
  unfold notifyRateLimit, rateLimitEvents.
  destruct (sendRateLimit env).
  - eexists. split; [reflexivity|]. simpl. repeat split; reflexivity.
  - exists s. rewrite app_nil_r. repeat split; reflexivity.
Qed.

Lemma overload_is_not_ok {A} (r : Response A) : status r = 429 -> ok r = false.
Proof. unfold ok. intros ->. reflexivity. Qed.

Lemma ok_is_not_overload {A} (r : Response A) :
  ok r = true -> status r <> 429 /\ status r <> 403.
Proof. unfold ok. intros H. apply andb_true_iff in H as [_ H]. lia. Qed.

(** C1. When the provider answers a request with 429 and the retry with a
    success, and no abort is signalled at the 120 polls of the cool-down,
    [apiRequest] returns the body of the success; in between it has told the
    rate-limit observer [(true, 120)], slept 120 times one second with a poll
    of the abort predicate before each, told the observer [(false, 0)], and
    fetched the same address once more, without a further delay. *)
Theorem apiRequest_one_overload env {A} (fuel : nat) (url : Url)
    (answer : nat -> Response A) (s : State) :
  status (answer (requests s)) = 429 ->
  ok (answer (S (requests s))) = true ->
  quietFor env (polls s) 120 ->
  exists s',
    apiRequest env (S (S fuel)) url answer s
    = (Val (body (answer (S (requests s)))), s') /\
    trace s'
    = trace s ++ waitEvents s ++ [EvFetch url]
      ++ rateLimitEvents env true 120
      ++ coolDownEvents env 120
      ++ rateLimitEvents env false 0
      ++ [EvFetch url] /\
    now s' = Z.max (now s) (lastRequest s + minDelay) + waitTime /\
    requests s' = S (S (requests s)) /\
    length (List.filter isFetch (trace s'))
    = (2 + length (List.filter isFetch (trace s)))%nat.
Proof.
  intros H429 Hok Hquiet.
  pose proof (rateLimiterWait_run s) as Hw. cbv zeta in Hw.
  set (s1 := if now s - lastRequest s <? minDelay
             then stampRequest
                    (record (EvSleep (minDelay - (now s - lastRequest s)))
                       (advanceClock (minDelay - (now s - lastRequest s)) s))
             else stampRequest s) in Hw.
  assert (H1 : trace s1 = trace s ++ waitEvents s /\
               now s1 = Z.max (now s) (lastRequest s + minDelay) /\
               lastRequest s1 = now s1 /\
               requests s1 = requests s /\ polls s1 = polls s).
  { unfold s1, waitEvents.
    destruct (Z.ltb_spec (now s - lastRequest s) minDelay); simpl.
    - repeat split; try reflexivity. lia.
    - rewrite app_nil_r. repeat split; try reflexivity. lia. }
  destruct H1 as (Ht1 & Hn1 & Hl1 & Hr1 & Hp1).
  set (s2 := record (EvFetch url) (countRequest s1)).
  destruct (notifyRateLimit_run env true 120 s2)
    as (s3 & Hnot & Ht3 & Hn3 & Hr3 & Hl3 & Hp3).
  destruct (coolDown_quiet env 120 s3) as (s4 & Hcd & Ht4 & Hn4 & Hr4 & Hl4).
  { rewrite Hp3. simpl. rewrite Hp1. exact Hquiet. }
  destruct (notifyRateLimit_run env false 0 s4)
    as (s5 & Hnot' & Ht5 & Hn5 & Hr5 & Hl5 & _).
  assert (Hgap : now s5 - lastRequest s5 = waitTime).
  { rewrite Hn5, Hl5, Hn4, Hl4, Hn3, Hl3. simpl. rewrite Hl1.
    unfold checkInterval, waitTime. lia. }
  assert (Hreq5 : requests s5 = S (requests s)).
  { rewrite Hr5, Hr4, Hr3. simpl. now rewrite Hr1. }
  exists (record (EvFetch url) (countRequest (stampRequest s5))).
  split; [|split; [|split; [|split]]].
  - cbn [apiRequest].
    rewrite (bind_run _ _ _ _ _ Hw), (bind_run _ _ _ _ _ (fetch_run url answer s1)).
    rewrite Hr1, (overload_is_not_ok _ H429), H429.
    cbn [negb Z.eqb Pos.eqb]. fold s2. rewrite (bind_run _ _ _ _ _ Hnot).
    change (Z.to_nat (waitTime / checkInterval)) with 120%nat.
    rewrite (bind_run _ _ _ _ _ Hcd), (bind_run _ _ _ _ _ Hnot').
    assert (Hw5 : rateLimiterWait s5 = (Val tt, stampRequest s5)).
    { rewrite rateLimiterWait_run, Hgap. reflexivity. }
    rewrite (bind_run _ _ _ _ _ Hw5),
            (bind_run _ _ _ _ _ (fetch_run url answer (stampRequest s5))).
    change (requests (stampRequest s5)) with (requests s5).
    rewrite Hreq5, Hok. reflexivity.
  - simpl. rewrite Ht5, Ht4, Ht3. simpl. rewrite Ht1.
    now rewrite <- !app_assoc.
  - simpl. rewrite Hn5, Hn4, Hn3. simpl. rewrite Hn1.
    unfold checkInterval, waitTime. lia.
  - simpl. now rewrite Hreq5.
  - simpl. rewrite Ht5, Ht4, Ht3. simpl. rewrite Ht1.
    rewrite !List.filter_app, !List.length_app.
    assert (Hw0 : List.filter isFetch (waitEvents s) = []).
    { unfold waitEvents. now destruct (_ <? _). }
    assert (Hr0 : forall b n, List.filter isFetch (rateLimitEvents env b n) = []).
    { intros b n. unfold rateLimitEvents. now destruct (sendRateLimit env). }
    assert (Hc0 : forall n, List.filter isFetch (coolDownEvents env n) = []).
    { induction n as [|n IHn]; [reflexivity|].
      unfold coolDownEvents in *. simpl. rewrite List.filter_app, IHn, app_nil_r.
      unfold coolDownRound. now destruct (isSearchAborted env). }
    rewrite Hw0, !Hr0, Hc0. simpl. lia.
Qed.

Lemma apiRequest_one_overload_witness :
  exists s',
    apiRequest sampleEnv 2 (LeagueExpUrl "RANKED_SOLO_5x5" "GOLD" "II" 1)
      overloadedOnce sampleState
    = (Val (Some [entryP1; entryP2]), s') /\
    now s' = 1320000 /\ requests s' = 2%nat.
Proof.
  destruct (apiRequest_one_overload sampleEnv 0
              (LeagueExpUrl "RANKED_SOLO_5x5" "GOLD" "II" 1)
              overloadedOnce sampleState)
    as (s' & Hrun & _ & Hnow & Hreq & _).
  - reflexivity.
  - reflexivity.
  - intros answer Ha j Hj. simpl in Ha. injection Ha as <-. reflexivity.
  - exists s'. split; [exact Hrun|]. split; [exact Hnow | exact Hreq].
Defined.

(** An abort signalled during the cool-down ends the request with an
    exception, before any retry. *)
Example apiRequest_aborted_in_cool_down :
  let out := apiRequest (abortingEnv 2) 5
               (LeagueExpUrl "RANKED_SOLO_5x5" "GOLD" "II" 2)
               (fun k => leagueExp (abortingEnv 2) k "RANKED_SOLO_5x5" "GOLD" "II" 2)
               sampleState in
  fst out = Throw SearchAborted /\ requests (snd out) = 1%nat /\
  now (snd out) = 1202000.
Proof. repeat split. Qed.

(** ** Abort *)

(** An abort seen at the polls of the loops ends the search as exhaustion
    does: the cache is saved and the players found so far are returned. *)
Example abort_at_loop_poll_returns :
  let out := scoutPlayers (abortingEnv 5) 10 sampleOptions sampleState in
  map Player.puuid (results (snd out)) = ["p2"; "p1"; "p3"] /\
  fst out = Val (results (snd out)) /\
  cacheFile (snd out) = playerCache (snd out) /\
  countSaves (trace (snd out)) = 1%nat.
Proof. vm_compute. repeat split. Qed.

(** C2 (the code departs from it). The front end raises the abort flag two
    seconds into the cool-down of a 429 on a ladder page, after three players
    were found: [scoutPlayers] ends with the exception [Search aborted], the
    three players are not returned, and the three new cache records are never
    written to the file. *)
Theorem abort_in_cool_down_is_thrown :
  let out := scoutPlayers (abortingEnv 9) 10 sampleOptions sampleState in
  fst out = Throw SearchAborted /\
  map Player.puuid (results (snd out)) = ["p2"; "p1"; "p3"] /\
  size (playerCache (snd out)) = 3%nat /\
  cacheFile (snd out) = ∅ /\
  countSaves (trace (snd out)) = 0%nat.
Proof. vm_compute. repeat split. Qed.

(** ** What the request gate and the helpers leave alone *)

Lemma sameSearch_refl s : sameSearch s s.
Proof. repeat split. Qed.

Lemma sameSearch_trans s1 s2 s3 :
  sameSearch s1 s2 -> sameSearch s2 s3 -> sameSearch s1 s3.
Proof. unfold sameSearch. intros (?&?&?) (?&?&?). repeat split; congruence. Qed.

Lemma leaves_ret {A} (a : A) : leavesSearch (ret a).
Proof. intros s. apply sameSearch_refl. Qed.

Lemma leaves_throw {A} e : leavesSearch (@throw A e).
Proof. intros s. apply sameSearch_refl. Qed.

Lemma leaves_diverge {A} : leavesSearch (@diverge A).
Proof. intros s. apply sameSearch_refl. Qed.

Lemma leaves_gets {A} (f : State -> A) : leavesSearch (gets f).
Proof. intros s. apply sameSearch_refl. Qed.

Lemma leaves_modify (f : State -> State) :
  (forall s, sameSearch s (f s)) -> leavesSearch (modify f).
Proof. intros H s. apply H. Qed.

Lemma leaves_bind {A B} (m : M A) (f : A -> M B) :
  leavesSearch m -> (forall a, leavesSearch (f a)) -> leavesSearch (bind m f).
Proof.
  intros Hm Hf s. specialize (Hm s). unfold bind.
  destruct (m s) as [[a|e|] s1]; simpl in *; auto.
  eapply sameSearch_trans; [exact Hm | apply Hf].
Qed.

Lemma leaves_tryCatch {A} (m : M A) (h : Error -> M A) :
  leavesSearch m -> (forall e, leavesSearch (h e)) -> leavesSearch (tryCatch m h).
Proof.
  intros Hm Hh s. specialize (Hm s). unfold tryCatch.
  destruct (m s) as [[a|e|] s1]; simpl in *; auto.
  eapply sameSearch_trans; [exact Hm | apply Hh].
Qed.

Create HintDb frame.

Ltac frame :=
  repeat first
    [ apply leaves_ret | apply leaves_throw | apply leaves_diverge
    | apply leaves_gets
    | apply leaves_modify; intros ?; repeat split; reflexivity
    | apply leaves_bind; [|intros ?]
    | apply leaves_tryCatch; [|intros ?]
    | match goal with
      | |- leavesSearch (if ?b then _ else _) => destruct b
      | |- leavesSearch (match ?x with _ => _ end) => destruct x
      end
    | solve [auto with frame] ].

Lemma leaves_sleep ms : leavesSearch (sleep ms).
Proof. unfold sleep. frame. Qed.

Lemma leaves_rateLimiterWait : leavesSearch rateLimiterWait.
Proof. unfold rateLimiterWait. pose proof leaves_sleep. frame. Qed.

Lemma leaves_searchAborted env : leavesSearch (searchAborted env).
Proof. unfold searchAborted. frame. Qed.

Lemma leaves_notifyRateLimit env b n : leavesSearch (notifyRateLimit env b n).
Proof. unfold notifyRateLimit. frame. Qed.

Lemma leaves_notifyPlayerFound env p : leavesSearch (notifyPlayerFound env p).
Proof. unfold notifyPlayerFound. frame. Qed.

Lemma leaves_randomIndex env n : leavesSearch (randomIndex env n).
Proof. unfold randomIndex. frame. Qed.

Lemma leaves_fetch {A} url (answer : nat -> Response A) :
  leavesSearch (fetch url answer).
Proof. unfold fetch. frame. Qed.

Lemma leaves_saveCache : leavesSearch saveCache.
Proof. unfold saveCache. frame. Qed.

#[global] Hint Resolve leaves_sleep leaves_rateLimiterWait leaves_searchAborted
  leaves_notifyRateLimit leaves_notifyPlayerFound leaves_randomIndex
  leaves_fetch leaves_saveCache : frame.

Lemma leaves_coolDown env n : leavesSearch (coolDown env n).
Proof. induction n as [|n IH]; simpl; frame. Qed.

#[global] Hint Resolve leaves_coolDown : frame.

Lemma leaves_apiRequest env {A} fuel url (answer : nat -> Response A) :
  leavesSearch (apiRequest env fuel url answer).
Proof. induction fuel as [|fuel IH]; simpl; frame. Qed.

#[global] Hint Resolve leaves_apiRequest : frame.

Lemma leaves_getLastActiveMinutes env gas puuid :
  leavesSearch (getLastActiveMinutes env gas puuid).
Proof.
  unfold getLastActiveMinutes, getMatchIds, getMatchDetails. frame.
Qed.

Lemma leaves_resolveName env gas puuid : leavesSearch (resolveName env gas puuid).
Proof. unfold resolveName, getRiotIdByPuuid. frame. Qed.

Lemma leaves_shuffleFrom env {A} i : forall l : list A, leavesSearch (shuffleFrom env i l).
Proof. induction i as [|i IH]; intros l; simpl; frame. Qed.

Lemma leaves_shuffleArray env {A} (l : list A) : leavesSearch (shuffleArray env l).
Proof. apply leaves_shuffleFrom. Qed.

#[global] Hint Resolve leaves_getLastActiveMinutes leaves_resolveName
  leaves_shuffleArray : frame.

(** A computation that leaves the search alone keeps whatever is known of it. *)
Lemma wp_frame {A} (m : M A) (Q : Res A -> State -> Prop) s :
  leavesSearch m -> (forall r s', sameSearch s s' -> Q r s') -> wp m Q s.
Proof. intros Hm HQ. apply HQ, Hm. Qed.

Lemma wp_ret {A} (a : A) (Q : Res A -> State -> Prop) s : Q (Val a) s -> wp (ret a) Q s.
Proof. auto. Qed.

Lemma wp_gets {A} (f : State -> A) (Q : Res A -> State -> Prop) s :
  Q (Val (f s)) s -> wp (gets f) Q s.
Proof. auto. Qed.

Lemma wp_modify (f : State -> State) (Q : Res unit -> State -> Prop) s :
  Q (Val tt) (f s) -> wp (modify f) Q s.
Proof. auto. Qed.

(** ** The result list: distinct identifiers, at most [maxPlayers] entries *)

Section ResultInvariant.

Variable env : Env.
Variable gas : nat.
Variable maxPlayers : nat.
Variable cacheOptions : CacheOptions.

Local Abbreviation Inv := (searchInv maxPlayers).
Local Abbreviation Room := (hasRoom maxPlayers).

Lemma searchInv_same s s' : sameSearch s s' -> Inv s -> Inv s'.
Proof.
  unfold sameSearch, searchInv. intros (Hr & Hs & Hc). rewrite Hr, Hs, Hc. auto.
Qed.

Lemma hasRoom_same pp s s' : sameSearch s s' -> Room pp s -> Room pp s'.
Proof.
  intros Hsame (Hi & Hl & Hn). split; [eapply searchInv_same; eauto|].
  destruct Hsame as (Hr & _). rewrite Hr. auto.
Qed.

Lemma hasRoom_inv pp s : Room pp s -> Inv s.
Proof. now intros (H & _). Qed.

Lemma hasRoom_intro pp s :
  Inv s -> (length (results s) < maxPlayers)%nat -> pp ∉ seenPuuids s -> Room pp s.
Proof.
  intros Hi Hl Hn. split; [exact Hi|]. split; [exact Hl|].
  intros Hin. apply Hn. apply list_elem_of_fmap in Hin as (p & -> & Hp).
  destruct Hi as (_ & Hseen & _). now apply Hseen.
Qed.

Lemma hasRoom_addSeen pp x s : Room pp s -> Room pp (addSeen x s).
Proof.
  intros ((Hnd & Hseen & Hlen & Hc) & Hl & Hn).
  repeat split; simpl; auto. intros p Hp. apply elem_of_union_r. now apply Hseen.
Qed.

Lemma cacheKeyed_insert (m : gmap string CachedPlayer) p t :
  cacheKeyed m -> cacheKeyed (<[Player.puuid p := mkCached p t]> m).
Proof.
  intros Hm k c. rewrite lookup_insert. case_decide as E.
  - intros [= <-]. simpl. exact E.
  - apply Hm.
Qed.

Lemma searchInv_push p s :
  Room (Player.puuid p) s -> Player.puuid p ∈ seenPuuids s ->
  Inv (pushResult p s).
Proof.
  intros ((Hnd & Hseen & Hlen & Hc) & Hl & Hn) Hin.
  repeat split; simpl.
  - rewrite map_app. apply NoDup_app. split; [exact Hnd|]. split.
    + intros x Hx Hx'. apply list_elem_of_singleton in Hx'. subst x. auto.
    + apply NoDup_singleton.
  - intros q Hq. apply elem_of_app in Hq as [Hq|Hq]; [now apply Hseen|].
    apply list_elem_of_singleton in Hq. now subst q.
  - rewrite length_app. simpl. lia.
  - exact Hc.
Qed.

Lemma wp_cachePlayer p (Q : Res unit -> State -> Prop) s :
  (forall s',
     results s' = results s -> seenPuuids s' = seenPuuids s ->
     playerCache s' = <[Player.puuid p := mkCached p (now s)]> (playerCache s) ->
     Q (Val tt) s') ->
  wp (cachePlayer p) Q s.
Proof.
  intros H. unfold wp. rewrite cachePlayer_run. cbv zeta. simpl fst. simpl snd.
  apply H; destruct (_ =? 0); reflexivity.
Qed.

Lemma hasRoom_cached p pp s s' :
  Room pp s ->
  results s' = results s -> seenPuuids s' = seenPuuids s ->
  (exists t, playerCache s' = <[Player.puuid p := mkCached p t]> (playerCache s)) ->
  Room pp s'.
Proof.
  intros ((Hnd & Hseen & Hlen & Hc) & Hl & Hn) Hr Hs (t & Hm).
  unfold hasRoom, searchInv. rewrite Hr, Hs, Hm.
  repeat split; auto. now apply cacheKeyed_insert.
Qed.

(** The cache accept path. *)
Lemma acceptCached_inv pp c s :
  Room pp s -> Player.puuid (cached c) = pp ->
  wp (acceptCached env pp c) (fun _ s' => Inv s') s.
Proof.
  intros Hroom Hpp. unfold acceptCached.
  apply wp_bind, wp_modify. apply wp_bind, wp_gets. cbv zeta.
  apply wp_bind, wp_modify. apply wp_frame; [auto with frame|].
  intros r s' Hsame. eapply searchInv_same; [exact Hsame|].
  apply searchInv_push.
  - simpl. rewrite Hpp. now apply hasRoom_addSeen.
  - simpl. rewrite Hpp. apply elem_of_union_l, elem_of_singleton. reflexivity.
Qed.

Lemma usableCached_run pp s :
  exists hit,
    usableCached cacheOptions pp s = (Val hit, s) /\
    forall c, hit = Some c -> playerCache s !! pp = Some c.
Proof.
  unfold usableCached, getCachedPlayer, bind, gets, cacheLookup. simpl.
  destruct (playerCache s !! pp) as [c|]; [|eexists; split; [reflexivity|discriminate]].
  destruct (CACHE_MAX_AGE <? now s - cachedAt c);
    [eexists; split; [reflexivity|discriminate]|].
  destruct (cachedPlayerMeetsCriteria (now s) c cacheOptions);
    eexists; (split; [reflexivity|]); [now intros ? [= <-] | discriminate].
Qed.

(** The fresh accept path, with what follows it. *)
Lemma wp_acceptFresh {A} pp (mk : string -> Z -> Player.t) (k : Player.t -> M A)
    (Q : Res A -> State -> Prop) s :
  Room pp s ->
  (forall n t, Player.puuid (mk n t) = pp) ->
  (forall r s', Inv s' -> match r with Val _ => True | _ => Q r s' end) ->
  (forall p s', Inv s' -> wp (k p) Q s') ->
  wp (run modify (addSeen pp);
      do displayName <- resolveName env gas pp;
      do t <- gets now;
      run cachePlayer (mk displayName t);
      run modify (pushResult (mk displayName t));
      run notifyPlayerFound env (mk displayName t);
      k (mk displayName t)) Q s.
Proof.
  intros Hroom Hmk Habort Hk.
  apply wp_bind, wp_modify. apply wp_bind.
  apply wp_frame; [auto with frame|]. intros r s1 H1.
  assert (R1 : Room pp s1) by (eapply hasRoom_same; [exact H1|]; now apply hasRoom_addSeen).
  assert (S1 : pp ∈ seenPuuids s1).
  { destruct H1 as (_ & -> & _). apply elem_of_union_l, elem_of_singleton. reflexivity. }
  destruct r as [name|e|]; [| apply (Habort (Throw e)), (hasRoom_inv _ _ R1)
                              | apply (Habort Diverge), (hasRoom_inv _ _ R1)].
  apply wp_bind, wp_gets. apply wp_bind, wp_cachePlayer.
  intros s2 Hr2 Hs2 Hc2.
  assert (R2 : Room pp s2) by (eapply hasRoom_cached; eauto).
  apply wp_bind, wp_modify. apply wp_bind.
  apply wp_frame; [auto with frame|]. intros r s3 H3.
  assert (I3 : Inv s3).
  { eapply searchInv_same; [exact H3|]. apply searchInv_push.
    - now rewrite Hmk.
    - rewrite Hmk, Hs2. exact S1. }
  destruct r as [u|e|]; [apply Hk, I3 | apply (Habort (Throw e)), I3
                         | apply (Habort Diverge), I3].
Qed.


Lemma leaves_getSummonerByPuuid p : leavesSearch (getSummonerByPuuid env gas p).
Proof. apply leaves_apiRequest. Qed.

Lemma leaves_getLeagueEntriesBySummonerId i :
  leavesSearch (getLeagueEntriesBySummonerId env gas i).
Proof. apply leaves_apiRequest. Qed.

Lemma leaves_getLeagueEntries q t d p :
  leavesSearch (getLeagueEntries env gas q t d p).
Proof. apply leaves_apiRequest. Qed.

Hint Resolve leaves_getSummonerByPuuid leaves_getLeagueEntriesBySummonerId
  leaves_getLeagueEntries : frame.

Lemma resultsFull_false s :
  (maxPlayers <=? length (results s))%nat = false ->
  (length (results s) < maxPlayers)%nat.
Proof. intros H. apply Nat.leb_gt in H. exact H. Qed.

(** A ranked standing of a match participant: taken at most once. *)
Lemma processLeagueEntry_inv a pp le s :
  Inv s -> pp ∉ map Player.puuid (results s) ->
  wp (processLeagueEntry env gas maxPlayers cacheOptions a pp le)
     (fun r s' =>
        match r with
        | Val Next => Inv s' /\ pp ∉ map Player.puuid (results s')
        | _ => Inv s'
        end) s.
Proof.
  intros Hi Hn. unfold processLeagueEntry, resultsFull.
  apply wp_bind, wp_gets.
  destruct (maxPlayers <=? length (results s))%nat eqn:Efull;
    [apply wp_ret, Hi|].
  apply resultsFull_false in Efull.
  destruct (_ && _); [apply wp_ret; auto|].
  cbv zeta.
  match goal with |- wp (if ?b then _ else _) _ _ => destruct b end;
    [apply wp_ret; auto|].
  destruct (js_lt _ _); [apply wp_ret; auto|].
  apply (wp_acceptFresh pp
           (fun n t =>
              playerFromEntry n (queueShortName (Entry.queueType le))
                (Entry.tier le) (Entry.rank le) le
                (toTotalLP (Entry.tier le) (Entry.rank le) (Entry.leaguePoints le))
                a pp true t)
           (fun _ => ret Break)).
  - split; [exact Hi | split; [exact Efull | exact Hn]].
  - reflexivity.
  - intros [c|e|] s' Hs'; auto.
  - intros p s' Hs'. apply wp_ret, Hs'.
Qed.

(** A participant of the triggering match. *)
Lemma processParticipant_inv puuid a pp s :
  Inv s ->
  wp (processParticipant env gas maxPlayers cacheOptions puuid a pp)
     (fun _ s' => Inv s') s.
Proof.
  intros Hi. unfold processParticipant, resultsFull.
  apply wp_bind, wp_gets.
  destruct (maxPlayers <=? length (results s))%nat eqn:Efull;
    [apply wp_ret, Hi|].
  apply resultsFull_false in Efull.
  apply wp_bind, wp_frame; [auto with frame|].
  intros r s1 H1.
  assert (I1 : Inv s1) by (eapply searchInv_same; eauto).
  destruct r as [[|]|e|]; try exact I1.
  unfold hasSeen. apply wp_bind, wp_gets.
  destruct (_ || _) eqn:Eskip; [apply wp_ret, I1|].
  apply orb_false_iff in Eskip as [_ Eseen].
  apply bool_decide_eq_false in Eseen.
  assert (R1 : Room pp s1).
  { apply hasRoom_intro; auto. destruct H1 as (-> & _). exact Efull. }
  destruct (usableCached_run pp s1) as (hit & Hrun & Hhit).
  apply wp_bind. unfold wp at 1. rewrite Hrun. simpl fst. simpl snd.
  destruct hit as [c|].
  - apply wp_bind. eapply wp_mono.
    + apply acceptCached_inv; [exact R1|].
      destruct I1 as (_ & _ & _ & Hkeyed). apply Hkeyed, Hhit. reflexivity.
    + intros [u|e|] s2 I2; exact I2.
  - apply wp_tryCatch. apply wp_bind, wp_frame; [auto with frame|].
    intros r s2 H2.
    assert (R2 : Room pp s2) by (eapply hasRoom_same; eauto).
    pose proof (hasRoom_inv _ _ R2) as I2.
    destruct r as [[su|]|e|]; try (apply wp_ret, I2); try exact I2.
    destruct (String.eqb _ _); [apply wp_ret, I2|].
    apply wp_bind, wp_frame; [auto with frame|].
    intros r s3 H3.
    assert (R3 : Room pp s3) by (eapply hasRoom_same; eauto).
    pose proof (hasRoom_inv _ _ R3) as I3.
    destruct r as [[[|le les]|]|e|]; try (apply wp_ret, I3); try exact I3.
    apply wp_bind. eapply wp_mono.
    + apply (wp_forOf _
               (fun s => Inv s /\ pp ∉ map Player.puuid (results s))
               (fun r s => match r with
                           | Val _ => Inv s
                           | Throw _ => Inv s
                           | Diverge => Inv s
                           end)).
      * intros s' [H _]. exact H.
      * intros x s' [Hi' Hn']. eapply wp_mono;
          [apply processLeagueEntry_inv; assumption|].
        intros [[|]|e|] s'' H; auto.
      * split; [exact I3 | apply R3].
    + intros [u|e|] s4 I4; exact I4.
Qed.

(** The participants of the triggering match. *)
Lemma expandMatch_inv puuid a s :
  Inv s ->
  wp (expandMatch env gas maxPlayers cacheOptions puuid a) (fun _ s' => Inv s') s.
Proof.
  intros Hi. unfold expandMatch, resultsFull. cbv zeta.
  apply wp_bind, wp_gets. apply wp_bind, wp_gets.
  destruct (_ && _); [|apply wp_ret, Hi].
  apply wp_bind, wp_modify.
  apply (wp_forOf _ Inv (fun _ s' => Inv s')).
  - auto.
  - intros x s' Hs'. eapply wp_mono; [apply processParticipant_inv, Hs'|].
    intros [[|]|e|] s'' H; exact H.
  - exact Hi.
Qed.

(** An entry of the ladder page. *)
Lemma processEntry_inv q t d entry s :
  Inv s ->
  wp (processEntry env gas maxPlayers cacheOptions q t d entry)
     (fun _ s' => Inv s') s.
Proof.
  intros Hi. unfold processEntry, resultsFull.
  apply wp_bind, wp_gets.
  destruct (maxPlayers <=? length (results s))%nat eqn:Efull;
    [apply wp_ret, Hi|].
  apply resultsFull_false in Efull.
  apply wp_bind, wp_frame; [auto with frame|].
  intros r s1 H1.
  assert (I1 : Inv s1) by (eapply searchInv_same; eauto).
  destruct r as [[|]|e|]; try exact I1.
  destruct (outsideLpRange _ _); [apply wp_ret, I1|].
  destruct (js_lt _ _); [apply wp_ret, I1|].
  cbv zeta. destruct (String.eqb _ _); [apply wp_ret, I1|].
  unfold hasSeen. apply wp_bind, wp_gets.
  destruct (bool_decide _) eqn:Eseen; [apply wp_ret, I1|].
  apply bool_decide_eq_false in Eseen.
  assert (R1 : Room (Entry.puuid entry) s1).
  { apply hasRoom_intro; auto. destruct H1 as (-> & _). exact Efull. }
  destruct (usableCached_run (Entry.puuid entry) s1) as (hit & Hrun & Hhit).
  apply wp_bind. unfold wp at 1. rewrite Hrun. simpl fst. simpl snd.
  destruct hit as [c|].
  - apply wp_bind. eapply wp_mono.
    + apply acceptCached_inv; [exact R1|].
      destruct I1 as (_ & _ & _ & Hkeyed). apply Hkeyed, Hhit. reflexivity.
    + intros [u|e|] s2 I2; exact I2.
  - apply wp_bind, wp_frame; [auto with frame|].
    intros r s2 H2.
    assert (R2 : Room (Entry.puuid entry) s2) by (eapply hasRoom_same; eauto).
    pose proof (hasRoom_inv _ _ R2) as I2.
    destruct r as [[act|]|e|]; try (apply wp_ret, I2); try exact I2.
    destruct (_ <=? _); [|apply wp_ret, I2].
    apply (wp_acceptFresh (Entry.puuid entry)
             (fun n time =>
                playerFromEntry n (queueShortName q) t d entry
                  (toTotalLP t d (Entry.leaguePoints entry))
                  act (Entry.puuid entry) false time)
             (fun _ =>
                run expandMatch env gas maxPlayers cacheOptions
                      (Entry.puuid entry) act;
                ret Next)).
    + exact R2.
    + reflexivity.
    + intros [c|e|] s' Hs'; auto.
    + intros p s' Hs'. apply wp_bind. eapply wp_mono;
        [apply expandMatch_inv, Hs'|].
      intros [u|e|] s'' H; exact H.
Qed.


(** The main loop. *)
Lemma mainLoop_inv fuel :
  forall combos s,
    Inv s ->
    wp (mainLoop env gas maxPlayers cacheOptions fuel combos)
       (fun _ s' => Inv s') s.
Proof.
  induction fuel as [|fuel IH]; intros combos s Hi; [exact Hi|].
  cbn [mainLoop]. unfold resultsFull.
  apply wp_bind, wp_gets.
  destruct (maxPlayers <=? length (results s))%nat; [exact Hi|].
  apply wp_bind, wp_frame; [auto with frame|].
  intros r s1 H1.
  assert (I1 : Inv s1) by (eapply searchInv_same; eauto).
  destruct r as [[|]|e|]; try exact I1.
  destruct (activeCombinations combos) as [|i0 rest]; [exact I1|].
  apply wp_bind, wp_frame; [auto with frame|].
  intros r s2 H2.
  assert (I2 : Inv s2) by (eapply searchInv_same; eauto).
  destruct r as [k|e|]; try exact I2.
  destruct (_ !! k) as [i|]; [|exact I2].
  destruct (combos !! i) as [combo|]; [|exact I2].
  destruct (untriedPages combo) as [|p0 pages]; [apply IH, I2|].
  apply wp_bind, wp_frame; [auto with frame|].
  intros r s3 H3.
  assert (I3 : Inv s3) by (eapply searchInv_same; eauto).
  destruct r as [j|e|]; try exact I3.
  destruct (_ !! j) as [page|]; [|exact I3].
  cbv zeta.
  apply wp_bind, wp_frame; [auto with frame|].
  intros r s4 H4.
  assert (I4 : Inv s4) by (eapply searchInv_same; eauto).
  destruct r as [[[|entry entries]|]|e|]; try exact I4; try (apply IH, I4).
  apply wp_bind, wp_frame; [auto with frame|].
  intros r s5 H5.
  assert (I5 : Inv s5) by (eapply searchInv_same; eauto).
  destruct r as [shuffled|e|]; try exact I5.
  apply wp_bind. eapply wp_mono.
  - apply (wp_forOf _ Inv (fun _ s' => Inv s')); [auto| |exact I5].
    intros x s' Hs'. eapply wp_mono; [apply processEntry_inv, Hs'|].
    intros [[|]|e|] s'' H; exact H.
  - intros [u|e|] s6 I6; try exact I6. apply IH, I6.
Qed.

End ResultInvariant.

Lemma runSearch_inv env fuel o tds lo hi s :
  cacheKeyed (playerCache s) ->
  wp (runSearch env fuel o tds lo hi)
     (fun r s' =>
        searchInv (Options.maxPlayers o) s' /\
        forall rs, r = Val rs -> rs = results s') s.
Proof.
  intros Hkeyed. unfold runSearch. cbv zeta.
  apply wp_bind, wp_modify.
  assert (I0 : searchInv (Options.maxPlayers o) (newSearch s)).
  { repeat split; simpl; auto.
    - apply NoDup_nil_2.
    - intros p Hp. inversion Hp.
    - lia. }
  apply wp_bind, wp_frame; [auto with frame|].
  intros r s1 H1.
  assert (I1 : searchInv (Options.maxPlayers o) s1)
    by (eapply searchInv_same; eauto).
  destruct r as [combos|e|]; try (split; [exact I1 | intros rs; discriminate]).
  apply wp_bind. eapply wp_mono; [apply mainLoop_inv, I1|].
  intros [u|e|] s2 I2; try (split; [exact I2 | intros rs; discriminate]).
  apply wp_bind, wp_frame; [auto with frame|].
  intros r s3 H3.
  assert (I3 : searchInv (Options.maxPlayers o) s3)
    by (eapply searchInv_same; eauto).
  destruct r as [u'|e|]; try (split; [exact I3 | intros rs; discriminate]).
  apply wp_gets. split; [exact I3|]. now intros rs [= <-].
Qed.

(** C4. Whatever the provider, the draws and the abort hook, a result list
    returned by [scoutPlayers] never holds two entries with the same player
    identifier and never more than [maxPlayers] entries: the cache-hit,
    fresh-lookup and match-participant accept paths all preserve this.  The
    cache the search starts from keeps every record under its own identifier,
    as [cachePlayer] stores them, and so does the cache the search leaves. *)
Theorem scoutPlayers_results_distinct_bounded env fuel (o : Options.t) (s : State) :
  cacheKeyed (playerCache s) ->
  cacheKeyed (playerCache (snd (scoutPlayers env fuel o s))) /\
  forall rs,
    fst (scoutPlayers env fuel o s) = Val rs ->
    NoDup (map Player.puuid rs) /\ (length rs <= Options.maxPlayers o)%nat.
Proof.
  intros Hkeyed.
  assert (Hrun : forall tds lo hi,
            cacheKeyed (playerCache (snd (runSearch env fuel o tds lo hi s))) /\
            forall rs,
              fst (runSearch env fuel o tds lo hi s) = Val rs ->
              NoDup (map Player.puuid rs) /\
              (length rs <= Options.maxPlayers o)%nat).
  { intros tds lo hi.
    destruct (runSearch_inv env fuel o tds lo hi s Hkeyed)
      as ((Hnd & _ & Hlen & Hk) & Hrs).
    split; [exact Hk|]. intros rs E. rewrite (Hrs rs E). auto. }
  unfold scoutPlayers.
  destruct (Options.lpRange o) as [[|c r]|]; try apply Hrun.
  destruct (matchLpRange (String c r)) as [[lo hi]|]; [apply Hrun|].
  split; [exact Hkeyed|]. intros rs [= <-].
  split; [apply NoDup_nil_2 | simpl; lia].
Qed.

Lemma scoutPlayers_results_distinct_bounded_witness :
  exists rs,
    fst (scoutPlayers sampleEnv 10 sampleOptions warmState) = Val rs /\
    map Player.puuid rs = ["p2"; "p1"; "p3"] /\
    map Player.fromCache rs = [false; true; false] /\
    NoDup (map Player.puuid rs) /\ (length rs <= 5)%nat.
Proof.
  eexists. split; [vm_compute; reflexivity|].
  split; [reflexivity|]. split; [reflexivity|].
  apply (scoutPlayers_results_distinct_bounded sampleEnv 10 sampleOptions warmState).
  - intros k c H.
    change (playerCache warmState)
      with ({[ "p1" := mkCached playerP1 1100000 ]} : gmap string CachedPlayer) in H.
    apply lookup_singleton_Some in H as [<- <-]. reflexivity.
  - vm_compute. reflexivity.
Defined.

(** ** Termination *)

Lemma outcomeOk_weaken {A} (r : Res A) : outcomeOk true r -> forall b, outcomeOk b r.
Proof. destruct r; simpl; auto. discriminate. Qed.

Lemma safe_weaken {A} (m : M A) : safe true m -> forall b, safe b m.
Proof. intros H b s. apply outcomeOk_weaken, H. Qed.

Lemma safe_ret {A} b (a : A) : safe b (ret a).
Proof. intros s. exact I. Qed.

Lemma safe_gets {A} b (f : State -> A) : safe b (gets f).
Proof. intros s. exact I. Qed.

Lemma safe_modify b f : safe b (modify f).
Proof. intros s. exact I. Qed.

Lemma safe_throw {A} e : safe false (@throw A e).
Proof. intros s. reflexivity. Qed.

Lemma safe_bind {A B} b (m : M A) (f : A -> M B) :
  safe b m -> (forall a, safe b (f a)) -> safe b (bind m f).
Proof.
  intros Hm Hf s. specialize (Hm s). unfold bind.
  destruct (m s) as [[a|e|] s1]; simpl in *; auto. apply Hf.
Qed.

(** A [try] block whose body ends, with a handler that is safe. *)
Lemma safe_tryCatch {A} b (m : M A) (h : Error -> M A) :
  safe false m -> (forall e, safe b (h e)) -> safe b (tryCatch m h).
Proof.
  intros Hm Hh s. specialize (Hm s). unfold tryCatch.
  destruct (m s) as [[a|e|] s1]; simpl in *; auto. apply Hh.
Qed.

Lemma safe_forOf {A} b (body : A -> M Ctl) (l : list A) :
  (forall x, safe b (body x)) -> safe b (forOf l body).
Proof.
  intros Hbody. induction l as [|x l IH]; simpl; [apply safe_ret|].
  apply safe_bind; [apply Hbody|]. intros [|]; [exact IH | apply safe_ret].
Qed.

Create HintDb ends.

Ltac ends :=
  repeat first
    [ apply safe_ret | apply safe_gets | apply safe_modify | apply safe_throw
    | solve [auto with ends]
    | solve [apply safe_weaken; auto with ends]
    | apply safe_forOf; intros ?
    | apply safe_tryCatch; [|intros ?]
    | apply safe_bind; [|intros ?]
    | match goal with
      | |- safe _ (if ?b then _ else _) => destruct b
      | |- safe _ (match ?x with _ => _ end) => destruct x
      | |- safe _ (let _ := _ in _) => cbv zeta
      end ].

Lemma safe_sleep b ms : safe b (sleep ms).
Proof. unfold sleep. ends. Qed.

Lemma safe_rateLimiterWait b : safe b rateLimiterWait.
Proof. intros s. rewrite rateLimiterWait_run. exact I. Qed.

Lemma safe_searchAborted env b : safe b (searchAborted env).
Proof. unfold searchAborted. ends. Qed.

Lemma safe_notifyRateLimit env b x n : safe b (notifyRateLimit env x n).
Proof. unfold notifyRateLimit. ends. Qed.

Lemma safe_notifyPlayerFound env b p : safe b (notifyPlayerFound env p).
Proof. unfold notifyPlayerFound. ends. Qed.

Lemma safe_randomIndex env b n : safe b (randomIndex env n).
Proof. unfold randomIndex. ends. Qed.

Lemma safe_saveCache b : safe b saveCache.
Proof. unfold saveCache. ends. Qed.

Lemma safe_cachePlayer b p : safe b (cachePlayer p).
Proof. intros s. rewrite cachePlayer_run. exact I. Qed.

Lemma safe_shuffleFrom env {A} b i : forall l : list A, safe b (shuffleFrom env i l).
Proof.
  induction i as [|i IH]; intros l; simpl; [apply safe_ret|].
  apply safe_bind; [apply safe_randomIndex | intros j; apply IH].
Qed.

Lemma safe_shuffleArray env {A} b (l : list A) : safe b (shuffleArray env l).
Proof. apply safe_shuffleFrom. Qed.

#[global] Hint Resolve safe_sleep safe_rateLimiterWait safe_searchAborted
  safe_notifyRateLimit safe_notifyPlayerFound safe_randomIndex safe_saveCache
  safe_cachePlayer safe_shuffleArray : ends.

(** One round of [apiRequest]. *)
Lemma apiRequest_step env {A} fuel url (answer : nat -> Response A) s :
  let s2 := record (EvFetch url) (countRequest (snd (rateLimiterWait s))) in
  let response := answer (requests s) in
  apiRequest env (S fuel) url answer s
  = if ok response then (Val (body response), s2)
    else if status response =? 403 then (Throw ApiKeyInvalid, s2)
    else if status response =? 429 then
      (run notifyRateLimit env true 120;
       run coolDown env 120;
       run notifyRateLimit env false 0;
       apiRequest env fuel url answer) s2
    else (Throw (ApiError (status response) url), s2).
Proof.
  cbv zeta. cbn [apiRequest].
  pose proof (rateLimiterWait_run s) as Hw.
  destruct (rateLimiterWait s) as [r s1] eqn:E1. injection Hw as -> Hs1.
  assert (Hreq : requests s1 = requests s).
  { rewrite Hs1. now destruct (_ <? _). }
  unfold bind at 1. rewrite E1.
  rewrite (bind_run _ _ _ _ _ (fetch_run url answer s1)), Hreq. simpl snd.
  destruct (ok (answer (requests s))); simpl; [reflexivity|].
  destruct (status (answer (requests s)) =? 403); [reflexivity|].
  destruct (status (answer (requests s)) =? 429); reflexivity.
Qed.

Lemma fetched_requests s url :
  requests (record (EvFetch url) (countRequest (snd (rateLimiterWait s))))
  = S (requests s).
Proof. rewrite rateLimiterWait_run. simpl. now destruct (_ <? _). Qed.

Lemma searchAborted_run env s :
  exists b s', searchAborted env s = (Val b, s') /\ requests s' = requests s.
Proof.
  unfold searchAborted. destruct (isSearchAborted env) as [answer|].
  - eexists _, _. split; reflexivity.
  - exists false, s. split; reflexivity.
Qed.

(** The cool-down ends, by its last round or by an abort, and makes no
    request. *)
Lemma coolDown_ends env n :
  forall s,
    fst (coolDown env n s) <> Diverge /\
    requests (snd (coolDown env n s)) = requests s.
Proof.
  induction n as [|n IH]; intros s; simpl; [split; [discriminate | reflexivity]|].
  destruct (searchAborted_run env s) as (b & s1 & Hrun & Hreq).
  rewrite (bind_run _ _ _ _ _ Hrun). destruct b.
  - simpl. split; [discriminate | exact Hreq].
  - unfold sleep. unfold bind at 1. simpl.
    destruct (IH (record (EvSleep checkInterval) (advanceClock checkInterval s1)))
      as [H1 H2].
    unfold bind, modify. simpl. split; [exact H1|]. rewrite H2. exact Hreq.
Qed.

(** If one of the next [j + 1] answers is not a 429, [j + 1] rounds are
    enough for [apiRequest] to end. *)
Lemma apiRequest_ends env {A} url (answer : nat -> Response A) (j : nat) :
  forall fuel s,
    (j < fuel)%nat ->
    status (answer (requests s + j)%nat) <> 429 ->
    fst (apiRequest env fuel url answer s) <> Diverge.
Proof.
  induction j as [|j IH]; intros fuel s Hfuel Hj;
    (destruct fuel as [|fuel]; [lia|]); rewrite apiRequest_step; cbv zeta.
  - rewrite Nat.add_0_r in Hj.
    destruct (ok _); [discriminate|]. destruct (_ =? 403); [discriminate|].
    destruct (Z.eqb_spec (status (answer (requests s))) 429); [contradiction|].
    discriminate.
  - destruct (ok _); [discriminate|]. destruct (_ =? 403); [discriminate|].
    destruct (_ =? 429); [|discriminate].
    set (s2 := record (EvFetch url) (countRequest (snd (rateLimiterWait s)))).
    assert (H2 : requests s2 = S (requests s)) by apply fetched_requests.
    destruct (notifyRateLimit_run env true 120 s2)
      as (s3 & Hn3 & _ & _ & Hr3 & _).
    rewrite (bind_run _ _ _ _ _ Hn3).
    destruct (coolDown_ends env 120 s3) as [Hc Hr4].
    unfold bind at 1.
    destruct (coolDown env 120 s3) as [[u|e|] s4]; simpl in *;
      [|discriminate|contradiction].
    destruct (notifyRateLimit_run env false 0 s4)
      as (s5 & Hn5 & _ & _ & Hr5 & _).
    rewrite (bind_run _ _ _ _ _ Hn5).
    apply IH; [lia|].
    rewrite Hr5, Hr4, Hr3, H2.
    replace (S (requests s) + j)%nat with (requests s + S j)%nat by lia.
    exact Hj.
Qed.

Lemma apiRequest_safe env {A} K fuel url (answer : nat -> Response A) :
  relents K answer -> (K <= fuel)%nat ->
  safe false (apiRequest env fuel url answer).
Proof.
  intros Hrel Hfuel s. destruct (Hrel (requests s)) as (j & Hj & Hstatus).
  pose proof (apiRequest_ends env url answer j fuel s ltac:(lia) Hstatus) as H.
  destruct (fst (apiRequest env fuel url answer s)); simpl; auto.
Qed.

(** A request that the provider always answers with a success returns. *)
Lemma apiRequest_strict env {A} fuel url (answer : nat -> Response A) :
  (forall k, ok (answer k) = true) -> (0 < fuel)%nat ->
  safe true (apiRequest env fuel url answer).
Proof.
  intros Hok Hfuel s. destruct fuel as [|fuel]; [lia|].
  rewrite apiRequest_step. cbv zeta. rewrite Hok. exact I.
Qed.

Section EngineEnds.

Variable env : Env.
Variable K gas : nat.
Variable maxPlayers : nat.
Variable cacheOptions : CacheOptions.
Hypothesis Hover : boundedOverload K env.
Hypothesis Hgas : (K <= gas)%nat.

Lemma safe_getSummonerByPuuid p : safe false (getSummonerByPuuid env gas p).
Proof. apply (apiRequest_safe env K); [apply Hover | exact Hgas]. Qed.

Lemma safe_getLeagueEntriesBySummonerId i :
  safe false (getLeagueEntriesBySummonerId env gas i).
Proof. apply (apiRequest_safe env K); [apply Hover | exact Hgas]. Qed.

Lemma safe_getRiotIdByPuuid p : safe false (getRiotIdByPuuid env gas p).
Proof. apply (apiRequest_safe env K); [apply Hover | exact Hgas]. Qed.

Lemma safe_getMatchIds p c q : safe false (getMatchIds env gas p c q).
Proof. apply (apiRequest_safe env K); [apply Hover | exact Hgas]. Qed.

Lemma safe_getMatchDetails m : safe false (getMatchDetails env gas m).
Proof. apply (apiRequest_safe env K); [apply Hover | exact Hgas]. Qed.

Lemma safe_getLeagueEntries q t d p : safe false (getLeagueEntries env gas q t d p).
Proof. apply (apiRequest_safe env K); [apply Hover | exact Hgas]. Qed.

Hint Resolve safe_getSummonerByPuuid safe_getLeagueEntriesBySummonerId
  safe_getRiotIdByPuuid safe_getMatchIds safe_getMatchDetails : ends.

Lemma safe_getLastActiveMinutes p : safe true (getLastActiveMinutes env gas p).
Proof. unfold getLastActiveMinutes. ends. Qed.

Lemma safe_resolveName p : safe true (resolveName env gas p).
Proof. unfold resolveName. ends. Qed.

Lemma safe_usableCached p : safe true (usableCached cacheOptions p).
Proof. unfold usableCached, getCachedPlayer. ends. Qed.

Lemma safe_acceptCached p c : safe true (acceptCached env p c).
Proof. unfold acceptCached. ends. Qed.

Hint Resolve safe_getLastActiveMinutes safe_resolveName safe_usableCached
  safe_acceptCached : ends.

Lemma safe_processLeagueEntry a pp le :
  safe true (processLeagueEntry env gas maxPlayers cacheOptions a pp le).
Proof. unfold processLeagueEntry, resultsFull. ends. Qed.

Hint Resolve safe_processLeagueEntry : ends.

Lemma safe_processParticipant puuid a pp :
  safe true (processParticipant env gas maxPlayers cacheOptions puuid a pp).
Proof.
  unfold processParticipant, resultsFull, hasSeen. ends.
Qed.

Hint Resolve safe_processParticipant : ends.

Lemma safe_expandMatch puuid a :
  safe true (expandMatch env gas maxPlayers cacheOptions puuid a).
Proof. unfold expandMatch, resultsFull. ends. Qed.

Hint Resolve safe_expandMatch : ends.

Lemma safe_processEntry q t d e :
  safe true (processEntry env gas maxPlayers cacheOptions q t d e).
Proof. unfold processEntry, resultsFull, hasSeen. ends. Qed.

End EngineEnds.

(** *** The measure of the main loop *)

Lemma filter_length_le {A} (f g : A -> bool) (l : list A) :
  (forall x, In x l -> g x = true -> f x = true) ->
  (length (List.filter g l) <= length (List.filter f l))%nat.
Proof.
  induction l as [|y l IH]; intros H; simpl; [lia|].
  assert (IH' : (length (List.filter g l) <= length (List.filter f l))%nat).
  { apply IH. intros x Hx. apply H. now right. }
  destruct (g y) eqn:Eg.
  - rewrite (H y (or_introl eq_refl) Eg). simpl. lia.
  - destruct (f y); simpl; lia.
Qed.

Lemma filter_length_lt {A} (f g : A -> bool) (l : list A) (x : A) :
  In x l -> f x = true -> g x = false ->
  (forall y, In y l -> g y = true -> f y = true) ->
  (length (List.filter g l) < length (List.filter f l))%nat.
Proof.
  induction l as [|y l IH]; intros Hin Hf Hg H; simpl; [contradiction|].
  assert (Hle : (length (List.filter g l) <= length (List.filter f l))%nat).
  { apply filter_length_le. intros z Hz. apply H. now right. }
  destruct Hin as [->|Hin].
  - rewrite Hf, Hg. simpl. lia.
  - assert (Hlt : (length (List.filter g l) < length (List.filter f l))%nat).
    { apply IH; auto. intros z Hz. apply H. now right. }
    destruct (g y) eqn:Eg.
    + rewrite (H y (or_introl eq_refl) Eg). simpl. lia.
    + destruct (f y); simpl; lia.
Qed.

Lemma weight_exhaust (c : Combo.t) :
  Combo.maxPageReached c = false ->
  (weight (Combo.exhaust c) < weight c)%nat.
Proof. unfold weight. simpl. intros ->. lia. Qed.

(** Trying an untried page lowers the weight of its combination. *)
Lemma weight_tryPage (c : Combo.t) (page : nat) :
  Combo.maxPageReached c = false -> In page (untriedPages c) ->
  (weight (Combo.tryPage page c) < weight c)%nat.
Proof.
  intros Hr Hin. unfold weight. simpl. rewrite Hr.
  apply filter_In in Hin as [Hseq Hun].
  apply -> Nat.succ_lt_mono. unfold untriedPages. simpl.
  apply (filter_length_lt _ _ _ page); auto.
  - apply negb_false_iff, bool_decide_eq_true.
    apply elem_of_union_l, elem_of_singleton. reflexivity.
  - intros y _ Hy. apply negb_true_iff, bool_decide_eq_false in Hy.
    apply negb_true_iff, bool_decide_eq_false. intros Hy'. apply Hy.
    now apply elem_of_union_r.
Qed.

(** Lowering the page estimate after an empty page does not raise it. *)
Lemma weight_shrink (c : Combo.t) (page : nat) :
  (weight (Combo.shrink page c) <= weight c)%nat.
Proof.
  unfold weight, Combo.shrink. simpl.
  destruct (_ || _); [lia|].
  destruct (Combo.maxPageReached c); [lia|].
  apply le_n_S. unfold untriedPages. simpl.
  set (cmax := Nat.min (Combo.currentMaxPage c) (page - 1)).
  replace (Combo.currentMaxPage c)
    with (cmax + (Combo.currentMaxPage c - cmax))%nat by (unfold cmax; lia).
  rewrite seq_app, List.filter_app, List.length_app. lia.
Qed.

Lemma measure_insert (combos : list Combo.t) :
  forall i c c',
    combos !! i = Some c -> (weight c' < weight c)%nat ->
    (measure (<[i := c']> combos) < measure combos)%nat.
Proof.
  induction combos as [|x combos IH]; intros i c c' Hi Hw; [discriminate|].
  destruct i as [|i]; simpl in *.
  - injection Hi as ->. lia.
  - specialize (IH i c c' Hi Hw). lia.
Qed.

Lemma activeCombinations_lookup (combos : list Combo.t) (k i : nat) :
  activeCombinations combos !! k = Some i ->
  exists c, combos !! i = Some c /\ Combo.maxPageReached c = false.
Proof.
  intros Hk. apply list_elem_of_lookup_2, list_elem_of_In in Hk.
  apply filter_In in Hk as [_ Hk].
  destruct (combos !! i) as [c|]; [|discriminate].
  exists c. split; [reflexivity|]. now apply negb_true_iff.
Qed.

Lemma randomIndex_run env n s :
  randomIndex env n s = (Val (random env (draws s) mod n)%nat, countDraw s).
Proof. reflexivity. Qed.

Lemma measure_uniform (w : nat) (combos : list Combo.t) :
  Forall (fun c => weight c = w) combos ->
  measure combos = (w * length combos)%nat.
Proof.
  induction 1 as [|c combos Hc _ IH]; simpl; [lia|]. rewrite Hc, IH. lia.
Qed.

Lemma swap_Forall {A} (P : A -> Prop) (l : list A) (i j : nat) :
  Forall P l -> Forall P (swap l i j) /\ length (swap l i j) = length l.
Proof.
  intros H. unfold swap.
  destruct (l !! i) as [x|] eqn:Ei; [|auto].
  destruct (l !! j) as [y|] eqn:Ej; [|auto].
  split.
  - apply Forall_insert; [apply Forall_insert; [exact H|]|].
    + eapply Forall_lookup_1; eauto.
    + eapply Forall_lookup_1; eauto.
  - now rewrite !length_insert.
Qed.

(** Shuffling keeps the number of elements and what holds of each. *)
Lemma shuffleFrom_run env {A} (P : A -> Prop) (i : nat) :
  forall (l : list A) s,
    Forall P l ->
    exists l' s',
      shuffleFrom env i l s = (Val l', s') /\
      Forall P l' /\ length l' = length l.
Proof.
  induction i as [|i IH]; intros l s Hl; simpl.
  - exists l, s. auto.
  - rewrite (bind_run _ _ _ _ _ (randomIndex_run env _ s)).
    destruct (swap_Forall P l (S i) (random env (draws s) mod (i + 1 + 1))%nat Hl)
      as [Hf Hlen].
    replace (S (i + 1)) with (i + 1 + 1)%nat by lia.
    destruct (IH _ (countDraw s) Hf) as (l' & s' & Hrun & Hf' & Hlen').
    exists l', s'. rewrite Hrun. repeat split; auto. congruence.
Qed.

Section MainLoopEnds.

Variable env : Env.
Variable K gas : nat.
Variable maxPlayers : nat.
Variable cacheOptions : CacheOptions.
Variable strict : bool.
Hypothesis Hover : boundedOverload K env.
Hypothesis Hgas : (K <= gas)%nat.
Hypothesis Hladder : forall q t d p, safe strict (getLeagueEntries env gas q t d p).

Local Abbreviation Ends := (fun (r : Res unit) (_ : State) => outcomeOk strict r).

(** Each round tries a page or exhausts a combination, so [measure combos]
    rounds, and one more to see that nothing is left, are enough. *)
Lemma mainLoop_safe fuel :
  forall combos,
    (measure combos < fuel)%nat ->
    safe strict (mainLoop env gas maxPlayers cacheOptions fuel combos).
Proof.
  induction fuel as [|fuel IH]; intros combos Hm; [lia|].
  intros s. change (wp (mainLoop env gas maxPlayers cacheOptions (S fuel) combos)
                       Ends s).
  cbn [mainLoop]. unfold resultsFull.
  apply wp_bind, wp_gets.
  destruct (maxPlayers <=? length (results s))%nat; [exact I|].
  destruct (searchAborted_run env s) as (b & s1 & Hab & _).
  apply wp_bind. unfold wp at 1. rewrite Hab. cbn [fst snd].
  destruct b; [exact I|].
  destruct (activeCombinations combos) as [|i0 rest] eqn:Eact; [exact I|].
  apply wp_bind. unfold wp at 1. rewrite randomIndex_run. cbn [fst snd].
  set (k := (random env (draws s1) mod length (i0 :: rest))%nat).
  assert (Hk : (k < length (i0 :: rest))%nat)
    by (apply Nat.mod_upper_bound; simpl; lia).
  destruct (lookup_lt_is_Some_2 _ _ Hk) as [i Hi]. rewrite Hi.
  destruct (activeCombinations_lookup combos k i) as (combo & Hc & Hactive);
    [now rewrite Eact|].
  rewrite Hc.
  destruct (untriedPages combo) as [|p0 pages] eqn:Eun.
  { apply IH.
    pose proof (measure_insert combos i combo (Combo.exhaust combo) Hc
                  (weight_exhaust combo Hactive)). lia. }
  apply wp_bind. unfold wp at 1. rewrite randomIndex_run. cbn [fst snd].
  set (j := (random env (draws (countDraw s1)) mod length (p0 :: pages))%nat).
  assert (Hj : (j < length (p0 :: pages))%nat)
    by (apply Nat.mod_upper_bound; simpl; lia).
  destruct (lookup_lt_is_Some_2 _ _ Hj) as [page Hpage]. rewrite Hpage.
  assert (Hin : In page (untriedPages combo)).
  { rewrite Eun. apply list_elem_of_In. eapply list_elem_of_lookup_2, Hpage. }
  pose proof (weight_tryPage combo page Hactive Hin) as Hw.
  cbv zeta. apply wp_bind. unfold wp at 1.
  pose proof (Hladder (Combo.queue (Combo.tryPage page combo))
                (Combo.tier (Combo.tryPage page combo))
                (Combo.division (Combo.tryPage page combo)) page
                (countDraw (countDraw s1))) as Hl.
  destruct (getLeagueEntries env gas _ _ _ page (countDraw (countDraw s1)))
    as [[entries|e|] s2]; simpl in Hl |- *; [|exact Hl|exact Hl].
  assert (Hshrunk : safe strict
            (mainLoop env gas maxPlayers cacheOptions fuel
               (<[i := Combo.shrink page (Combo.tryPage page combo)]> combos))).
  { apply IH.
    pose proof (weight_shrink (Combo.tryPage page combo) page).
    pose proof (measure_insert combos i combo
                  (Combo.shrink page (Combo.tryPage page combo)) Hc ltac:(lia)).
    lia. }
  destruct entries as [[|entry entries]|]; [apply Hshrunk| |apply Hshrunk].
  assert (Hrest : safe strict
            (run forOf (entry :: entries)
                   (processEntry env gas maxPlayers cacheOptions
                      (Combo.queue (Combo.tryPage page combo))
                      (Combo.tier (Combo.tryPage page combo))
                      (Combo.division (Combo.tryPage page combo)));
             mainLoop env gas maxPlayers cacheOptions fuel
               (<[i := Combo.tryPage page combo]> combos))).
  { apply safe_bind.
    - apply safe_weaken, safe_forOf. intros x.
      apply (safe_processEntry env K gas maxPlayers cacheOptions Hover Hgas).
    - intros _. apply IH.
      pose proof (measure_insert combos i combo (Combo.tryPage page combo) Hc Hw).
      lia. }
  assert (Hshuffle : forall l : list Entry.t,
            safe strict
              (do shuffledEntries <- shuffleArray env l;
               run forOf shuffledEntries
                     (processEntry env gas maxPlayers cacheOptions
                        (Combo.queue (Combo.tryPage page combo))
                        (Combo.tier (Combo.tryPage page combo))
                        (Combo.division (Combo.tryPage page combo)));
               mainLoop env gas maxPlayers cacheOptions fuel
                 (<[i := Combo.tryPage page combo]> combos))).
  { intros l. apply safe_bind; [apply safe_shuffleArray|].
    intros shuffled. apply safe_bind.
    - apply safe_weaken, safe_forOf. intros x.
      apply (safe_processEntry env K gas maxPlayers cacheOptions Hover Hgas).
    - intros _. apply IH.
      pose proof (measure_insert combos i combo (Combo.tryPage page combo) Hc Hw).
      lia. }
  apply Hshuffle.
Qed.

End MainLoopEnds.

Lemma searchCombinations_length (qs : list string) (tds : list (string * string)) :
  length (searchCombinations qs tds) = (length qs * length tds)%nat.
Proof.
  unfold searchCombinations. induction qs as [|q qs IH]; simpl; [reflexivity|].
  now rewrite List.length_app, List.length_map, IH.
Qed.

Lemma searchCombinations_weight (qs : list string) (tds : list (string * string)) :
  Forall (fun c => weight c = 51%nat) (searchCombinations qs tds).
Proof.
  unfold searchCombinations. apply Forall_forall. intros c Hc.
  apply list_elem_of_In, in_flat_map in Hc as (q & _ & Hc).
  apply in_map_iff in Hc as (td & <- & _). reflexivity.
Qed.

Lemma runSearch_safe env K fuel o tds lo hi strict :
  boundedOverload K env ->
  (K + 51 * (length (queuesToSearch o) * length tds) < fuel)%nat ->
  (forall q t d p, safe strict (getLeagueEntries env fuel q t d p)) ->
  safe strict (runSearch env fuel o tds lo hi).
Proof.
  intros Hover Hfuel Hladder s. unfold runSearch. cbv zeta.
  rewrite (bind_run _ _ _ _ _ (eq_refl : modify newSearch s = (Val tt, newSearch s))).
  destruct (shuffleFrom_run env (fun c => weight c = 51%nat)
              (length (searchCombinations (queuesToSearch o) tds) - 1)
              (searchCombinations (queuesToSearch o) tds) (newSearch s)
              (searchCombinations_weight _ _))
    as (combos & s1 & Hrun & Hw & Hlen).
  unfold shuffleArray. rewrite (bind_run _ _ _ _ _ Hrun).
  assert (Hmeasure : (measure combos < fuel)%nat).
  { rewrite (measure_uniform 51 combos Hw), Hlen, searchCombinations_length. lia. }
  pose proof (mainLoop_safe env K fuel (Options.maxPlayers o)
                (mkCacheOptions (Options.activeWithinMinutes o)
                   (Options.minWinRate o) lo hi)
                strict Hover ltac:(lia) Hladder fuel combos Hmeasure) as Hloop.
  assert (Hall : safe strict
            (run mainLoop env fuel (Options.maxPlayers o)
                   (mkCacheOptions (Options.activeWithinMinutes o)
                      (Options.minWinRate o) lo hi) fuel combos;
             run saveCache; gets results)).
  { apply safe_bind; [exact Hloop|]. intros _. ends. }
  apply Hall.
Qed.

(** The provider that never relents: every fuel runs out in the gate. *)
Lemma apiRequest_overloaded env {A} url (answer : nat -> Response A) fuel :
  isSearchAborted env = None ->
  (forall k, status (answer k) = 429) ->
  forall s, fst (apiRequest env fuel url answer s) = Diverge.
Proof.
  intros Hno H429. induction fuel as [|fuel IH]; intros s; [reflexivity|].
  rewrite apiRequest_step. cbv zeta.
  rewrite (overload_is_not_ok _ (H429 _)), H429. cbn [Z.eqb Pos.eqb].
  set (s2 := record (EvFetch url) (countRequest (snd (rateLimiterWait s)))).
  destruct (notifyRateLimit_run env true 120 s2) as (s3 & Hn3 & _).
  rewrite (bind_run _ _ _ _ _ Hn3).
  destruct (coolDown_quiet env 120 s3) as (s4 & Hcd & _).
  { intros answer' Ha. rewrite Hno in Ha. discriminate. }
  rewrite (bind_run _ _ _ _ _ Hcd).
  destruct (notifyRateLimit_run env false 0 s4) as (s5 & Hn5 & _).
  rewrite (bind_run _ _ _ _ _ Hn5). apply IH.
Qed.

Lemma bind_diverges {A B} (m : M A) (f : A -> M B) s :
  fst (m s) = Diverge -> fst (bind m f s) = Diverge.
Proof. unfold bind. destruct (m s) as [[a|e|] s1]; simpl; congruence. Qed.

Lemma bind_run_diverges {A B} (m : M A) (f : A -> M B) s a s1 :
  m s = (Val a, s1) -> fst (f a s1) = Diverge -> fst (bind m f s) = Diverge.
Proof. intros H. now rewrite (bind_run _ _ _ _ _ H). Qed.

(** With room in the result list and pages left to try, the first round of
    the main loop asks for a ladder page, and does not get past that. *)
Lemma mainLoop_overloaded env gas maxPlayers cacheOptions fuel combos s :
  isSearchAborted env = None ->
  (forall k q t d p, status (leagueExp env k q t d p) = 429) ->
  (length (results s) < maxPlayers)%nat ->
  activeCombinations combos <> [] ->
  Forall (fun c => untriedPages c <> []) combos ->
  fst (mainLoop env gas maxPlayers cacheOptions (S fuel) combos s) = Diverge.
Proof.
  intros Hno H429 Hroom Hactive Hpages. cbn [mainLoop].
  eapply bind_run_diverges; [reflexivity|].
  apply Nat.leb_gt in Hroom. rewrite Hroom.
  unfold searchAborted. rewrite Hno.
  eapply bind_run_diverges; [reflexivity|]. cbv iota.
  destruct (activeCombinations combos) as [|i0 rest] eqn:Eact; [contradiction|].
  eapply bind_run_diverges; [apply randomIndex_run|].
  set (k := (random env (draws s) mod length (i0 :: rest))%nat).
  assert (Hk : (k < length (i0 :: rest))%nat)
    by (apply Nat.mod_upper_bound; simpl; lia).
  destruct (lookup_lt_is_Some_2 _ _ Hk) as [i Hi]. rewrite Hi.
  destruct (activeCombinations_lookup combos k i) as (combo & Hc & _);
    [now rewrite Eact|].
  rewrite Hc.
  destruct (untriedPages combo) as [|p0 pages] eqn:Eun.
  { exfalso. eapply Forall_lookup_1 in Hpages; [|exact Hc]. now apply Hpages. }
  eapply bind_run_diverges; [apply randomIndex_run|].
  set (j := (random env (draws (countDraw s)) mod length (p0 :: pages))%nat).
  assert (Hj : (j < length (p0 :: pages))%nat)
    by (apply Nat.mod_upper_bound; simpl; lia).
  destruct (lookup_lt_is_Some_2 _ _ Hj) as [page Hpage]. rewrite Hpage.
  cbv zeta. apply bind_diverges. unfold getLeagueEntries.
  apply apiRequest_overloaded; [exact Hno | intros n; apply H429].
Qed.

(** Against a provider that answers every ladder request with 429 and with no
    abort hook installed, [scoutPlayers] does not come to an end, whatever the
    fuel. *)
Lemma overloaded_search_never_ends :
  ~ exists fuel,
      fst (scoutPlayers overloadedEnv fuel sampleOptions sampleState) <> Diverge.
Proof.
  intros (fuel & H). apply H. clear H.
  destruct fuel as [|fuel]; [reflexivity|].
  unfold scoutPlayers. cbn [Options.lpRange sampleOptions].
  unfold runSearch. cbv zeta.
  eapply bind_run_diverges; [reflexivity|].
  eapply bind_run_diverges; [reflexivity|].
  apply bind_diverges.
  apply mainLoop_overloaded.
  - reflexivity.
  - intros; reflexivity.
  - simpl. lia.
  - vm_compute. discriminate.
  - repeat constructor. vm_compute. discriminate.
Qed.

(** The claimed scenario: only page 1 of the one combination holds entries,
    two of them, and five players are asked for.  The search ends with the
    three players it could find. *)
Example search_exhaustion_returns_partial :
  let out := scoutPlayers sampleEnv 60 sampleOptions sampleState in
  map Player.puuid (results (snd out)) = ["p2"; "p1"; "p3"] /\
  fst out = Val (results (snd out)) /\
  (length (results (snd out)) < Options.maxPlayers sampleOptions)%nat.
Proof. vm_compute. repeat split; lia. Qed.

(** C3 (as the code has it). If the provider never answers 429 more than [K]
    times in a row, [scoutPlayers] comes to an end: every round of the main
    loop tries an untried page of a combination or marks one exhausted, so
    51 rounds per combination, and [K] retries per request, are enough.  If
    moreover every ladder request is answered with a success, what it ends
    with is a returned result list. *)
Theorem scoutPlayers_terminates env (K fuel : nat) (o : Options.t) (s : State) :
  boundedOverload K env ->
  (K + 51 * searchCombinationCount o < fuel)%nat ->
  fst (scoutPlayers env fuel o s) <> Diverge /\
  ((forall k q t d p, ok (leagueExp env k q t d p) = true) ->
   exists rs, fst (scoutPlayers env fuel o s) = Val rs).
Proof.
  intros Hover Hfuel.
  assert (Hweak : forall q t d p, safe false (getLeagueEntries env fuel q t d p)).
  { intros q t d p. apply (safe_getLeagueEntries env K); [exact Hover | lia]. }
  assert (Hgen : forall strict,
            (forall q t d p, safe strict (getLeagueEntries env fuel q t d p)) ->
            outcomeOk strict (fst (scoutPlayers env fuel o s))).
  { intros strict Hladder. unfold scoutPlayers.
    unfold searchCombinationCount in Hfuel.
    destruct (Options.lpRange o) as [[|c r]|].
    - apply runSearch_safe with (K := K); auto; simpl in *; lia.
    - destruct (matchLpRange (String c r)) as [[lo hi]|]; [|exact I].
      apply runSearch_safe with (K := K); auto; simpl in *; lia.
    - apply runSearch_safe with (K := K); auto; simpl in *; lia. }
  split.
  - intros Hdiv. specialize (Hgen false Hweak). rewrite Hdiv in Hgen. exact Hgen.
  - intros Hok.
    assert (Hstrict : forall q t d p, safe true (getLeagueEntries env fuel q t d p)).
    { intros q t d p. apply apiRequest_strict; [intros k; apply Hok | lia]. }
    specialize (Hgen true Hstrict).
    destruct (fst (scoutPlayers env fuel o s)) as [rs|e|]; simpl in Hgen;
      [eauto | discriminate | contradiction].
Qed.

Lemma scoutPlayers_terminates_witness :
  fst (scoutPlayers sampleEnv 60 sampleOptions sampleState) <> Diverge /\
  exists rs, fst (scoutPlayers sampleEnv 60 sampleOptions sampleState) = Val rs.
Proof.
  assert (Hover : boundedOverload 1 sampleEnv).
  { repeat split; intros; intros k; exists 0%nat; (split; [lia|]); simpl;
      try discriminate.
    destruct (p =? 1)%nat; discriminate. }
  destruct (scoutPlayers_terminates sampleEnv 1 60 sampleOptions sampleState Hover)
    as [Hends Hval].
  - vm_compute. lia.
  - split; [exact Hends|]. apply Hval. intros k q t d p. simpl.
    destruct (p =? 1)%nat; reflexivity.
Defined.

(** ** Win rate of a player without games *)

(** The search engine skips a ladder entry without games as soon as a
    positive minimum win rate is asked for: no lookup, no result. *)
Lemma processEntry_zero_games env gas maxPlayers (o : CacheOptions) q t d
    (e : Entry.t) (s : State) :
  Entry.wins e = 0 -> Entry.losses e = 0 -> (0 < minWinRate o)%Q ->
  let out := processEntry env gas maxPlayers o q t d e s in
  (fst out = Val Next \/ fst out = Val Break) /\
  results (snd out) = results s /\ requests (snd out) = requests s.
Proof.
  intros Hw Hl Hpos. cbv zeta. unfold processEntry, resultsFull.
  rewrite (bind_run _ _ _ _ _ (eq_refl :
    gets (fun s => (maxPlayers <=? length (results s))%nat) s = (Val _, s))).
  destruct (maxPlayers <=? length (results s))%nat; [simpl; auto|].
  destruct (searchAborted_run env s) as (b & s1 & Hrun & Hreq).
  pose proof (leaves_searchAborted env s) as (Hres & _).
  rewrite Hrun in Hres. simpl in Hres.
  rewrite (bind_run _ _ _ _ _ Hrun).
  destruct b; [simpl; auto|].
  destruct (outsideLpRange _ _); [simpl; auto|].
  rewrite Hw, Hl.
  change (js_lt (entryWinRate 0 0) (minWinRate o))
    with (Qlt_bool 0 (minWinRate o)).
  rewrite (Qlt_bool_pos _ Hpos). simpl. auto.
Qed.

(** C10. A cached record with no wins and no losses passes the win-rate check
    of [cachedPlayerMeetsCriteria] for every minimum (the quotient is [NaN]),
    so the record is accepted exactly when the activity and LP checks pass;
    the filter of the search engine takes the win rate of such an entry to be
    [0] and rejects it as soon as the minimum is positive. *)
Theorem zero_games_cached_versus_engine (t : Z) (c : CachedPlayer) (o : CacheOptions) :
  Player.wins (cached c) = 0 -> Player.losses (cached c) = 0 ->
  winRateCheck c o = true /\
  cachedPlayerMeetsCriteria t c o = activityCheck t c o && lpCheck c o /\
  ((0 < minWinRate o)%Q ->
   js_lt (entryWinRate 0 0) (minWinRate o) = true /\
   forall env gas maxPlayers q tr d (e : Entry.t) (s : State),
     Entry.wins e = 0 -> Entry.losses e = 0 ->
     results (snd (processEntry env gas maxPlayers o q tr d e s)) = results s /\
     requests (snd (processEntry env gas maxPlayers o q tr d e s)) = requests s).
Proof.
  intros Hw Hl.
  assert (Hc : winRateCheck c o = true).
  { unfold winRateCheck. rewrite Hw, Hl. reflexivity. }
  split; [exact Hc|]. split.
  - rewrite cachedPlayerMeetsCriteria_checks, Hc, andb_true_r. reflexivity.
  - intros Hpos. split.
    + unfold entryWinRate. simpl. now apply Qlt_bool_pos.
    + intros env gas maxPlayers q tr d e s He1 He2.
      apply (processEntry_zero_games env gas maxPlayers o q tr d e s He1 He2 Hpos).
Qed.

Lemma zero_games_cached_versus_engine_witness :
  let p := Player.mk "New#NA1" "na1" "Flex" "GOLD II" 0 (Some 1400) 0 0 5
             "CLASSIC" false false true "p0" false false 0 in
  let o := mkCacheOptions 30 (6 # 10) None None in
  cachedPlayerMeetsCriteria 60000 (mkCached p 0) o = true /\
  js_lt (entryWinRate 0 0) (minWinRate o) = true.
Proof.
  intros p o.
  destruct (zero_games_cached_versus_engine 60000 (mkCached p 0) o
              eq_refl eq_refl) as (_ & Hc & He).
  split.
  - rewrite Hc. reflexivity.
  - apply He. reflexivity.
Defined.

(** ** Abort inside the cool-down *)

(** The other way out of the cool-down: the first poll that answers [true]
    ends it with the exception [Search aborted]. *)
Lemma coolDown_aborted env (answer : nat -> bool) (n : nat) :
  isSearchAborted env = Some answer ->
  forall j s,
    (j < n)%nat ->
    answer (polls s + j)%nat = true ->
    (forall i, (i < j)%nat -> answer (polls s + i)%nat = false) ->
    exists s',
      coolDown env n s = (Throw SearchAborted, s') /\
      requests s' = requests s /\
      now s' = now s + checkInterval * Z.of_nat j.
Proof.
  intros Hhook. induction n as [|n IH]; intros j s Hj Htrue Hfalse; [lia|].
  simpl. unfold searchAborted. rewrite Hhook.
  unfold bind at 1. unfold bind at 1. unfold bind at 1. simpl.
  destruct j as [|j].
  - rewrite Nat.add_0_r in Htrue. rewrite Htrue. simpl.
    eexists. split; [reflexivity|]. simpl. split; [reflexivity | lia].
  - assert (H0 : answer (polls s) = false).
    { specialize (Hfalse 0%nat). rewrite Nat.add_0_r in Hfalse. apply Hfalse. lia. }
    rewrite H0. simpl. unfold sleep, bind at 1, bind at 1, modify. simpl.
    destruct (IH j (record (EvSleep checkInterval)
                      (advanceClock checkInterval
                         (record (EvAbortPoll false) (countPoll s)))))
      as (s' & Hrun & Hreq & Hnow).
    + lia.
    + simpl. replace (S (polls s + j))%nat with (polls s + S j)%nat by lia.
      exact Htrue.
    + intros i Hi. simpl.
      replace (S (polls s + i))%nat with (polls s + S i)%nat by lia.
      apply Hfalse. lia.
    + exists s'. split; [exact Hrun|]. simpl in Hreq, Hnow.
      split; [exact Hreq | lia].
Qed.

(** An abort signalled during the cool-down of a 429 makes [apiRequest] throw
    [Search aborted]: the request is not issued again. *)
Lemma apiRequest_overload_aborted env {A} (fuel : nat) (url : Url)
    (answer : nat -> Response A) (hook : nat -> bool) (j : nat) (s : State) :
  status (answer (requests s)) = 429 ->
  isSearchAborted env = Some hook ->
  (j < 120)%nat ->
  hook (polls s + j)%nat = true ->
  (forall i, (i < j)%nat -> hook (polls s + i)%nat = false) ->
  exists s',
    apiRequest env (S fuel) url answer s = (Throw SearchAborted, s') /\
    requests s' = S (requests s).
Proof.
  intros H429 Hhook Hj Htrue Hfalse.
  rewrite apiRequest_step. cbv zeta.
  rewrite (overload_is_not_ok _ H429), H429. cbn [Z.eqb Pos.eqb].
  set (s2 := record (EvFetch url) (countRequest (snd (rateLimiterWait s)))).
  assert (H2 : requests s2 = S (requests s)) by apply fetched_requests.
  assert (P2 : polls s2 = polls s).
  { unfold s2. rewrite rateLimiterWait_run. simpl. now destruct (_ <? _). }
  destruct (notifyRateLimit_run env true 120 s2)
    as (s3 & Hn3 & _ & _ & Hr3 & _ & Hp3).
  rewrite (bind_run _ _ _ _ _ Hn3).
  destruct (coolDown_aborted env hook 120 Hhook j s3 Hj) as (s4 & Hcd & Hr4 & _).
  - now rewrite Hp3, P2.
  - intros i Hi. rewrite Hp3, P2. now apply Hfalse.
  - exists s4. unfold bind. rewrite Hcd. split; [reflexivity|]. congruence.
Qed.

(** * Further properties of the code *)

(** ** Rank codec: names, inverse direction, bands *)

Lemma indexOf_None (l : list string) (x : string) :
  indexOf l x = None <-> ~ In x l.
Proof.
  induction l as [|y l IH]; simpl; [tauto|].
  destruct (String.eqb_spec y x) as [->|Hne].
  - split; [discriminate | intros H; exfalso; apply H; now left].
  - destruct (indexOf l x) as [i|] eqn:E; simpl.
    + split; [discriminate|]. intros H. exfalso.
      assert (Hin : ~ In x l) by (intros Hx; apply H; now right).
      apply IH in Hin. discriminate.
    + split; [|reflexivity]. intros _ [H|H]; [congruence|].
      now apply (proj1 IH).
Qed.

Lemma upperAscii_idempotent (c : ascii) : upperAscii (upperAscii c) = upperAscii c.
Proof. destruct c as [[] [] [] [] [] [] [] []]; reflexivity. Qed.

Lemma toUpperCase_idempotent (s : string) : toUpperCase (toUpperCase s) = toUpperCase s.
Proof.
  induction s as [|c s IH]; simpl; [reflexivity|].
  now rewrite upperAscii_idempotent, IH.
Qed.

(** X1. [toTotalLP] answers [null] exactly when the upper-cased tier is not one
    of [TIERS] or the upper-cased division not one of [DIVISIONS]; the case of
    the letters of both names is immaterial, and the points are not checked. *)
Theorem toTotalLP_null_iff (t d : string) (p : Z) :
  (toTotalLP t d p = None <->
   ~ In (toUpperCase t) TIERS \/ ~ In (toUpperCase d) DIVISIONS) /\
  toTotalLP (toUpperCase t) (toUpperCase d) p = toTotalLP t d p /\
  (forall total, toTotalLP t d 0 = Some total -> toTotalLP t d p = Some (total + p)).
Proof.
  split; [|split].
  - unfold toTotalLP.
    destruct (indexOf TIERS (toUpperCase t)) as [ti|] eqn:Et.
    + destruct (indexOf DIVISIONS (toUpperCase d)) as [di|] eqn:Ed.
      * split; [discriminate|]. intros [H|H]; apply indexOf_None in H; congruence.
      * split; [|reflexivity]. intros _. right. now apply indexOf_None.
    + split; [|reflexivity]. intros _. left. now apply indexOf_None.
  - unfold toTotalLP. now rewrite !toUpperCase_idempotent.
  - unfold toTotalLP. intros total.
    destruct (indexOf TIERS (toUpperCase t)); [|discriminate].
    destruct (indexOf DIVISIONS (toUpperCase d)); [|discriminate].
    intros [= <-]. f_equal. lia.
Qed.

(** The total of a tier and a division of the tables, by their positions. *)
Lemma toTotalLP_at (ti di : nat) (t d : string) (p : Z) :
  TIERS !! ti = Some t -> DIVISIONS !! di = Some d ->
  toTotalLP t d p = Some (Z.of_nat ti * 400 + Z.of_nat di * 100 + p).
Proof.
  intros Ht Hd.
  destruct ti as [|[|[|[|[|[|[|?]]]]]]]; try discriminate; injection Ht as <-;
    (destruct di as [|[|[|[|?]]]]; try discriminate; injection Hd as <-;
     reflexivity).
Qed.

(** X2. Below the apex threshold [fromTotalLP] is undone by [toTotalLP]: the
    tier, division and points it returns add up to the total again.  From the
    threshold on they do not: [toTotalLP] knows no tier [MASTER]. *)
Theorem toTotalLP_fromTotalLP (total : Z) :
  (0 <= total < 2800 ->
   exists t d,
     tier (fromTotalLP total) = Some t /\ division (fromTotalLP total) = Some d /\
     0 <= lp (fromTotalLP total) <= 99 /\
     toTotalLP t d (lp (fromTotalLP total)) = Some total) /\
  (2800 <= total ->
   exists t d,
     tier (fromTotalLP total) = Some t /\ division (fromTotalLP total) = Some d /\
     toTotalLP t d (lp (fromTotalLP total)) = None).
Proof.
  split.
  - intros [Hlo Hhi]. unfold fromTotalLP.
    destruct (Z.ltb_spec total 0); [lia|].
    change (Z.of_nat (length TIERS) * 400) with 2800.
    destruct (Z.leb_spec 2800 total); [lia|]. cbv zeta.
    assert (Hq : 0 <= total / 400 < 7).
    { split; [apply Z.div_pos; lia | apply Z.div_lt_upper_bound; lia]. }
    assert (Hm : 0 <= total mod 400 < 400) by (apply Z.mod_pos_bound; lia).
    assert (Hd : 0 <= (total mod 400) / 100 < 4).
    { split; [apply Z.div_pos; lia | apply Z.div_lt_upper_bound; lia]. }
    assert (Hp : 0 <= (total mod 400) mod 100 < 100) by (apply Z.mod_pos_bound; lia).
    destruct (lookup_lt_is_Some_2 TIERS (Z.to_nat (total / 400))) as [t Et];
      [simpl; lia|].
    destruct (lookup_lt_is_Some_2 DIVISIONS (Z.to_nat ((total mod 400) / 100)))
      as [d Ed]; [simpl; lia|].
    exists t, d. simpl. rewrite Et, Ed. repeat split; try lia.
    rewrite (toTotalLP_at _ _ _ _ _ Et Ed), !Z2Nat.id by lia. f_equal.
    pose proof (Z.div_mod total 400 ltac:(lia)).
    pose proof (Z.div_mod (total mod 400) 100 ltac:(lia)). lia.
  - intros Hbig. unfold fromTotalLP.
    destruct (Z.ltb_spec total 0); [lia|].
    change (Z.of_nat (length TIERS) * 400) with 2800.
    destruct (Z.leb_spec 2800 total); [|lia].
    exists "MASTER", "I". repeat split.
Qed.

Lemma toTotalLP_fromTotalLP_witness :
  (exists t d,
     tier (fromTotalLP 1575) = Some t /\ division (fromTotalLP 1575) = Some d /\
     0 <= lp (fromTotalLP 1575) <= 99 /\
     toTotalLP t d (lp (fromTotalLP 1575)) = Some 1575) /\
  (exists t d,
     tier (fromTotalLP 3000) = Some t /\ division (fromTotalLP 3000) = Some d /\
     toTotalLP t d (lp (fromTotalLP 3000)) = None).
Proof.
  split.
  - apply (proj1 (toTotalLP_fromTotalLP 1575)). lia.
  - apply (proj2 (toTotalLP_fromTotalLP 3000)). lia.
Defined.

Lemma toTotalLP_null_iff_witness :
  toTotalLP "Master" "I" 10 = None /\
  toTotalLP "gold" "iv" 250 = Some (1200 + 250).
Proof.
  split.
  - apply (proj1 (toTotalLP_null_iff "Master" "I" 10)). left.
    simpl. intros H. repeat (destruct H as [H|H]; [discriminate|]). exact H.
  - apply (proj2 (proj2 (toTotalLP_null_iff "gold" "iv" 250))). reflexivity.
Defined.

Lemma getTierDivisionsInRange_In (minLP maxLP : Z) (t d : string) :
  In (t, d) (getTierDivisionsInRange minLP maxLP) <->
  exists ti di,
    TIERS !! ti = Some t /\ DIVISIONS !! di = Some d /\
    minLP <= Z.of_nat ti * 400 + Z.of_nat di * 100 + 99 /\
    Z.of_nat ti * 400 + Z.of_nat di * 100 <= maxLP.
Proof.
  unfold getTierDivisionsInRange. rewrite in_flat_map. split.
  - intros (ti & _ & H). apply in_flat_map in H as (di & _ & H). cbv zeta in H.
    destruct (_ && _) eqn:E; [|contradiction].
    apply andb_true_iff in E as [E1 E2]. apply Z.leb_le in E1, E2.
    destruct (TIERS !! ti) as [t'|] eqn:Et; [|contradiction].
    destruct (DIVISIONS !! di) as [d'|] eqn:Ed; [|contradiction].
    destruct H as [[= <- <-]|[]]. exists ti, di. repeat split; auto; lia.
  - intros (ti & di & Et & Ed & H1 & H2).
    exists ti. split.
    { apply in_seq. apply lookup_lt_Some in Et. lia. }
    apply in_flat_map. exists di. split.
    { apply in_seq. apply lookup_lt_Some in Ed. lia. }
    cbv zeta. rewrite Et, Ed.
    replace (_ && _) with true; [now left|].
    symmetry. apply andb_true_iff. split; apply Z.leb_le; lia.
Qed.

(** X3. [getTierDivisionsInRange] returns exactly the tier and division pairs
    whose band of 100 points, from [toTotalLP(tier, division, 0)] on, meets
    the interval from [minLP] to [maxLP]. *)
Theorem getTierDivisionsInRange_bands (minLP maxLP : Z) (t d : string) :
  In (t, d) (getTierDivisionsInRange minLP maxLP) <->
  In t TIERS /\ In d DIVISIONS /\
  exists start,
    toTotalLP t d 0 = Some start /\ minLP <= start + 99 /\ start <= maxLP.
Proof.
  rewrite getTierDivisionsInRange_In. split.
  - intros (ti & di & Et & Ed & H1 & H2).
    split; [apply list_elem_of_In; eapply list_elem_of_lookup_2, Et|].
    split; [apply list_elem_of_In; eapply list_elem_of_lookup_2, Ed|].
    exists (Z.of_nat ti * 400 + Z.of_nat di * 100).
    rewrite (toTotalLP_at _ _ _ _ 0 Et Ed). split; [f_equal; lia | lia].
  - intros (Ht & Hd & start & Hs & H1 & H2).
    apply list_elem_of_In, list_elem_of_lookup_1 in Ht as (ti & Et).
    apply list_elem_of_In, list_elem_of_lookup_1 in Hd as (di & Ed).
    rewrite (toTotalLP_at _ _ _ _ 0 Et Ed) in Hs. injection Hs as <-.
    exists ti, di. repeat split; auto; lia.
Qed.

Lemma getTierDivisionsInRange_bands_witness :
  In ("GOLD", "II") (getTierDivisionsInRange 1380 1410) /\
  ~ In ("GOLD", "I") (getTierDivisionsInRange 1380 1410).
Proof.
  split.
  - apply (proj2 (getTierDivisionsInRange_bands 1380 1410 "GOLD" "II")).
    split; [simpl; tauto|]. split; [simpl; tauto|].
    exists 1400. split; [reflexivity | lia].
  - intros H.
    apply (proj1 (getTierDivisionsInRange_bands 1380 1410 "GOLD" "I")) in H
      as (_ & _ & start & Hs & _ & Hle).
    injection Hs as <-. lia.
Defined.

(** X4. No division is left out: a tier, a division and points from 0 to 99
    whose total lies between [minLP] and [maxLP] belong to a pair that
    [getTierDivisionsInRange] returns (under its upper-case names). *)
Theorem getTierDivisionsInRange_covers (minLP maxLP : Z) (t d : string) (p total : Z) :
  toTotalLP t d p = Some total -> 0 <= p <= 99 -> minLP <= total <= maxLP ->
  In (toUpperCase t, toUpperCase d) (getTierDivisionsInRange minLP maxLP).
Proof.
  intros Htot Hp Hrange. unfold toTotalLP in Htot.
  destruct (indexOf TIERS (toUpperCase t)) as [ti|] eqn:Et; [|discriminate].
  destruct (indexOf DIVISIONS (toUpperCase d)) as [di|] eqn:Ed; [|discriminate].
  injection Htot as <-.
  assert (Hidx : forall l x i, indexOf l x = Some i -> l !! i = Some x).
  { clear. induction l as [|y l IH]; intros x i; simpl; [discriminate|].
    destruct (String.eqb_spec y x) as [->|_]; [now intros [= <-]|].
    destruct (indexOf l x) as [j|] eqn:E; [|discriminate].
    intros [= <-]. simpl. now apply IH. }
  apply getTierDivisionsInRange_In. exists ti, di.
  repeat split; auto; lia.
Qed.

Lemma getTierDivisionsInRange_covers_witness :
  In ("SILVER", "II") (getTierDivisionsInRange 800 1000).
Proof.
  apply (getTierDivisionsInRange_covers 800 1000 "silver" "ii" 0 1000);
    [reflexivity | lia | lia].
Defined.

(** ** The format of an LP range *)

Lemma append_nil_r (s : string) : s +:+ EmptyString = s.
Proof.
  induction s as [|c s IH]; [reflexivity|].
  change (String c (s +:+ EmptyString) = String c s). now rewrite IH.
Qed.

Lemma spanDigits_spec (s : string) :
  s = fst (spanDigits s) +:+ snd (spanDigits s) /\
  allDigits (fst (spanDigits s)) = true /\
  match snd (spanDigits s) with
  | String c _ => isDigit c = false
  | EmptyString => True
  end.
Proof.
  induction s as [|c s IH]; simpl; [auto|].
  destruct (isDigit c) eqn:Ec.
  - destruct (spanDigits s) as [d r]. simpl in *.
    destruct IH as (-> & Hd & Hr). rewrite Ec, Hd. auto.
  - simpl. rewrite Ec. auto.
Qed.

Lemma spanDigits_app (a r : string) :
  allDigits a = true ->
  match r with String c _ => isDigit c = false | EmptyString => True end ->
  spanDigits (a +:+ r) = (a, r).
Proof.
  intros Ha Hr. induction a as [|c a IH]; simpl in *.
  - destruct r as [|c r]; [reflexivity|]. simpl. now rewrite Hr.
  - apply andb_true_iff in Ha as [Hc Ha]. rewrite Hc, (IH Ha). reflexivity.
Qed.

Lemma parseInt_nonneg (digits : string) : 0 <= parseInt digits.
Proof.
  unfold parseInt.
  assert (H : forall l acc, 0 <= acc ->
            0 <= fold_left (fun acc c => 10 * acc + Z.of_nat (nat_of_ascii c - 48)) l acc).
  { induction l as [|c l IH]; intros acc Hacc; simpl; [exact Hacc|].
    apply IH. lia. }
  apply H. lia.
Qed.

(** X5. The test of the [lpRange] option accepts exactly the strings made of a
    non-empty run of decimal digits, one hyphen, and another non-empty run of
    decimal digits, and hands out the two runs; the bounds [parseInt] reads
    from them are not negative. *)
Theorem matchLpRange_iff (s lo hi : string) :
  (matchLpRange s = Some (lo, hi) <->
   s = lo +:+ "-" +:+ hi /\
   lo <> EmptyString /\ hi <> EmptyString /\
   allDigits lo = true /\ allDigits hi = true) /\
  0 <= parseInt lo /\ 0 <= parseInt hi.
Proof.
  split; [|split; apply parseInt_nonneg]. unfold matchLpRange. split.
  - destruct (spanDigits_spec s) as (Hs & Hd & _).
    destruct (spanDigits s) as [a r]. simpl in Hs, Hd.
    destruct a as [|c a]; [discriminate|].
    destruct r as [|c' r]; [discriminate|].
    destruct (Ascii.eqb_spec c' "-") as [->|Hne].
    + destruct (spanDigits_spec r) as (Hr & Hd' & _).
      destruct (spanDigits r) as [b t]. simpl in Hr, Hd'.
      destruct b as [|cb b]; [discriminate|].
      destruct t as [|ct t]; [|discriminate].
      intros [= <- <-]. subst s r.
      rewrite append_nil_r. repeat split; auto; discriminate.
    + destruct c' as [[] [] [] [] [] [] [] []]; try discriminate.
      exfalso. now apply Hne.
  - intros (-> & Hlo & Hhi & Dlo & Dhi).
    assert (Hh : spanDigits hi = (hi, EmptyString)).
    { rewrite <- (append_nil_r hi) at 1. now apply spanDigits_app. }
    rewrite (spanDigits_app lo ("-" +:+ hi) Dlo eq_refl).
    destruct lo as [|c lo]; [contradiction|].
    change ("-" +:+ hi) with (String "-" hi). cbv iota beta.
    rewrite Hh. destruct hi as [|ch hi]; [contradiction|]. reflexivity.
Qed.

Lemma matchLpRange_iff_witness :
  matchLpRange "800-1000" = Some ("800", "1000").
Proof.
  apply (proj1 (matchLpRange_iff "800-1000" "800" "1000")).
  repeat split; discriminate.
Defined.

(** ** Freshness cache: what is put can be got, for one hour *)




(** [getCachedPlayer] hands out a record only if it is in the cache under
    the identifier asked for and was stamped at most one hour before the
    current clock reading; it changes nothing, in particular it does not
    delete the records it passes over. *)
Lemma getCachedPlayer_age (puuid : string) (s : State) :
  snd (getCachedPlayer puuid s) = s /\
  forall c,
    fst (getCachedPlayer puuid s) = Val (Some c) <->
    playerCache s !! puuid = Some c /\ now s - cachedAt c <= CACHE_MAX_AGE.
Proof.
  split; [reflexivity|]. intros c. unfold getCachedPlayer, gets, cacheLookup. simpl.
  destruct (playerCache s !! puuid) as [c'|].
  - destruct (Z.ltb_spec CACHE_MAX_AGE (now s - cachedAt c')).
    + split; [discriminate|]. intros [[= ->] H']. lia.
    + split; [intros [= ->]; auto|]. now intros [[= ->] _].
  - split; [discriminate | intros [H _]; discriminate].
Qed.

(** ** Shuffling *)

Lemma insert_head_Permutation {A} (l : list A) :
  forall j (a y : A), l !! j = Some y -> y :: <[j := a]> l ≡ₚ a :: l.
Proof.
  induction l as [|b l IH]; intros [|j] a y H; simpl in *; try discriminate.
  - injection H as ->. apply perm_swap.
  - rewrite perm_swap. rewrite (IH j a y H). apply perm_swap.
Qed.

(** The exchange of two elements is a permutation. *)
Lemma swap_Permutation {A} (l : list A) : forall i j, swap l i j ≡ₚ l.
Proof.
  induction l as [|a l IH]; intros i j; [now destruct i|].
  unfold swap. destruct i as [|i], j as [|j]; simpl.
  - reflexivity.
  - destruct (l !! j) as [y|] eqn:E; [|reflexivity]. simpl.
    now apply insert_head_Permutation.
  - destruct (l !! i) as [x|] eqn:E; [|reflexivity]. simpl.
    now apply insert_head_Permutation.
  - specialize (IH i j). unfold swap in IH.
    destruct (l !! i) as [x|]; [|reflexivity].
    destruct (l !! j) as [y|]; [|reflexivity].
    simpl. now rewrite IH.
Qed.

Lemma shuffleFrom_Permutation env {A} (i : nat) :
  forall (l : list A) s,
    exists l',
      shuffleFrom env i l s = (Val l', Nat.iter i countDraw s) /\ l' ≡ₚ l.
Proof.
  induction i as [|i IH]; intros l s; cbn [shuffleFrom Nat.iter nat_rect].
  - exists l. split; reflexivity.
  - rewrite (bind_run _ _ _ _ _ (randomIndex_run env _ s)).
    destruct (IH (swap l (S i) (random env (draws s) mod (S i + 1))%nat) (countDraw s))
      as (l' & Hrun & Hperm).
    exists l'. split.
    + rewrite Hrun. f_equal. clear. induction i as [|i IHi]; simpl; congruence.
    + rewrite Hperm. apply swap_Permutation.
Qed.

(** X7. [shuffleArray] returns a rearrangement of its argument: every element
    as often as before, none added, none lost.  It never fails, draws
    [length - 1] random numbers (none for an empty array), and touches nothing
    else of the state. *)
Theorem shuffleArray_Permutation env {A} (array : list A) (s : State) :
  exists shuffled,
    shuffleArray env array s
    = (Val shuffled, Nat.iter (length array - 1) countDraw s) /\
    shuffled ≡ₚ array /\ length shuffled = length array.
Proof.
  destruct (shuffleFrom_Permutation env (length array - 1) array s)
    as (l' & Hrun & Hperm).
  exists l'. split; [exact Hrun|]. split; [exact Hperm|]. now rewrite Hperm.
Qed.

Lemma shuffleArray_Permutation_witness :
  exists shuffled,
    shuffleArray sampleEnv ["a"; "b"; "c"; "d"] sampleState
    = (Val shuffled, Nat.iter 3 countDraw sampleState) /\
    shuffled ≡ₚ ["a"; "b"; "c"; "d"] /\ length shuffled = 4%nat.
Proof.
  apply (shuffleArray_Permutation sampleEnv ["a"; "b"; "c"; "d"] sampleState).
Defined.

Example shuffleArray_example :
  fst (shuffleArray sampleEnv [1; 2; 3; 4] sampleState) = Val [2; 3; 4; 1].
Proof. reflexivity. Qed.

(** ** Request gate: a request that is answered *)

(** X8. When the provider's answer is not a 429, [apiRequest] makes exactly
    one request, after the wait of the rate limiter, and nothing else: a
    success gives the parsed body, a 403 the error of the invalid key, any
    other status the API error carrying that status and the address.  There
    is no retry and no cool-down. *)
Theorem apiRequest_answered env {A} (fuel : nat) (url : Url)
    (answer : nat -> Response A) (s : State) :
  status (answer (requests s)) <> 429 ->
  let response := answer (requests s) in
  apiRequest env (S fuel) url answer s
  = (if ok response then Val (body response)
     else if status response =? 403 then Throw ApiKeyInvalid
     else Throw (ApiError (status response) url),
     record (EvFetch url) (countRequest (snd (rateLimiterWait s)))).
Proof.
  intros Hno. cbv zeta. rewrite apiRequest_step. cbv zeta.
  destruct (ok _); [reflexivity|]. destruct (_ =? 403); [reflexivity|].
  destruct (Z.eqb_spec (status (answer (requests s))) 429); [contradiction|].
  reflexivity.
Qed.

Lemma apiRequest_answered_witness :
  fst (apiRequest sampleEnv 1 (MatchUrl "M1") (fun _ => mkResponse 403 (@None Match.t))
         sampleState) = Throw ApiKeyInvalid /\
  fst (apiRequest sampleEnv 1 (MatchUrl "M1") (fun _ => mkResponse 503 (@None Match.t))
         sampleState) = Throw (ApiError 503 (MatchUrl "M1")).
Proof.
  split.
  - rewrite (apiRequest_answered sampleEnv 0 (MatchUrl "M1")
               (fun _ => mkResponse 403 (@None Match.t)) sampleState);
      [reflexivity | discriminate].
  - rewrite (apiRequest_answered sampleEnv 0 (MatchUrl "M1")
               (fun _ => mkResponse 503 (@None Match.t)) sampleState);
      [reflexivity | discriminate].
Defined.

(** X9. [getLastActiveMinutes] never throws: whatever goes wrong with its two
    requests is caught.  In particular a refused request for the match ids (a
    403, a 5xx) ends it with [null] after that one request and a line on the
    error console. *)
Theorem getLastActiveMinutes_never_throws env (gas : nat) (puuid : string) (s : State) :
  (forall e, fst (getLastActiveMinutes env gas puuid s) <> Throw e) /\
  (ok (matchIds env (requests s) puuid 1 None) = false ->
   status (matchIds env (requests s) puuid 1 None) <> 429 ->
   (0 < gas)%nat ->
   fst (getLastActiveMinutes env gas puuid s) = Val None /\
   requests (snd (getLastActiveMinutes env gas puuid s)) = S (requests s) /\
   exists tr,
     trace (snd (getLastActiveMinutes env gas puuid s))
     = tr ++ [EvConsoleError "Error checking activity"]).
Proof.
  split.
  - intros e. unfold getLastActiveMinutes, tryCatch.
    match goal with |- context [match ?m s with _ => _ end] =>
      destruct (m s) as [[a|e'|] s'] end; simpl; discriminate.
  - intros Hok Hno Hgas. destruct gas as [|gas]; [lia|].
    assert (E : getLastActiveMinutes env (S gas) puuid s
                = (Val None,
                   record (EvConsoleError "Error checking activity")
                     (record (EvFetch (MatchIdsUrl puuid 1 None))
                        (countRequest (snd (rateLimiterWait s)))))).
    { unfold getLastActiveMinutes, tryCatch, getMatchIds.
      unfold bind at 1.
      rewrite apiRequest_step. cbv zeta. rewrite Hok.
      destruct (_ =? 403); [reflexivity|].
      destruct (Z.eqb_spec (status (matchIds env (requests s) puuid 1 None)) 429);
        [contradiction | reflexivity]. }
    rewrite E. cbn [fst snd]. split; [reflexivity|]. split.
    + unfold record at 1. cbn [requests]. apply fetched_requests.
    + unfold record at 1. cbn [trace]. eauto.
Qed.

Lemma getLastActiveMinutes_never_throws_witness :
  let env := mkEnv (leagueExp sampleEnv) (summonerByPuuid sampleEnv)
               (leagueBySummoner sampleEnv) (accountByPuuid sampleEnv)
               (fun _ _ _ _ => mkResponse 403 None) (matchDetails sampleEnv)
               (random sampleEnv) None true true in
  fst (getLastActiveMinutes env 3 "p1" sampleState) = Val None.
Proof.
  intros env.
  apply (proj2 (getLastActiveMinutes_never_throws env 3 "p1" sampleState));
    [reflexivity | discriminate | lia].
Defined.

(** ** Properties kept all along a search *)

Lemma keeps_ret {A} P (a : A) : keeps P (ret a).
Proof. intros s H. exact H. Qed.

Lemma keeps_throw {A} P e : keeps P (@throw A e).
Proof. intros s H. exact H. Qed.

Lemma keeps_diverge {A} P : keeps P (@diverge A).
Proof. intros s H. exact H. Qed.

Lemma keeps_gets {A} P (f : State -> A) : keeps P (gets f).
Proof. intros s H. exact H. Qed.

Lemma keeps_modify P (f : State -> State) :
  (forall s, P s -> P (f s)) -> keeps P (modify f).
Proof. intros H s Hs. apply H, Hs. Qed.

Lemma keeps_bind {A B} P (m : M A) (f : A -> M B) :
  keeps P m -> (forall a, keeps P (f a)) -> keeps P (bind m f).
Proof.
  intros Hm Hf s Hs. specialize (Hm s Hs). unfold bind.
  destruct (m s) as [[a|e|] s1]; simpl in *; auto. now apply Hf.
Qed.

Lemma keeps_tryCatch {A} P (m : M A) (h : Error -> M A) :
  keeps P m -> (forall e, keeps P (h e)) -> keeps P (tryCatch m h).
Proof.
  intros Hm Hh s Hs. specialize (Hm s Hs). unfold tryCatch.
  destruct (m s) as [[a|e|] s1]; simpl in *; auto. now apply Hh.
Qed.

Lemma keeps_forOf {A} P (body : A -> M Ctl) (l : list A) :
  (forall x, keeps P (body x)) -> keeps P (forOf l body).
Proof.
  intros Hb. induction l as [|x l IH]; simpl; [apply keeps_ret|].
  apply keeps_bind; [apply Hb|]. intros [|]; [exact IH | apply keeps_ret].
Qed.

Lemma wp_keeps {A} P (m : M A) (Q : Res A -> State -> Prop) s :
  keeps P m -> P s -> (forall r s', P s' -> Q r s') -> wp m Q s.
Proof. intros Hm Hs HQ. apply HQ, Hm, Hs. Qed.

Lemma keeps_wp {A} P (m : M A) :
  keeps P m <-> forall s, P s -> wp m (fun _ s' => P s') s.
Proof. reflexivity. Qed.

Create HintDb keep.

Ltac keep :=
  repeat first
    [ apply keeps_ret | apply keeps_throw | apply keeps_diverge
    | apply keeps_gets
    | solve [auto with keep]
    | apply keeps_forOf; intros ?
    | apply keeps_tryCatch; [|intros ?]
    | apply keeps_bind; [|intros ?]
    | match goal with
      | |- keeps _ (if ?b then _ else _) => destruct b
      | |- keeps _ (match ?x with _ => _ end) => destruct x
      | |- keeps _ (let _ := _ in _) => cbv zeta
      end ].

Lemma usableCached_meets o pp s c s' :
  usableCached o pp s = (Val (Some c), s') ->
  s' = s /\ cachedPlayerMeetsCriteria (now s) c o = true.
Proof.
  unfold usableCached, getCachedPlayer, bind, gets. simpl.
  destruct (cacheLookup _ _ _) as [c'|]; [|discriminate].
  destruct (cachedPlayerMeetsCriteria (now s) c' o) eqn:E; [|discriminate].
  intros [= <- <-]. auto.
Qed.

Lemma usableCached_state o pp s : snd (usableCached o pp s) = s.
Proof.
  unfold usableCached, getCachedPlayer, bind, gets. simpl.
  destruct (cacheLookup _ _ _) as [c'|]; [|reflexivity].
  now destruct (cachedPlayerMeetsCriteria (now s) c' o).
Qed.

Section SearchPass.

Variable env : Env.
Variable gas : nat.
Variable maxPlayers : nat.
Variable cacheOptions : CacheOptions.
Variable P : State -> Prop.
Variable good : Player.t -> Prop.
Hypothesis HP : searchProperty env cacheOptions P good.

Lemma keeps_addSeen x : keeps P (modify (addSeen x)).
Proof. apply keeps_modify, (kept_seen _ _ _ _ HP). Qed.

Lemma keeps_addProcessed x : keeps P (modify (addProcessed x)).
Proof. apply keeps_modify, (kept_processed _ _ _ _ HP). Qed.

Lemma keeps_console msg : keeps P (modify (record (EvConsoleError msg))).
Proof. apply keeps_modify, (kept_console _ _ _ _ HP). Qed.

Lemma keeps_coolDown n : keeps P (coolDown env n).
Proof.
  pose proof (kept_sleep _ _ _ _ HP). pose proof (kept_poll _ _ _ _ HP).
  induction n as [|n IH]; simpl; keep.
Qed.

Lemma keeps_apiRequest {A} fuel url (answer : nat -> Response A) :
  keeps P (apiRequest env fuel url answer).
Proof.
  induction fuel as [|fuel IH]; intros s Hs; [exact Hs|].
  rewrite apiRequest_step. cbv zeta.
  pose proof (kept_fetch _ _ _ _ HP url s Hs) as H2.
  destruct (ok _); [exact H2|]. destruct (_ =? 403); [exact H2|].
  destruct (_ =? 429); [|exact H2].
  revert H2. generalize (record (EvFetch url) (countRequest (snd (rateLimiterWait s)))).
  change (keeps P (run notifyRateLimit env true 120;
                   run coolDown env 120;
                   run notifyRateLimit env false 0;
                   apiRequest env fuel url answer)).
  pose proof (kept_limit _ _ _ _ HP). pose proof keeps_coolDown. keep.
Qed.

Hint Resolve keeps_addSeen keeps_addProcessed keeps_console keeps_coolDown
  keeps_apiRequest : keep.

Lemma keeps_getLastActiveMinutes puuid :
  keeps P (getLastActiveMinutes env gas puuid).
Proof. unfold getLastActiveMinutes, getMatchIds, getMatchDetails. keep. Qed.

Lemma keeps_resolveName puuid : keeps P (resolveName env gas puuid).
Proof. unfold resolveName, getRiotIdByPuuid. keep. Qed.

Lemma keeps_shuffleFrom {A} i : forall l : list A, keeps P (shuffleFrom env i l).
Proof.
  pose proof (kept_draw _ _ _ _ HP).
  induction i as [|i IH]; intros l; simpl; keep.
Qed.

Lemma keeps_shuffleArray {A} (l : list A) : keeps P (shuffleArray env l).
Proof. apply keeps_shuffleFrom. Qed.

Lemma keeps_usableCached pp : keeps P (usableCached cacheOptions pp).
Proof. intros s Hs. now rewrite usableCached_state. Qed.

Hint Resolve keeps_getLastActiveMinutes keeps_resolveName keeps_shuffleArray
  keeps_usableCached : keep.

(** An accepted player joins the results and is shown to the observer. *)
Lemma wp_accept {A} p (k : M A) (Q : Res A -> State -> Prop) s :
  good p -> P s ->
  (forall s', P s' -> wp k Q s') ->
  wp (run modify (pushResult p); run notifyPlayerFound env p; k) Q s.
Proof.
  intros Hg Hs Hk. apply wp_bind, wp_modify. apply wp_bind.
  pose proof (kept_push _ _ _ _ HP p s Hg Hs) as H.
  unfold wp at 1. revert H. unfold notifyPlayerFound.
  destruct (sendPlayerFound env); simpl; apply Hk.
Qed.

Lemma keeps_acceptCached pp c s :
  cachedPlayerMeetsCriteria (now s) c cacheOptions = true ->
  P s -> P (snd (acceptCached env pp c s)).
Proof.
  intros Hc Hs. unfold acceptCached.
  change (wp (run modify (addSeen pp);
              do t <- gets now;
              run modify (pushResult (playerFromCache t c));
              notifyPlayerFound env (playerFromCache t c))
             (fun _ s' => P s') s).
  apply wp_bind, wp_modify. apply wp_bind, wp_gets.
  apply wp_bind, wp_modify.
  apply (kept_push _ _ _ _ HP).
  - apply (good_cached _ _ _ _ HP), Hc.
  - apply (kept_seen _ _ _ _ HP), Hs.
Qed.

(** The fresh accept path, with what follows it. *)
Lemma wp_acceptNew {A} pp (mk : string -> Z -> Player.t) (k : Player.t -> M A) s :
  P s ->
  (forall n t, good (mk n t)) ->
  (forall p, keeps P (k p)) ->
  wp (run modify (addSeen pp);
      do displayName <- resolveName env gas pp;
      do t <- gets now;
      run cachePlayer (mk displayName t);
      run modify (pushResult (mk displayName t));
      run notifyPlayerFound env (mk displayName t);
      k (mk displayName t)) (fun _ s' => P s') s.
Proof.
  intros Hs Hg Hk.
  apply wp_bind, wp_modify. apply wp_bind.
  apply (wp_keeps P); [auto with keep | apply (kept_seen _ _ _ _ HP), Hs |].
  intros [name|e|] s1 H1; try exact H1.
  apply wp_bind, wp_gets. apply wp_bind.
  apply (wp_keeps P); [apply (kept_cache _ _ _ _ HP) | exact H1 |].
  intros [u|e|] s2 H2; try exact H2.
  apply wp_accept; [apply Hg | exact H2 |].
  intros s3 H3. apply Hk, H3.
Qed.

Lemma keeps_processLeagueEntry a pp le :
  minutesAgo a <= activeWithinMinutes cacheOptions ->
  keeps P (processLeagueEntry env gas maxPlayers cacheOptions a pp le).
Proof.
  intros Ha s Hs. unfold processLeagueEntry, resultsFull.
  change (P (snd (?m s))) with (wp m (fun _ s' => P s') s).
  apply wp_bind, wp_gets.
  destruct (maxPlayers <=? length (results s))%nat; [exact Hs|].
  destruct (_ && _); [exact Hs|].
  cbv zeta.
  match goal with |- wp (if ?b then _ else _) _ _ => destruct b eqn:Eout end;
    [exact Hs|].
  assert (Hlp : outsideLpRange cacheOptions
                  (toTotalLP (Entry.tier le) (Entry.rank le)
                     (Entry.leaguePoints le)) = false).
  { unfold outsideLpRange in *.
    destruct (minLP cacheOptions), (maxLP cacheOptions); try reflexivity.
    destruct (toTotalLP _ _ _); [exact Eout | discriminate]. }
  destruct (js_lt _ _) eqn:Ewr; [exact Hs|].
  apply (wp_acceptNew pp
           (fun n t =>
              playerFromEntry n (queueShortName (Entry.queueType le))
                (Entry.tier le) (Entry.rank le) le
                (toTotalLP (Entry.tier le) (Entry.rank le) (Entry.leaguePoints le))
                a pp true t)
           (fun _ => ret Break)); [exact Hs | | intros; apply keeps_ret].
  intros n t. now apply (good_entry _ _ _ _ HP).
Qed.

Lemma keeps_processParticipant puuid a pp :
  minutesAgo a <= activeWithinMinutes cacheOptions ->
  keeps P (processParticipant env gas maxPlayers cacheOptions puuid a pp).
Proof.
  intros Ha s Hs. unfold processParticipant, resultsFull.
  change (P (snd (?m s))) with (wp m (fun _ s' => P s') s).
  apply wp_bind, wp_gets.
  destruct (maxPlayers <=? length (results s))%nat; [exact Hs|].
  apply wp_bind, (wp_keeps P); [apply (kept_poll _ _ _ _ HP) | exact Hs |].
  intros [[|]|e|] s1 H1; try exact H1.
  unfold hasSeen. apply wp_bind, wp_gets.
  destruct (_ || _); [exact H1|].
  apply wp_bind. unfold wp at 1.
  destruct (usableCached cacheOptions pp s1) as [[[c|]|e|] s2] eqn:Ehit;
    pose proof (usableCached_state cacheOptions pp s1) as E2;
    rewrite Ehit in E2; simpl in E2; subst s2; simpl fst; simpl snd;
    try exact H1.
  - apply usableCached_meets in Ehit as [_ Hc].
    apply wp_bind. unfold wp at 1.
    pose proof (keeps_acceptCached pp c s1 Hc H1) as H2.
    destruct (acceptCached env pp c s1) as [[u|e|] s2]; exact H2.
  - pose proof (fun le => keeps_processLeagueEntry a pp le Ha) as Hle.
    clear Ehit. revert s1 H1.
    change (keeps P
      (tryCatch
         (do summoner <- getSummonerByPuuid env gas pp;
          match summoner with
          | None => ret Next
          | Some su =>
              if String.eqb (summonerId su) EmptyString then ret Next
              else
                do leagueEntries <- getLeagueEntriesBySummonerId env gas (summonerId su);
                match leagueEntries with
                | None | Some [] => ret Next
                | Some les =>
                    run forOf les
                          (processLeagueEntry env gas maxPlayers cacheOptions a pp);
                    ret Next
                end
          end)
         (fun _ => ret Next))).
    unfold getSummonerByPuuid, getLeagueEntriesBySummonerId.
    keep.
Qed.

Lemma keeps_expandMatch puuid a :
  minutesAgo a <= activeWithinMinutes cacheOptions ->
  keeps P (expandMatch env gas maxPlayers cacheOptions puuid a).
Proof.
  intros Ha. pose proof (fun pp => keeps_processParticipant puuid a pp Ha).
  unfold expandMatch, resultsFull. keep.
Qed.

Lemma keeps_processEntry q t d entry :
  keeps P (processEntry env gas maxPlayers cacheOptions q t d entry).
Proof.
  intros s Hs. unfold processEntry, resultsFull.
  change (P (snd (?m s))) with (wp m (fun _ s' => P s') s).
  apply wp_bind, wp_gets.
  destruct (maxPlayers <=? length (results s))%nat; [exact Hs|].
  apply wp_bind, (wp_keeps P); [apply (kept_poll _ _ _ _ HP) | exact Hs |].
  intros [[|]|e|] s1 H1; try exact H1.
  destruct (outsideLpRange _ _) eqn:Elp; [exact H1|].
  destruct (js_lt _ _) eqn:Ewr; [exact H1|].
  cbv zeta. destruct (String.eqb _ _); [exact H1|].
  unfold hasSeen. apply wp_bind, wp_gets.
  destruct (bool_decide _); [exact H1|].
  apply wp_bind. unfold wp at 1.
  destruct (usableCached cacheOptions (Entry.puuid entry) s1)
    as [[[c|]|e|] s2] eqn:Ehit;
    pose proof (usableCached_state cacheOptions (Entry.puuid entry) s1) as E2;
    rewrite Ehit in E2; simpl in E2; subst s2; simpl fst; simpl snd;
    try exact H1.
  - apply usableCached_meets in Ehit as [_ Hc].
    apply wp_bind. unfold wp at 1.
    pose proof (keeps_acceptCached (Entry.puuid entry) c s1 Hc H1) as H2.
    destruct (acceptCached env (Entry.puuid entry) c s1) as [[u|e|] s2]; exact H2.
  - clear Ehit.
    apply wp_bind, (wp_keeps P); [auto with keep | exact H1 |].
    intros [[act|]|e|] s2 H2; try exact H2.
    destruct (Z.leb_spec (minutesAgo act) (activeWithinMinutes cacheOptions))
      as [Ha|_]; [|exact H2].
    apply (wp_acceptNew (Entry.puuid entry)
             (fun n time =>
                playerFromEntry n (queueShortName q) t d entry
                  (toTotalLP t d (Entry.leaguePoints entry))
                  act (Entry.puuid entry) false time)
             (fun _ =>
                run expandMatch env gas maxPlayers cacheOptions
                      (Entry.puuid entry) act;
                ret Next)).
    + exact H2.
    + intros n time. now apply (good_entry _ _ _ _ HP).
    + intros p. pose proof (keeps_expandMatch (Entry.puuid entry) act Ha). keep.
Qed.

Lemma keeps_getLeagueEntries q t d page :
  keeps P (getLeagueEntries env gas q t d page).
Proof. apply keeps_apiRequest. Qed.

Lemma keeps_mainLoop fuel :
  forall combos, keeps P (mainLoop env gas maxPlayers cacheOptions fuel combos).
Proof.
  pose proof (kept_poll _ _ _ _ HP). pose proof (kept_draw _ _ _ _ HP).
  pose proof keeps_processEntry. pose proof keeps_getLeagueEntries.
  induction fuel as [|fuel IH]; intros combos; [apply keeps_diverge|].
  cbn [mainLoop]. unfold resultsFull. keep.
Qed.

End SearchPass.

Lemma keeps_runSearch env fuel o tds lo hi P good :
  searchProperty env
    (mkCacheOptions (Options.activeWithinMinutes o) (Options.minWinRate o) lo hi)
    P good ->
  forall s, P (newSearch s) -> P (snd (runSearch env fuel o tds lo hi s)).
Proof.
  intros HP s Hs.
  assert (K : keeps P
            (do shuffledCombinations <-
               shuffleArray env (searchCombinations (queuesToSearch o) tds);
             run mainLoop env fuel (Options.maxPlayers o)
                   (mkCacheOptions (Options.activeWithinMinutes o)
                      (Options.minWinRate o) lo hi) fuel shuffledCombinations;
             run saveCache;
             gets results)).
  { pose proof (keeps_shuffleArray _ _ _ _ HP (A := Combo.t)).
    pose proof (keeps_mainLoop env fuel (Options.maxPlayers o) _ _ _ HP fuel).
    pose proof (kept_save _ _ _ _ HP).
    keep. }
  exact (K (newSearch s) Hs).
Qed.

Lemma wp_any {A} (m : M A) (Q : Res A -> State -> Prop) s :
  (forall r s', Q r s') -> wp m Q s.
Proof. intros H. apply H. Qed.

(** What [runSearch] returns is the result list it leaves. *)
Lemma runSearch_results env fuel o tds lo hi s rs :
  fst (runSearch env fuel o tds lo hi s) = Val rs ->
  rs = results (snd (runSearch env fuel o tds lo hi s)).
Proof.
  revert rs.
  change (wp (runSearch env fuel o tds lo hi)
             (fun r s' => forall rs, r = Val rs -> rs = results s') s).
  unfold runSearch. cbv zeta. apply wp_bind, wp_modify.
  apply wp_bind, wp_any. intros [c|e|] s1; try (intros; discriminate).
  apply wp_bind, wp_any. intros [u|e|] s2; try (intros; discriminate).
  apply wp_bind, wp_any. intros [u'|e|] s3; try (intros; discriminate).
  apply wp_gets. now intros rs [= <-].
Qed.

(** ** What a search returns *)

Lemma keeps_leaves {A} P (m : M A) :
  leavesSearch m -> (forall s s', sameSearch s s' -> P s -> P s') -> keeps P m.
Proof. intros Hm HP s Hs. exact (HP s _ (Hm s) Hs). Qed.

Lemma results_fetched url s :
  results (record (EvFetch url) (countRequest (snd (rateLimiterWait s)))) = results s.
Proof. simpl. apply (leaves_rateLimiterWait s). Qed.

Lemma results_cachePlayer p s : results (snd (cachePlayer p s)) = results s.
Proof.
  rewrite cachePlayer_run. cbv zeta. simpl snd. now destruct (_ =? 0).
Qed.

Lemma results_pushed env p s :
  results (snd (notifyPlayerFound env p (pushResult p s))) = results s ++ [p].
Proof. unfold notifyPlayerFound. now destruct (sendPlayerFound env). Qed.

Lemma meetsCriteria_cached o t c :
  cachedPlayerMeetsCriteria t c o = true -> meetsCriteria o (playerFromCache t c).
Proof.
  rewrite cachedPlayerMeetsCriteria_checks.
  intros H. apply andb_prop in H as [H Hlp]. apply andb_prop in H as [Hact Hwr].
  unfold meetsCriteria, playerFromCache. cbn [Player.lastActiveMinutes
    Player.totalLP Player.wins Player.losses].
  split; [|split].
  - unfold activityCheck in Hact. apply negb_true_iff, Z.ltb_ge in Hact. exact Hact.
  - unfold lpCheck in Hlp. unfold outsideLpRange.
    destruct (minLP o), (maxLP o); try reflexivity.
    now apply negb_true_iff in Hlp.
  - intros _. unfold winRateCheck in Hwr. now apply negb_true_iff in Hwr.
Qed.

Lemma meetsCriteria_entry o name q tierName divName e total a puuid viaMatch t :
  minutesAgo a <= activeWithinMinutes o ->
  outsideLpRange o total = false ->
  js_lt (entryWinRate (Entry.wins e) (Entry.losses e)) (minWinRate o) = false ->
  meetsCriteria o (playerFromEntry name q tierName divName e total a puuid viaMatch t).
Proof.
  intros Ha Hlp Hwr. unfold meetsCriteria, playerFromEntry.
  cbn [Player.lastActiveMinutes Player.totalLP Player.wins Player.losses].
  split; [exact Ha | split; [exact Hlp|]].
  intros Hgames. unfold entryWinRate in Hwr. cbv zeta in Hwr.
  apply Z.ltb_lt in Hgames. now rewrite Hgames in Hwr.
Qed.

Lemma criteria_searchProperty env o :
  searchProperty env o (fun s => Forall (meetsCriteria o) (results s))
    (meetsCriteria o).
Proof.
  assert (Hsame : forall s s',
            sameSearch s s' ->
            Forall (meetsCriteria o) (results s) ->
            Forall (meetsCriteria o) (results s')).
  { intros s s' (-> & _). auto. }
  split.
  - apply keeps_leaves; [auto with frame | exact Hsame].
  - intros url s. now rewrite results_fetched.
  - apply keeps_leaves; [auto with frame | exact Hsame].
  - intros n. apply keeps_leaves; [auto with frame | exact Hsame].
  - intros b n. apply keeps_leaves; [auto with frame | exact Hsame].
  - intros p s. now rewrite results_cachePlayer.
  - apply keeps_leaves; [auto with frame | exact Hsame].
  - auto.
  - auto.
  - auto.
  - intros p s Hg Hs. rewrite results_pushed. apply Forall_app. auto.
  - apply meetsCriteria_cached.
  - intros. now apply meetsCriteria_entry.
Qed.

(** X10. Every player of a result list returned by [scoutPlayers] meets the
    criteria of the search, whether it came from the cache, from a fresh
    lookup or from the participants of a match: it was last active within
    [activeWithinMinutes] (for a cached player, counting the age of the
    record), its total LP is not outside the requested range, and, if it has
    played at all, its win rate is not below [minWinRate]. *)
Theorem scoutPlayers_results_meet_criteria env fuel (o : Options.t) (s : State)
    (rs : list Player.t) :
  fst (scoutPlayers env fuel o s) = Val rs ->
  Forall (meetsCriteria (searchCriteria o)) rs.
Proof.
  assert (Hrun : forall tds lo hi,
            fst (runSearch env fuel o tds lo hi s) = Val rs ->
            Forall (meetsCriteria
                      (mkCacheOptions (Options.activeWithinMinutes o)
                         (Options.minWinRate o) lo hi)) rs).
  { intros tds lo hi E. rewrite (runSearch_results _ _ _ _ _ _ _ _ E).
    apply (keeps_runSearch env fuel o tds lo hi _ _ (criteria_searchProperty env _)).
    simpl. constructor. }
  unfold scoutPlayers, searchCriteria.
  destruct (Options.lpRange o) as [[|c r]|]; try apply Hrun.
  destruct (matchLpRange (String c r)) as [[lo hi]|]; [apply Hrun|].
  intros [= <-]. constructor.
Qed.

Lemma scoutPlayers_results_meet_criteria_witness :
  exists rs,
    fst (scoutPlayers sampleEnv 10 sampleOptions warmState) = Val rs /\
    map Player.puuid rs = ["p2"; "p1"; "p3"] /\
    Forall (meetsCriteria (searchCriteria sampleOptions)) rs.
Proof.
  eexists. split; [vm_compute; reflexivity|]. split; [reflexivity|].
  apply (scoutPlayers_results_meet_criteria sampleEnv 10 sampleOptions warmState).
  vm_compute. reflexivity.
Defined.

(** ** What the observer is shown *)

Lemma playersFound_app tr1 tr2 :
  playersFound (tr1 ++ tr2) = playersFound tr1 ++ playersFound tr2.
Proof. apply flat_map_app. Qed.

Ltac shown :=
  intros; cbn [trace results record advanceClock stampRequest countRequest
               countDraw countPoll setCache writeCacheFile addSeen addProcessed];
  rewrite ?playersFound_app; cbn [playersFound flat_map app];
  rewrite ?app_nil_r; auto.

Ltac keep_by tac :=
  repeat first
    [ apply keeps_ret | apply keeps_throw | apply keeps_diverge
    | apply keeps_gets
    | apply keeps_modify; solve [tac]
    | apply keeps_bind; [|intros ?]
    | match goal with
      | |- keeps _ (if ?b then _ else _) => destruct b
      | |- keeps _ (match ?x with _ => _ end) => destruct x
      | |- keeps _ (let _ := _ in _) => cbv zeta
      end ].

Lemma shown_searchProperty env o base :
  searchProperty env o
    (fun s => playersFound (trace s)
              = base ++ (if sendPlayerFound env then results s else []))
    (fun _ => True).
Proof.
  split; try exact (fun _ _ => I); try (intros; exact I).
  - unfold sleep. keep_by shown.
  - intros url s Hs.
    assert (H : keeps (fun s => playersFound (trace s)
                = base ++ (if sendPlayerFound env then results s else []))
                rateLimiterWait)
      by (unfold rateLimiterWait, sleep; keep_by shown).
    specialize (H s Hs). revert H. generalize (snd (rateLimiterWait s)). shown.
  - unfold searchAborted. keep_by shown.
  - intros n. unfold randomIndex. keep_by shown.
  - intros b n. unfold notifyRateLimit. keep_by shown.
  - intros p. unfold cachePlayer, saveCache. keep_by shown.
  - unfold saveCache. keep_by shown.
  - shown.
  - shown.
  - shown.
  - intros p s _. unfold notifyPlayerFound.
    destruct (sendPlayerFound env); cbn [snd modify ret];
      cbn [record pushResult trace results]; intros H;
      rewrite ?playersFound_app, H; cbn [playersFound flat_map app];
      rewrite ?app_assoc; reflexivity.
Qed.

(** X11. The observer hook [sendPlayerFound], when installed, is called once
    for each player of the list [scoutPlayers] returns, in the order of the
    list, and for nobody else; without the hook nothing is shown. *)
Theorem scoutPlayers_shows_results env fuel (o : Options.t) (s : State)
    (rs : list Player.t) :
  fst (scoutPlayers env fuel o s) = Val rs ->
  playersFound (trace (snd (scoutPlayers env fuel o s)))
  = playersFound (trace s) ++ (if sendPlayerFound env then rs else []).
Proof.
  assert (Hrun : forall tds lo hi,
            fst (runSearch env fuel o tds lo hi s) = Val rs ->
            playersFound (trace (snd (runSearch env fuel o tds lo hi s)))
            = playersFound (trace s) ++ (if sendPlayerFound env then rs else [])).
  { intros tds lo hi E. rewrite (runSearch_results _ _ _ _ _ _ _ _ E).
    apply (keeps_runSearch env fuel o tds lo hi _ _
             (shown_searchProperty env _ (playersFound (trace s)))).
    simpl. destruct (sendPlayerFound env); now rewrite app_nil_r. }
  unfold scoutPlayers.
  destruct (Options.lpRange o) as [[|c r]|]; try apply Hrun.
  destruct (matchLpRange (String c r)) as [[lo hi]|]; [apply Hrun|].
  intros [= <-]. cbn [snd bind modify ret record trace].
  rewrite playersFound_app. cbn [playersFound flat_map app].
  now destruct (sendPlayerFound env).
Qed.

Lemma scoutPlayers_shows_results_witness :
  exists rs,
    fst (scoutPlayers sampleEnv 10 sampleOptions warmState) = Val rs /\
    map Player.puuid rs = ["p2"; "p1"; "p3"] /\
    playersFound (trace (snd (scoutPlayers sampleEnv 10 sampleOptions warmState)))
    = rs.
Proof.
  eexists. split; [vm_compute; reflexivity|]. split; [reflexivity|].
  apply (scoutPlayers_shows_results sampleEnv 10 sampleOptions warmState).
  vm_compute. reflexivity.
Defined.


(** ** The pace of the requests *)

Lemma clockOf_snoc tr e :
  clockOf (tr ++ [e]) = clockOf tr + match e with EvSleep ms => ms | _ => 0 end.
Proof.
  unfold clockOf. induction tr as [|x tr IH]; simpl.
  - destruct e; lia.
  - rewrite IH. destruct x; lia.
Qed.

Lemma fetchClocks_snoc tr : forall clock e,
  fetchClocks clock (tr ++ [e])
  = fetchClocks clock tr
    ++ match e with EvFetch _ => [clock + clockOf tr] | _ => [] end.
Proof.
  induction tr as [|x tr IH]; intros clock e.
  - destruct e; simpl; rewrite ?Z.add_0_r; reflexivity.
  - destruct x; simpl; rewrite IH; try reflexivity.
    destruct e; try reflexivity. now rewrite Z.add_assoc.
Qed.

Lemma spaced_snoc d l x :
  spaced d l -> (forall f, last l = Some f -> d <= x - f) -> spaced d (l ++ [x]).
Proof.
  induction l as [|a l IH]; intros Hs Hl; [simpl; auto|].
  destruct l as [|b l].
  - simpl. split; [|auto]. apply Hl. reflexivity.
  - destruct Hs as [Hab Hs]. split; [exact Hab|].
    apply IH; [exact Hs|]. intros f Hf. apply Hl. exact Hf.
Qed.

Lemma paced_quiet start s s' :
  now s' = now s -> lastRequest s' = lastRequest s ->
  clockOf (trace s') = clockOf (trace s) ->
  fetchClocks start (trace s') = fetchClocks start (trace s) ->
  paced start s -> paced start s'.
Proof. unfold paced. intros -> -> -> ->. auto. Qed.

Lemma paced_record start e s :
  match e with EvSleep _ | EvFetch _ => False | _ => True end ->
  paced start s -> paced start (record e s).
Proof.
  intros He. apply paced_quiet; try reflexivity; simpl.
  - rewrite clockOf_snoc. destruct e; try contradiction; lia.
  - rewrite fetchClocks_snoc. destruct e; try contradiction; apply app_nil_r.
Qed.

Lemma paced_sleep start ms : 0 <= ms -> keeps (paced start) (sleep ms).
Proof.
  intros Hms s (Hn & Hl & Hf & Hs). unfold paced, sleep. simpl.
  rewrite clockOf_snoc, fetchClocks_snoc, app_nil_r.
  repeat split; auto; lia.
Qed.

Lemma paced_fetch start url s :
  paced start s ->
  paced start (record (EvFetch url) (countRequest (snd (rateLimiterWait s)))).
Proof.
  intros (Hn & Hl & Hf & Hs).
  unfold paced, rateLimiterWait, bind, gets, modify, sleep. simpl.
  destruct (now s - lastRequest s <? minDelay) eqn:E; simpl.
  - apply Z.ltb_lt in E.
    rewrite !clockOf_snoc, !fetchClocks_snoc, app_nil_r, clockOf_snoc, last_snoc.
    repeat split; try lia.
    + intros f [= <-]. lia.
    + apply spaced_snoc; [exact Hs|]. intros f Hlast. specialize (Hf f Hlast). lia.
  - apply Z.ltb_ge in E.
    rewrite !clockOf_snoc, !fetchClocks_snoc, last_snoc.
    repeat split; try lia.
    + intros f [= <-]. lia.
    + apply spaced_snoc; [exact Hs|]. intros f Hlast. specialize (Hf f Hlast). lia.
Qed.

Ltac pacing :=
  intros;
  first [ apply paced_record; [exact I | assumption]
        | eapply paced_quiet; [| | | | eassumption]; reflexivity ].

Lemma paced_searchProperty env o start :
  searchProperty env o (paced start) (fun _ => True).
Proof.
  split; try exact (fun _ _ => I); try (intros; exact I).
  - apply paced_sleep. discriminate.
  - apply paced_fetch.
  - unfold searchAborted. keep_by pacing.
  - intros n. unfold randomIndex. keep_by pacing.
  - intros b n. unfold notifyRateLimit. keep_by pacing.
  - intros p. unfold cachePlayer, saveCache. keep_by pacing.
  - unfold saveCache. keep_by pacing.
  - pacing.
  - pacing.
  - pacing.
  - intros p s _ Hs. unfold notifyPlayerFound.
    destruct (sendPlayerFound env); cbn [snd modify ret].
    + apply paced_record; [exact I|]. revert Hs. now apply paced_quiet.
    + revert Hs. now apply paced_quiet.
Qed.

(** X12. The rate limiter holds all along a search: started from a state in
    which the clock is the start of the trace plus the time slept and the
    requests sent so far are at least [minDelay] (100 ms) apart, none of them
    later than the last stamp of the limiter, [scoutPlayers] leaves such a
    state, however it ends.  Any two consecutive requests of the script are
    at least 100 ms apart. *)
Theorem scoutPlayers_paced env fuel (o : Options.t) (start : Z) (s : State) :
  paced start s ->
  paced start (snd (scoutPlayers env fuel o s)) /\
  spaced 100 (fetchClocks start (trace (snd (scoutPlayers env fuel o s)))).
Proof.
  intros Hs.
  assert (H : paced start (snd (scoutPlayers env fuel o s))).
  { assert (Hrun : forall tds lo hi,
              paced start (snd (runSearch env fuel o tds lo hi s))).
    { intros tds lo hi.
      apply (keeps_runSearch env fuel o tds lo hi _ _
               (paced_searchProperty env _ start)).
      revert Hs. now apply paced_quiet. }
    unfold scoutPlayers.
    destruct (Options.lpRange o) as [[|c r]|]; try apply Hrun.
    destruct (matchLpRange (String c r)) as [[lo hi]|]; [apply Hrun|].
    cbn [snd bind modify ret]. now apply paced_record. }
  split; [exact H | apply H].
Qed.

Lemma scoutPlayers_paced_witness :
  spaced 100
    (fetchClocks 1200000
       (trace (snd (scoutPlayers sampleEnv 10 sampleOptions sampleState)))) /\
  (3 <= length (fetchClocks 1200000
       (trace (snd (scoutPlayers sampleEnv 10 sampleOptions sampleState)))))%nat.
Proof.
  split.
  - apply (scoutPlayers_paced sampleEnv 10 sampleOptions 1200000 sampleState).
    repeat split; simpl; try lia. discriminate.
  - vm_compute. lia.
Defined.

(** ** A search that ends at its first check *)

Lemma drawn_state n s :
  Nat.iter n countDraw s
  = mkState (now s) (lastRequest s) (requests s) (n + draws s) (polls s)
      (playerCache s) (cacheFile s) (results s) (seenPuuids s)
      (processedMatchIds s) (trace s).
Proof.
  induction n as [|n IH]; simpl; [now destruct s|].
  rewrite IH. reflexivity.
Qed.

Lemma countSaves_snoc tr e :
  countSaves (tr ++ [e]) = (countSaves tr + if isSave e then 1 else 0)%nat.
Proof.
  unfold countSaves. rewrite List.filter_app, List.length_app. simpl.
  now destruct (isSave e).
Qed.

Lemma mainLoop_stops env gas maxPlayers co fuel combos s :
  results s = [] ->
  maxPlayers = 0%nat \/
  (exists hook, isSearchAborted env = Some hook /\ hook (polls s) = true) ->
  exists s',
    mainLoop env gas maxPlayers co (S fuel) combos s = (Val tt, s') /\
    results s' = [] /\ requests s' = requests s /\
    playerCache s' = playerCache s /\
    countSaves (trace s') = countSaves (trace s).
Proof.
  intros Hres Hstop. cbn [mainLoop]. unfold resultsFull, bind at 1, gets at 1.
  cbn [fst snd]. rewrite Hres. cbn [length].
  destruct maxPlayers as [|m]; [exists s; repeat split; assumption|].
  destruct Hstop as [|(hook & Hhook & Htrue)]; [discriminate|].
  cbn [Nat.leb]. unfold searchAborted. rewrite Hhook.
  unfold bind, gets, modify. cbn [fst snd]. rewrite Htrue.
  eexists. split; [reflexivity|]. cbn [record countPoll results requests
    playerCache trace]. rewrite countSaves_snoc. repeat split; auto.
Qed.

Lemma runSearch_stops env fuel o tds lo hi s :
  Options.maxPlayers o = 0%nat \/
  (exists hook, isSearchAborted env = Some hook /\ hook (polls s) = true) ->
  let out := runSearch env (S fuel) o tds lo hi s in
  fst out = Val [] /\ requests (snd out) = requests s /\
  playerCache (snd out) = playerCache s /\ cacheFile (snd out) = playerCache s /\
  countSaves (trace (snd out)) = S (countSaves (trace s)).
Proof.
  intros Hstop. cbv zeta.
  destruct (shuffleFrom_Permutation env
              (length (searchCombinations (queuesToSearch o) tds) - 1)
              (searchCombinations (queuesToSearch o) tds) (newSearch s))
    as (l' & Hrun & _).
  rewrite drawn_state in Hrun.
  match type of Hrun with _ = (_, ?st) => set (s1 := st) in * end.
  destruct (mainLoop_stops env (S fuel) (Options.maxPlayers o)
              (mkCacheOptions (Options.activeWithinMinutes o)
                 (Options.minWinRate o) lo hi) fuel l' s1)
    as (s2 & Hloop & Hres & Hreq & Hcache & Hsaves); [reflexivity | exact Hstop |].
  assert (E : runSearch env (S fuel) o tds lo hi s
              = (Val (results s2), record EvSaveCache (writeCacheFile s2))).
  { unfold runSearch. cbv zeta. unfold bind at 1, modify at 1. cbn [fst snd].
    unfold shuffleArray. rewrite (bind_run _ _ _ _ _ Hrun).
    rewrite (bind_run _ _ _ _ _ Hloop).
    rewrite (bind_run _ _ _ _ _ (saveCache_run s2)). reflexivity. }
  rewrite E. cbn [fst snd record writeCacheFile results requests playerCache
    cacheFile trace].
  rewrite countSaves_snoc, Hres, Hreq, Hcache, Hsaves. simpl.
  repeat split; lia.
Qed.

(** X13. A search for no player at all, or one that finds the abort flag
    raised at its first poll, ends at the first check of its main loop: with
    an accepted [lpRange], [scoutPlayers] returns the empty list, without an
    error and without any request, and still saves the cache, once. *)
Theorem scoutPlayers_stops_at_once env fuel (o : Options.t) (s : State) :
  lpRangeAccepted o = true ->
  Options.maxPlayers o = 0%nat \/
  (exists hook, isSearchAborted env = Some hook /\ hook (polls s) = true) ->
  let out := scoutPlayers env (S fuel) o s in
  fst out = Val [] /\ requests (snd out) = requests s /\
  playerCache (snd out) = playerCache s /\ cacheFile (snd out) = playerCache s /\
  countSaves (trace (snd out)) = S (countSaves (trace s)).
Proof.
  intros Hacc Hstop. unfold scoutPlayers. unfold lpRangeAccepted in Hacc.
  destruct (Options.lpRange o) as [[|c r]|]; try (apply runSearch_stops, Hstop).
  destruct (matchLpRange (String c r)) as [[lo hi]|]; [|discriminate].
  apply runSearch_stops, Hstop.
Qed.

Lemma scoutPlayers_stops_at_once_witness :
  fst (scoutPlayers (abortingEnv 0) 10 sampleOptions warmState) = Val [] /\
  cacheFile (snd (scoutPlayers (abortingEnv 0) 10 sampleOptions warmState))
  = playerCache warmState.
Proof.
  pose proof (scoutPlayers_stops_at_once (abortingEnv 0) 9 sampleOptions warmState
                eq_refl
                (or_intror (ex_intro _ (fun k => (0 <=? k)%nat)
                                       (conj eq_refl eq_refl)))) as H.
  cbv zeta in H. split; [apply H | apply H].
Defined.

(** ** A refused key *)

Lemma filter_all {A} (f : A -> bool) (l : list A) :
  (forall x, In x l -> f x = true) -> List.filter f l = l.
Proof.
  induction l as [|x l IH]; intros H; simpl; [reflexivity|].
  rewrite (H x (or_introl eq_refl)), IH; [reflexivity|].
  intros y Hy. apply H. now right.
Qed.

Lemma activeCombinations_all (combos : list Combo.t) :
  Forall (fun c => Combo.maxPageReached c = false) combos ->
  activeCombinations combos = seq 0 (length combos).
Proof.
  intros Hall. unfold activeCombinations. apply filter_all.
  intros i Hi. apply in_seq in Hi as [_ Hi]. simpl in Hi.
  destruct (lookup_lt_is_Some_2 combos i Hi) as [c Hc]. rewrite Hc.
  rewrite Forall_forall in Hall.
  now rewrite (Hall c (list_elem_of_lookup_2 _ _ _ Hc)).
Qed.

Lemma weight_untried (c : Combo.t) :
  weight c = 51%nat ->
  Combo.maxPageReached c = false /\ length (untriedPages c) = 50%nat.
Proof.
  unfold weight. destruct (Combo.maxPageReached c); [discriminate|].
  intros [= H]. auto.
Qed.

Lemma refused_is_not_ok {A} (r : Response A) : status r = 403 -> ok r = false.
Proof. unfold ok. intros ->. reflexivity. Qed.

Lemma searchAborted_false env s :
  (forall hook, isSearchAborted env = Some hook -> hook (polls s) = false) ->
  exists s',
    searchAborted env s = (Val false, s') /\
    requests s' = requests s /\ cacheFile s' = cacheFile s /\
    countSaves (trace s') = countSaves (trace s) /\
    now s' = now s /\ lastRequest s' = lastRequest s.
Proof.
  intros Hq. unfold searchAborted.
  destruct (isSearchAborted env) as [hook|].
  - unfold bind, gets, modify. cbn [fst snd]. rewrite (Hq hook eq_refl).
    eexists. split; [reflexivity|]. cbn [record countPoll requests cacheFile
      trace now lastRequest]. rewrite countSaves_snoc. simpl.
    repeat split; lia.
  - exists s. repeat split; reflexivity.
Qed.

Lemma countSaves_fetched url s :
  countSaves (trace (record (EvFetch url) (countRequest (snd (rateLimiterWait s)))))
  = countSaves (trace s).
Proof.
  rewrite rateLimiterWait_run. cbn [snd].
  destruct (_ <? _); cbn [record countRequest stampRequest advanceClock trace];
    rewrite !countSaves_snoc; simpl; lia.
Qed.

Lemma cacheFile_fetched url s :
  cacheFile (record (EvFetch url) (countRequest (snd (rateLimiterWait s))))
  = cacheFile s.
Proof. rewrite rateLimiterWait_run. cbn [snd]. now destruct (_ <? _). Qed.

(** The first round of the main loop, when the provider refuses the key. *)
Lemma mainLoop_refused env gas maxPlayers co fuel combos s :
  (0 < maxPlayers)%nat -> results s = [] ->
  combos <> [] -> Forall (fun c => weight c = 51%nat) combos ->
  (forall hook, isSearchAborted env = Some hook -> hook (polls s) = false) ->
  (forall q t d page, status (leagueExp env (requests s) q t d page) = 403) ->
  exists s',
    mainLoop env (S gas) maxPlayers co (S fuel) combos s = (Throw ApiKeyInvalid, s') /\
    requests s' = S (requests s) /\ cacheFile s' = cacheFile s /\
    countSaves (trace s') = countSaves (trace s).
Proof.
  intros Hmax Hres Hne Hw Hq Hrefused.
  cbn [mainLoop]. unfold resultsFull, bind at 1, gets at 1. cbn [fst snd].
  rewrite Hres. cbn [length].
  destruct maxPlayers as [|m]; [lia|]. cbn [Nat.leb].
  destruct (searchAborted_false env s Hq) as (s1 & Hab & R1 & F1 & C1 & _).
  rewrite (bind_run _ _ _ _ _ Hab).
  rewrite activeCombinations_all
    by (eapply Forall_impl; [exact Hw | intros c Hc; apply (weight_untried c Hc)]).
  destruct combos as [|c0 combos']; [contradiction|].
  set (combos := c0 :: combos') in *.
  assert (Hlen : (0 < length combos)%nat) by (simpl; lia).
  destruct (seq 0 (length combos)) as [|i0 rest] eqn:Eseq.
  { apply (f_equal (@length nat)) in Eseq. rewrite length_seq in Eseq.
    simpl in Eseq. lia. }
  rewrite <- Eseq. clear i0 rest Eseq.
  rewrite (bind_run _ _ _ _ _ (randomIndex_run env _ s1)).
  rewrite length_seq.
  set (k := (random env (draws s1) mod length combos)%nat).
  assert (Hk : (k < length combos)%nat)
    by (apply Nat.mod_upper_bound; lia).
  rewrite (lookup_seq_lt 0 (length combos) k Hk). cbn [Nat.add].
  destruct (lookup_lt_is_Some_2 combos k Hk) as [c Hc]. rewrite Hc.
  rewrite Forall_forall in Hw.
  destruct (weight_untried c (Hw c (list_elem_of_lookup_2 _ _ _ Hc)))
    as [_ Hpages].
  destruct (untriedPages c) as [|p0 pages] eqn:Epages; [discriminate|].
  rewrite (bind_run _ _ _ _ _ (randomIndex_run env _ (countDraw s1))).
  match goal with |- context [(p0 :: pages) !! ?i] => set (r := i) end.
  assert (Hr : (r < length (p0 :: pages))%nat)
    by (apply Nat.mod_upper_bound; simpl; lia).
  destruct (lookup_lt_is_Some_2 (p0 :: pages) r Hr) as [page Hpage].
  rewrite Hpage. cbv zeta. unfold getLeagueEntries.
  unfold bind at 1. rewrite apiRequest_step. cbv zeta.
  cbn [countDraw requests]. rewrite R1.
  rewrite (refused_is_not_ok _ (Hrefused _ _ _ _)), (Hrefused _ _ _ _).
  cbn [Z.eqb Pos.eqb]. eexists. split; [reflexivity|].
  rewrite fetched_requests, cacheFile_fetched, countSaves_fetched.
  cbn [countDraw requests cacheFile trace]. rewrite R1, F1, C1. auto.
Qed.

Lemma runSearch_refused env fuel o tds lo hi s :
  (0 < Options.maxPlayers o)%nat ->
  (0 < length (queuesToSearch o) * length tds)%nat ->
  (forall hook, isSearchAborted env = Some hook -> hook (polls s) = false) ->
  (forall q t d page, status (leagueExp env (requests s) q t d page) = 403) ->
  let out := runSearch env (S fuel) o tds lo hi s in
  fst out = Throw ApiKeyInvalid /\ requests (snd out) = S (requests s) /\
  cacheFile (snd out) = cacheFile s /\
  countSaves (trace (snd out)) = countSaves (trace s).
Proof.
  intros Hmax Hcount Hq Hrefused. cbv zeta.
  destruct (shuffleFrom_Permutation env
              (length (searchCombinations (queuesToSearch o) tds) - 1)
              (searchCombinations (queuesToSearch o) tds) (newSearch s))
    as (l' & Hrun & Hperm).
  rewrite drawn_state in Hrun.
  match type of Hrun with _ = (_, ?st) => set (s1 := st) in * end.
  destruct (mainLoop_refused env fuel (Options.maxPlayers o)
              (mkCacheOptions (Options.activeWithinMinutes o)
                 (Options.minWinRate o) lo hi) fuel l' s1)
    as (s2 & Hloop & Hreq & Hfile & Hsaves); auto.
  - intros ->. apply Permutation_length in Hperm.
    rewrite searchCombinations_length in Hperm. simpl in Hperm. lia.
  - rewrite Hperm. apply searchCombinations_weight.
  - assert (E : runSearch env (S fuel) o tds lo hi s = (Throw ApiKeyInvalid, s2)).
    { unfold runSearch. cbv zeta. unfold bind at 1, modify at 1. cbn [fst snd].
      unfold shuffleArray. rewrite (bind_run _ _ _ _ _ Hrun).
      unfold bind at 1. now rewrite Hloop. }
    rewrite E. cbn [fst snd]. rewrite Hreq, Hfile, Hsaves. auto.
Qed.

(** X14. A refused key ends the search at once: when the provider answers
    the first ladder request with 403, [scoutPlayers], started for at least
    one player and one combination and not aborted, throws the error of the
    invalid key after that single request; nothing is returned and the cache
    is not saved. *)
Theorem scoutPlayers_invalid_key env fuel (o : Options.t) (s : State) :
  (0 < Options.maxPlayers o)%nat ->
  (0 < searchCombinationCount o)%nat ->
  (forall hook, isSearchAborted env = Some hook -> hook (polls s) = false) ->
  (forall q t d page, status (leagueExp env (requests s) q t d page) = 403) ->
  let out := scoutPlayers env (S fuel) o s in
  fst out = Throw ApiKeyInvalid /\ requests (snd out) = S (requests s) /\
  cacheFile (snd out) = cacheFile s /\
  countSaves (trace (snd out)) = countSaves (trace s).
Proof.
  intros Hmax Hcount Hq Hrefused. unfold scoutPlayers.
  unfold searchCombinationCount in Hcount. cbv zeta in Hcount.
  destruct (Options.lpRange o) as [[|c r]|];
    try (apply runSearch_refused; auto; simpl; lia).
  destruct (matchLpRange (String c r)) as [[lo hi]|]; [|lia].
  apply runSearch_refused; auto.
Qed.

Lemma scoutPlayers_invalid_key_witness :
  let env := mkEnv (fun _ _ _ _ _ => mkResponse 403 None)
               (summonerByPuuid sampleEnv) (leagueBySummoner sampleEnv)
               (accountByPuuid sampleEnv) (matchIds sampleEnv)
               (matchDetails sampleEnv) (random sampleEnv) None true true in
  fst (scoutPlayers env 10 sampleOptions warmState) = Throw ApiKeyInvalid /\
  requests (snd (scoutPlayers env 10 sampleOptions warmState)) = 1%nat.
Proof.
  intros env.
  pose proof (scoutPlayers_invalid_key env 9 sampleOptions warmState) as H.
  cbv zeta in H. split; apply H; try (vm_compute; lia); try discriminate;
    reflexivity.
Defined.

(** ** A player answered from the cache *)

(** X15. A ladder entry that passes the filters of the page and has a usable
    record in the cache is answered from the cache alone: [processEntry]
    makes no request, appends the record to the results with its activity
    aged to the present and marked [fromCache], marks the player seen, and
    leaves the cache as it is (the record is not refreshed). *)
Theorem processEntry_cache_hit env gas maxPlayers (co : CacheOptions)
    (q t d : string) (entry : Entry.t) (c : CachedPlayer) (s : State) :
  (length (results s) < maxPlayers)%nat ->
  (forall hook, isSearchAborted env = Some hook -> hook (polls s) = false) ->
  outsideLpRange co (toTotalLP t d (Entry.leaguePoints entry)) = false ->
  js_lt (entryWinRate (Entry.wins entry) (Entry.losses entry)) (minWinRate co)
  = false ->
  Entry.puuid entry <> EmptyString ->
  Entry.puuid entry ∉ seenPuuids s ->
  playerCache s !! Entry.puuid entry = Some c ->
  now s - cachedAt c <= CACHE_MAX_AGE ->
  cachedPlayerMeetsCriteria (now s) c co = true ->
  let out := processEntry env gas maxPlayers co q t d entry s in
  fst out = Val Next /\
  results (snd out) = results s ++ [playerFromCache (now s) c] /\
  Player.fromCache (playerFromCache (now s) c) = true /\
  requests (snd out) = requests s /\
  playerCache (snd out) = playerCache s /\
  Entry.puuid entry ∈ seenPuuids (snd out).
Proof.
  intros Hroom Hq Hlp Hwr Hid Hseen Hc Hage Hmeets. cbv zeta.
  destruct (searchAborted_false env s Hq) as (s1 & Hab & R1 & _ & _ & N1 & _).
  assert (S1 : results s1 = results s /\ seenPuuids s1 = seenPuuids s /\
               playerCache s1 = playerCache s).
  { pose proof (leaves_searchAborted env s) as H. rewrite Hab in H. exact H. }
  destruct S1 as (Hr1 & Hs1 & Hc1).
  assert (E : processEntry env gas maxPlayers co q t d entry s
              = (Val Next,
                 snd (notifyPlayerFound env (playerFromCache (now s) c)
                        (pushResult (playerFromCache (now s) c)
                           (addSeen (Entry.puuid entry) s1))))).
  { unfold processEntry, resultsFull, bind at 1, gets at 1. cbn [fst snd].
    apply Nat.leb_gt in Hroom. rewrite Hroom.
    rewrite (bind_run _ _ _ _ _ Hab). rewrite Hlp, Hwr. cbv zeta.
    apply String.eqb_neq in Hid. rewrite Hid.
    unfold hasSeen, bind at 1, gets at 1. cbn [fst snd].
    rewrite Hs1, (bool_decide_eq_false_2 _ Hseen).
    assert (Hhit : usableCached co (Entry.puuid entry) s1 = (Val (Some c), s1)).
    { unfold usableCached, getCachedPlayer, cacheLookup, bind, gets.
      cbn [fst snd]. rewrite Hc1, Hc, N1.
      apply Z.ltb_ge in Hage. rewrite Hage, Hmeets. reflexivity. }
    rewrite (bind_run _ _ _ _ _ Hhit).
    unfold acceptCached, bind, modify, gets. cbn [fst snd]. cbn [addSeen now].
    rewrite N1. unfold notifyPlayerFound.
    destruct (sendPlayerFound env); reflexivity. }
  rewrite E. cbn [fst snd]. unfold notifyPlayerFound.
  destruct (sendPlayerFound env); cbn [snd modify ret record pushResult addSeen
    results requests playerCache seenPuuids];
    rewrite Hr1, R1, Hc1, Hs1; repeat split; auto;
    apply elem_of_union_l, elem_of_singleton; reflexivity.
Qed.

Lemma processEntry_cache_hit_witness :
  let out := processEntry sampleEnv 5 5
               (mkCacheOptions 30 0 None None) "RANKED_SOLO_5x5" "GOLD" "II"
               entryP1 warmState in
  fst out = Val Next /\
  results (snd out) = [playerFromCache 1200000 (mkCached playerP1 1100000)] /\
  Player.fromCache (playerFromCache 1200000 (mkCached playerP1 1100000)) = true /\
  requests (snd out) = 0%nat /\
  playerCache (snd out) = playerCache warmState /\
  "p1" ∈ seenPuuids (snd out).
Proof.
  apply (processEntry_cache_hit sampleEnv 5 5
           (mkCacheOptions 30 0 None None) "RANKED_SOLO_5x5" "GOLD" "II"
           entryP1 (mkCached playerP1 1100000) warmState).
  - simpl. lia.
  - intros hook [= <-]. reflexivity.
  - reflexivity.
  - reflexivity.
  - discriminate.
  - apply not_elem_of_empty.
  - vm_compute. reflexivity.
  - vm_compute. discriminate.
  - reflexivity.
Defined.

(** ** The cache only grows *)

Ltac growing :=
  intros;
  cbn [playerCache record advanceClock stampRequest countRequest countDraw
       countPoll setCache writeCacheFile addSeen addProcessed pushResult];
  cbv beta in *; auto.

Lemma grown_searchProperty env o (base : gmap string CachedPlayer) :
  searchProperty env o
    (fun s => forall k, is_Some (base !! k) -> is_Some (playerCache s !! k))
    (fun _ => True).
Proof.
  split; try exact (fun _ _ => I); try (intros; exact I).
  - unfold sleep. keep_by growing.
  - intros url s Hs.
    assert (H : keeps (fun s => forall k, is_Some (base !! k) ->
                                 is_Some (playerCache s !! k)) rateLimiterWait)
      by (unfold rateLimiterWait, sleep; keep_by growing).
    exact (H s Hs).
  - unfold searchAborted. keep_by growing.
  - intros n. unfold randomIndex. keep_by growing.
  - intros b n. unfold notifyRateLimit. keep_by growing.
  - intros p. unfold cachePlayer, saveCache.
    keep_by ltac:(growing; try (apply lookup_insert_is_Some';
                               right; auto)).
  - unfold saveCache. keep_by growing.
  - growing.
  - growing.
  - growing.
  - intros p s _ Hs. unfold notifyPlayerFound.
    destruct (sendPlayerFound env); exact Hs.
Qed.

(** X16. A search never drops a record from the cache in memory, however it
    ends: every identifier cached before [scoutPlayers] is still cached after
    it.  Records are added or overwritten, never evicted, not even the ones
    [getCachedPlayer] no longer returns. *)
Theorem scoutPlayers_cache_grows env fuel (o : Options.t) (s : State) (k : string) :
  is_Some (playerCache s !! k) ->
  is_Some (playerCache (snd (scoutPlayers env fuel o s)) !! k).
Proof.
  revert k.
  assert (Hrun : forall tds lo hi k,
            is_Some (playerCache s !! k) ->
            is_Some (playerCache (snd (runSearch env fuel o tds lo hi s)) !! k)).
  { intros tds lo hi.
    apply (keeps_runSearch env fuel o tds lo hi _ _
             (grown_searchProperty env _ (playerCache s))).
    auto. }
  unfold scoutPlayers.
  destruct (Options.lpRange o) as [[|c r]|]; try apply Hrun.
  destruct (matchLpRange (String c r)) as [[lo hi]|]; [apply Hrun|].
  auto.
Qed.

Lemma scoutPlayers_cache_grows_witness :
  is_Some (playerCache (snd (scoutPlayers sampleEnv 10 sampleOptions warmState))
           !! "p1") /\
  size (playerCache (snd (scoutPlayers sampleEnv 10 sampleOptions warmState)))
  = 3%nat.
Proof.
  split.
  - apply (scoutPlayers_cache_grows sampleEnv 10 sampleOptions warmState "p1").
    vm_compute. eauto.
  - vm_compute. reflexivity.
Defined.

(** ** Command line *)

Lemma startsWithDashes_key key : Cli.startsWithDashes ("--" +:+ key) = true.
Proof.
  change ("--" +:+ key) with (String "-" (String "-" key)).
  unfold Cli.startsWithDashes. simpl. now destruct key.
Qed.

Lemma slice2_key key : Cli.slice2 ("--" +:+ key) = key.
Proof. reflexivity. Qed.

Lemma render_starts items :
  match flat_map Cli.render items with
  | [] => True
  | arg :: _ => Cli.startsWithDashes arg = true
  end.
Proof.
  destruct items as [|[key value|key] items]; simpl; auto;
    apply startsWithDashes_key.
Qed.

Lemma parseOptions_render items :
  Forall Cli.takenAsValue items ->
  forall options,
    Cli.parseOptions (flat_map Cli.render items) options
    = fold_left Cli.assign items options.
Proof.
  induction 1 as [|item items Hitem _ IH]; intros options; [reflexivity|].
  destruct item as [key value|key].
  - destruct Hitem as [Hne Hnk].
    change (flat_map Cli.render (Cli.WithValue key value :: items))
      with (("--" +:+ key) :: value :: flat_map Cli.render items).
    cbn [Cli.parseOptions]. rewrite startsWithDashes_key, slice2_key. cbv zeta.
    apply String.eqb_neq in Hne. rewrite Hne, Hnk. cbn [negb andb].
    apply IH.
  - change (flat_map Cli.render (Cli.Flag key :: items))
      with (("--" +:+ key) :: flat_map Cli.render items).
    cbn [Cli.parseOptions]. rewrite startsWithDashes_key, slice2_key. cbv zeta.
    pose proof (render_starts items) as Hnext.
    destruct (flat_map Cli.render items) as [|arg rest] eqn:E.
    + destruct items as [|[k v|k] items']; [reflexivity | discriminate | discriminate].
    + rewrite Hnext, andb_false_r. rewrite IH. reflexivity.
Qed.

(** X17. [parseArgs] reads back a command line written as keys with values
    and bare flags: after the two leading entries of [process.argv], the
    first argument is the command, [--key value] gives the key that value,
    [--key] alone (before another key or at the end) gives it [true], and of
    a repeated key the last occurrence stands.  The values are those the
    loop takes as values: not empty and not starting with two dashes. *)
Theorem parseArgs_render (node script cmd : string) (items : list Cli.Item) :
  Forall Cli.takenAsValue items ->
  Cli.parseArgs (node :: script :: cmd :: flat_map Cli.render items)
  = Cli.mkParsed (Some cmd) (fold_left Cli.assign items ∅).
Proof.
  intros H. unfold Cli.parseArgs. cbn [drop head tail]. cbv zeta.
  cbn [head tail]. now rewrite parseOptions_render.
Qed.

Lemma parseArgs_render_witness :
  Cli.parseArgs ["node"; "cli.js"; "scout"; "--tier"; "GOLD"; "--verbose";
                 "--max"; "5"; "--tier"; "IRON"]
  = Cli.mkParsed (Some "scout")
      (fold_left Cli.assign
         [Cli.WithValue "tier" "GOLD"; Cli.Flag "verbose";
          Cli.WithValue "max" "5"; Cli.WithValue "tier" "IRON"] ∅) /\
  fold_left Cli.assign
    [Cli.WithValue "tier" "GOLD"; Cli.Flag "verbose";
     Cli.WithValue "max" "5"; Cli.WithValue "tier" "IRON"] ∅
  !! "tier" = Some (Cli.ArgText "IRON").
Proof.
  split.
  - apply (parseArgs_render "node" "cli.js" "scout"
             [Cli.WithValue "tier" "GOLD"; Cli.Flag "verbose";
              Cli.WithValue "max" "5"; Cli.WithValue "tier" "IRON"]).
    repeat constructor; discriminate.
  - vm_compute. reflexivity.
Defined.

Lemma setOption_keys key value options k :
  is_Some (Cli.setOption key value options !! k) ->
  k = key /\ key <> "__proto__" \/ is_Some (options !! k).
Proof.
  unfold Cli.setOption. destruct (String.eqb_spec key "__proto__") as [->|Hk];
    [auto|].
  rewrite lookup_insert_is_Some. intros [<-|[_ H]]; auto.
Qed.

Lemma parseOptions_keys args :
  forall options k,
    is_Some (Cli.parseOptions args options !! k) ->
    is_Some (options !! k) \/
    (exists arg, arg ∈ args /\ Cli.startsWithDashes arg = true /\
                 k = Cli.slice2 arg /\ k <> "__proto__").
Proof.
  assert (Hset : forall arg rest value options k,
            Cli.startsWithDashes arg = true ->
            is_Some (Cli.setOption (Cli.slice2 arg) value options !! k) ->
            is_Some (options !! k) \/
            (exists arg', arg' ∈ arg :: rest /\ Cli.startsWithDashes arg' = true /\
                          k = Cli.slice2 arg' /\ k <> "__proto__")).
  { intros arg rest value options k Harg H.
    apply setOption_keys in H as [[-> Hk]|H]; [right|left; exact H].
    exists arg. repeat split; auto. apply list_elem_of_here. }
  assert (Hlater : forall arg rest (k : string),
            (exists arg', arg' ∈ rest /\ Cli.startsWithDashes arg' = true /\
                          k = Cli.slice2 arg' /\ k <> "__proto__") ->
            exists arg', arg' ∈ arg :: rest /\ Cli.startsWithDashes arg' = true /\
                         k = Cli.slice2 arg' /\ k <> "__proto__").
  { intros arg rest k (arg' & Hin & H). exists arg'. split; [|exact H].
    now apply list_elem_of_further. }
  assert (Hn : forall n args, (length args <= n)%nat ->
            forall options k,
              is_Some (Cli.parseOptions args options !! k) ->
              is_Some (options !! k) \/
              (exists arg, arg ∈ args /\ Cli.startsWithDashes arg = true /\
                           k = Cli.slice2 arg /\ k <> "__proto__")).
  { clear args. induction n as [|n IH]; intros args Hlen options k;
      (destruct args as [|arg rest]; [auto|]); simpl in Hlen; [lia|].
    cbn [Cli.parseOptions].
    destruct (Cli.startsWithDashes arg) eqn:Harg.
    - cbv zeta. destruct rest as [|value rest'].
      + apply Hset, Harg.
      + destruct (_ && _).
        * intros H. apply IH in H; [|simpl in *; lia].
          destruct H as [H|H].
          -- apply (Hset arg (value :: rest')) in H; auto.
          -- right. apply Hlater, Hlater, H.
        * intros H. apply IH in H; [|simpl in *; lia].
          destruct H as [H|H].
          -- apply (Hset arg (value :: rest')) in H; auto.
          -- right. apply Hlater, H.
    - intros H. apply IH in H; [|lia].
      destruct H as [H|H]; [auto|]. right. apply Hlater, H. }
  apply (Hn (length args)). lia.
Qed.

(** X18. Every key of the options [parseArgs] returns was written on the
    command line, after the command, as an argument [--key]; arguments that
    do not start with two dashes never become keys, and [__proto__] never is
    one. *)
Theorem parseArgs_keys (argv : list string) (k : string) :
  is_Some (Cli.options (Cli.parseArgs argv) !! k) ->
  k <> "__proto__" /\
  exists arg, arg ∈ drop 3 argv /\ Cli.startsWithDashes arg = true /\
              k = Cli.slice2 arg.
Proof.
  unfold Cli.parseArgs. cbn [Cli.options]. intros H.
  apply parseOptions_keys in H as [H|(arg & Hin & Hd & Hk & Hp)].
  - rewrite lookup_empty in H. now destruct H.
  - split; [exact Hp|]. exists arg. split; [|auto].
    destruct argv as [|a0 [|a1 [|a2 rest]]]; simpl in *; auto;
      now apply elem_of_nil in Hin.
Qed.

Lemma parseArgs_keys_witness :
  exists arg,
    arg ∈ ["--tier"; "GOLD"; "plain"; "--max"] /\
    Cli.startsWithDashes arg = true /\ "max" = Cli.slice2 arg.
Proof.
  apply (parseArgs_keys ["node"; "cli.js"; "scout"; "--tier"; "GOLD"; "plain"; "--max"]
           "max").
  vm_compute. eauto.
Defined.

(** ** The request gate of the sequential engine *)

Lemma legacy_rateLimiterWait_run (s : State) :
  Legacy.rateLimiterWait s
  = (Val tt,
     if now s - lastRequest s <? Legacy.minDelay
     then stampRequest
            (record (EvSleep (Legacy.minDelay - (now s - lastRequest s)))
                    (advanceClock (Legacy.minDelay - (now s - lastRequest s)) s))
     else stampRequest s).
Proof.
  unfold Legacy.rateLimiterWait, bind, gets. simpl.
  destruct (now s - lastRequest s <? Legacy.minDelay); reflexivity.
Qed.

Lemma legacy_wait_fields (s : State) :
  let s1 := snd (Legacy.rateLimiterWait s) in
  now s1 = Z.max (now s) (lastRequest s + Legacy.minDelay) /\
  lastRequest s1 = now s1 /\ requests s1 = requests s /\ polls s1 = polls s.
Proof.
  rewrite legacy_rateLimiterWait_run. cbn [snd].
  destruct (Z.ltb_spec (now s - lastRequest s) Legacy.minDelay); simpl;
    repeat split; lia.
Qed.

(** X19. The gate of scout.js under one overload: when the provider answers
    a request with 429 and the retry with a success, [apiRequest] returns the
    body of the success; in between it has told the rate-limit observer
    [(true, 120)], slept the 120 seconds in one piece, told the observer
    [(false, 0)] and fetched the same address once more without a further
    delay.  The abort predicate is not asked, whatever it would answer. *)
Theorem legacy_apiRequest_one_overload env {A} (fuel : nat) (url : Url)
    (answer : nat -> Response A) (s : State) :
  status (answer (requests s)) = 429 ->
  ok (answer (S (requests s))) = true ->
  exists s',
    Legacy.apiRequest env (S (S fuel)) url answer s
    = (Val (body (answer (S (requests s)))), s') /\
    trace s'
    = trace (snd (Legacy.rateLimiterWait s)) ++ [EvFetch url]
      ++ rateLimitEvents env true 120
      ++ [EvSleep 120000]
      ++ rateLimitEvents env false 0
      ++ [EvFetch url] /\
    now s' = Z.max (now s) (lastRequest s + 50) + 120000 /\
    requests s' = S (S (requests s)) /\
    polls s' = polls s.
Proof.
  intros H429 Hok.
  destruct (legacy_wait_fields s) as (Hn1 & Hl1 & Hr1 & Hp1).
  destruct (Legacy.rateLimiterWait s) as [u s1] eqn:Hw.
  assert (Hu : u = Val tt)
    by (rewrite legacy_rateLimiterWait_run in Hw; now injection Hw as <- _).
  subst u. cbn [snd] in *.
  set (s2 := record (EvFetch url) (countRequest s1)).
  destruct (notifyRateLimit_run env true 120 s2)
    as (s3 & Hnot & Ht3 & Hn3 & Hr3 & Hl3 & Hp3).
  set (s4 := record (EvSleep 120000) (advanceClock 120000 s3)).
  destruct (notifyRateLimit_run env false 0 s4)
    as (s5 & Hnot' & Ht5 & Hn5 & Hr5 & Hl5 & Hp5).
  assert (Hgap : now s5 - lastRequest s5 = 120000).
  { rewrite Hn5, Hl5. simpl. rewrite Hn3, Hl3. simpl. lia. }
  assert (Hreq5 : requests s5 = S (requests s)).
  { rewrite Hr5. simpl. rewrite Hr3. simpl. now rewrite Hr1. }
  exists (record (EvFetch url) (countRequest (stampRequest s5))).
  split; [|split; [|split; [|split]]].
  - cbn [Legacy.apiRequest].
    rewrite (bind_run _ _ _ _ _ Hw), (bind_run _ _ _ _ _ (fetch_run url answer s1)).
    rewrite Hr1, (overload_is_not_ok _ H429), H429.
    cbn [negb Z.eqb Pos.eqb]. fold s2. rewrite (bind_run _ _ _ _ _ Hnot).
    assert (Hsl : sleep 120000 s3 = (Val tt, s4)) by reflexivity.
    rewrite (bind_run _ _ _ _ _ Hsl), (bind_run _ _ _ _ _ Hnot').
    assert (Hw5 : Legacy.rateLimiterWait s5 = (Val tt, stampRequest s5)).
    { rewrite legacy_rateLimiterWait_run, Hgap. reflexivity. }
    rewrite (bind_run _ _ _ _ _ Hw5),
            (bind_run _ _ _ _ _ (fetch_run url answer (stampRequest s5))).
    change (requests (stampRequest s5)) with (requests s5).
    rewrite Hreq5, Hok. reflexivity.
  - simpl. rewrite Ht5. simpl. rewrite Ht3. simpl.
    now rewrite <- !app_assoc.
  - simpl. rewrite Hn5. simpl. rewrite Hn3. simpl. rewrite Hn1.
    change Legacy.minDelay with 50. lia.
  - simpl. now rewrite Hreq5.
  - simpl. rewrite Hp5. simpl. rewrite Hp3. simpl. exact Hp1.
Qed.

Lemma legacy_apiRequest_one_overload_witness :
  exists s',
    Legacy.apiRequest (abortingEnv 0) 2 (LeagueExpUrl "RANKED_SOLO_5x5" "GOLD" "II" 1)
      overloadedOnce sampleState
    = (Val (Some [entryP1; entryP2]), s') /\
    now s' = 1320000 /\ polls s' = 0%nat.
Proof.
  destruct (legacy_apiRequest_one_overload (abortingEnv 0) 0
              (LeagueExpUrl "RANKED_SOLO_5x5" "GOLD" "II" 1)
              overloadedOnce sampleState)
    as (s' & Hrun & _ & Hnow & _ & Hpolls).
  - reflexivity.
  - reflexivity.
  - exists s'. split; [exact Hrun|]. split; [exact Hnow | exact Hpolls].
Defined.



(** ** The rate-limit indicator *)







Example apiRequest_all_clear_example :
  rateLimitsShown
    (trace (snd (apiRequest sampleEnv 2 (LeagueExpUrl "RANKED_SOLO_5x5" "GOLD" "II" 1)
                   overloadedOnce sampleState)))
  = [(true, 120); (false, 0)] /\
  rateLimitsShown
    (trace (snd (apiRequest (abortingEnv 2) 5
                   (LeagueExpUrl "RANKED_SOLO_5x5" "GOLD" "II" 2)
                   (fun k => leagueExp (abortingEnv 2) k "RANKED_SOLO_5x5" "GOLD" "II" 2)
                   sampleState)))
  = [(true, 120)].
Proof. split; vm_compute; reflexivity. Qed.

(** ** The errors of a search *)

Lemma neverThrows_ret {A} (a : A) : neverThrows (ret a).
Proof. intros s e. discriminate. Qed.

Lemma neverThrows_diverge {A} : neverThrows (@diverge A).
Proof. intros s e. discriminate. Qed.

Lemma neverThrows_gets {A} (f : State -> A) : neverThrows (gets f).
Proof. intros s e. discriminate. Qed.

Lemma neverThrows_modify f : neverThrows (modify f).
Proof. intros s e. discriminate. Qed.

Lemma neverThrows_bind {A B} (m : M A) (f : A -> M B) :
  neverThrows m -> (forall a, neverThrows (f a)) -> neverThrows (bind m f).
Proof.
  intros Hm Hf s e. specialize (Hm s). unfold bind.
  destruct (m s) as [[a|e'|] s1]; simpl in *.
  - apply Hf.
  - now destruct (Hm e').
  - discriminate.
Qed.

(** A handler that does not throw makes the whole [try] silent. *)
Lemma neverThrows_tryCatch {A} (m : M A) (h : Error -> M A) :
  (forall e, neverThrows (h e)) -> neverThrows (tryCatch m h).
Proof.
  intros Hh s e. unfold tryCatch.
  destruct (m s) as [[a|e'|] s1]; simpl; try discriminate. apply Hh.
Qed.

Lemma neverThrows_forOf {A} (body : A -> M Ctl) (l : list A) :
  (forall x, neverThrows (body x)) -> neverThrows (forOf l body).
Proof.
  intros Hb. induction l as [|x l IH]; simpl; [apply neverThrows_ret|].
  apply neverThrows_bind; [apply Hb|].
  intros [|]; [exact IH | apply neverThrows_ret].
Qed.

Create HintDb calm.

Ltac calm :=
  repeat first
    [ apply neverThrows_ret | apply neverThrows_diverge
    | apply neverThrows_gets | apply neverThrows_modify
    | solve [auto with calm]
    | apply neverThrows_forOf; intros ?
    | apply neverThrows_tryCatch; intros ?
    | apply neverThrows_bind; [|intros ?]
    | match goal with
      | |- neverThrows (if ?b then _ else _) => destruct b
      | |- neverThrows (match ?x with _ => _ end) => destruct x
      | |- neverThrows (let _ := _ in _) => cbv zeta
      end ].

Lemma neverThrows_searchAborted env : neverThrows (searchAborted env).
Proof. unfold searchAborted. calm. Qed.

Lemma neverThrows_notifyPlayerFound env p : neverThrows (notifyPlayerFound env p).
Proof. unfold notifyPlayerFound. calm. Qed.

Lemma neverThrows_randomIndex env n : neverThrows (randomIndex env n).
Proof. unfold randomIndex. calm. Qed.

Lemma neverThrows_cachePlayer p : neverThrows (cachePlayer p).
Proof. unfold cachePlayer, saveCache. calm. Qed.

Lemma neverThrows_saveCache : neverThrows saveCache.
Proof. unfold saveCache. calm. Qed.

Lemma neverThrows_usableCached o p : neverThrows (usableCached o p).
Proof. unfold usableCached, getCachedPlayer. calm. Qed.

Lemma neverThrows_shuffleFrom env {A} i :
  forall l : list A, neverThrows (shuffleFrom env i l).
Proof.
  pose proof (neverThrows_randomIndex env).
  induction i as [|i IH]; intros l; simpl; calm.
Qed.

Lemma neverThrows_shuffleArray env {A} (l : list A) :
  neverThrows (shuffleArray env l).
Proof. apply neverThrows_shuffleFrom. Qed.

#[global] Hint Resolve neverThrows_searchAborted neverThrows_notifyPlayerFound
  neverThrows_randomIndex neverThrows_cachePlayer neverThrows_saveCache
  neverThrows_usableCached neverThrows_shuffleArray : calm.

Lemma neverThrows_getLastActiveMinutes env gas p :
  neverThrows (getLastActiveMinutes env gas p).
Proof. unfold getLastActiveMinutes. calm. Qed.

Lemma neverThrows_resolveName env gas p : neverThrows (resolveName env gas p).
Proof. unfold resolveName. calm. Qed.

Lemma neverThrows_acceptCached env p c : neverThrows (acceptCached env p c).
Proof. unfold acceptCached. calm. Qed.

#[global] Hint Resolve neverThrows_getLastActiveMinutes neverThrows_resolveName
  neverThrows_acceptCached : calm.

Lemma neverThrows_processParticipant env gas maxPlayers co puuid a pp :
  neverThrows (processParticipant env gas maxPlayers co puuid a pp).
Proof. unfold processParticipant, resultsFull, hasSeen. calm. Qed.

Lemma neverThrows_expandMatch env gas maxPlayers co puuid a :
  neverThrows (expandMatch env gas maxPlayers co puuid a).
Proof.
  pose proof (neverThrows_processParticipant env gas maxPlayers co puuid a).
  unfold expandMatch, resultsFull. calm.
Qed.

Lemma neverThrows_processEntry env gas maxPlayers (co : CacheOptions)
    (q t d : string) (entry : Entry.t) :
  neverThrows (processEntry env gas maxPlayers co q t d entry).
Proof.
  pose proof (neverThrows_expandMatch env gas maxPlayers co).
  unfold processEntry, resultsFull, hasSeen. calm.
Qed.

(** X21. Looking at a ladder entry never fails: whatever the provider
    answers to the requests for the player's activity, name and match
    participants (a refused key and an abort during a cool-down included),
    [processEntry] ends without an exception.  The activity and name lookups
    catch their errors, and so does the look at each participant. *)
Theorem processEntry_never_throws env gas maxPlayers (co : CacheOptions)
    (q t d : string) (entry : Entry.t) (s : State) (e : Error) :
  fst (processEntry env gas maxPlayers co q t d entry s) <> Throw e.
Proof. apply neverThrows_processEntry. Qed.

Lemma processEntry_never_throws_witness :
  let env := mkEnv (leagueExp sampleEnv) (summonerByPuuid sampleEnv)
               (leagueBySummoner sampleEnv) (fun _ _ => mkResponse 403 None)
               (matchIds sampleEnv) (matchDetails sampleEnv)
               (random sampleEnv) None true true in
  fst (processEntry env 5 5 (mkCacheOptions 30 0 None None)
         "RANKED_SOLO_5x5" "GOLD" "II" entryP1 sampleState)
  <> Throw ApiKeyInvalid.
Proof.
  intros env.
  apply (processEntry_never_throws env 5 5 (mkCacheOptions 30 0 None None)
           "RANKED_SOLO_5x5" "GOLD" "II" entryP1 sampleState ApiKeyInvalid).
Defined.








(** ** The sequential engine *)

Lemma leaves_legacy_rateLimiterWait : leavesSearch Legacy.rateLimiterWait.
Proof. unfold Legacy.rateLimiterWait. frame. Qed.

Lemma leaves_legacy_apiRequest env {A} fuel url (answer : nat -> Response A) :
  leavesSearch (Legacy.apiRequest env fuel url answer).
Proof.
  pose proof leaves_legacy_rateLimiterWait.
  induction fuel as [|fuel IH]; simpl; frame.
Qed.

#[global] Hint Resolve leaves_legacy_apiRequest : frame.

Lemma leaves_legacy_getLastActiveMinutes env gas puuid :
  leavesSearch (Legacy.getLastActiveMinutes env gas puuid).
Proof.
  unfold Legacy.getLastActiveMinutes, Legacy.getMatchIds, Legacy.getMatchDetails.
  frame.
Qed.

Lemma leaves_legacy_resolveName env gas puuid :
  leavesSearch (Legacy.resolveName env gas puuid).
Proof. unfold Legacy.resolveName, Legacy.getRiotIdByPuuid. frame. Qed.

Lemma leaves_legacy_getLeagueEntries env gas q t d p :
  leavesSearch (Legacy.getLeagueEntries env gas q t d p).
Proof. apply leaves_legacy_apiRequest. Qed.

#[global] Hint Resolve leaves_legacy_getLastActiveMinutes
  leaves_legacy_resolveName leaves_legacy_getLeagueEntries : frame.

Section LegacyPass.

Variable env : Env.
Variable gas : nat.
Variable maxPlayers : nat.
Variable cacheOptions : CacheOptions.
Variable P : State -> Prop.
Variable good : Player.t -> Prop.

Hypothesis Hgate : forall A fuel url (answer : nat -> Response A),
  keeps P (Legacy.apiRequest env fuel url answer).
Hypothesis Hcache : forall p, keeps P (cachePlayer p).
Hypothesis Hseen : forall x s, P s -> P (addSeen x s).
Hypothesis Hconsole : forall msg s, P s -> P (record (EvConsoleError msg) s).
Hypothesis Hpush : forall p s,
  good p -> P s -> P (snd (notifyPlayerFound env p (pushResult p s))).
Hypothesis Hcached : forall t c,
  cachedPlayerMeetsCriteria t c cacheOptions = true -> good (playerFromCache t c).
Hypothesis Hentry : forall name q tierName divName e a t,
  Legacy.minutesAgo a <= activeWithinMinutes cacheOptions ->
  outsideLpRange cacheOptions (toTotalLP tierName divName (Entry.leaguePoints e))
  = false ->
  js_lt (entryWinRate (Entry.wins e) (Entry.losses e)) (minWinRate cacheOptions)
  = false ->
  good (Legacy.playerFromEntry name q tierName divName e a t).

Lemma keeps_legacy_getLastActiveMinutes puuid :
  keeps P (Legacy.getLastActiveMinutes env gas puuid).
Proof.
  assert (Hc : forall msg, keeps P (modify (record (EvConsoleError msg))))
    by (intros msg; apply keeps_modify, Hconsole).
  unfold Legacy.getLastActiveMinutes, Legacy.getMatchIds, Legacy.getMatchDetails.
  keep.
Qed.

Lemma keeps_legacy_resolveName puuid : keeps P (Legacy.resolveName env gas puuid).
Proof. unfold Legacy.resolveName, Legacy.getRiotIdByPuuid. keep. Qed.

Lemma keeps_legacy_acceptCached pp c s :
  cachedPlayerMeetsCriteria (now s) c cacheOptions = true ->
  P s -> P (snd (acceptCached env pp c s)).
Proof.
  intros Hc Hs. unfold acceptCached.
  change (wp (run modify (addSeen pp);
              do t <- gets now;
              run modify (pushResult (playerFromCache t c));
              notifyPlayerFound env (playerFromCache t c))
             (fun _ s' => P s') s).
  apply wp_bind, wp_modify. apply wp_bind, wp_gets.
  apply wp_bind, wp_modify.
  apply Hpush; [apply Hcached, Hc | apply Hseen, Hs].
Qed.

Lemma keeps_legacy_processEntry q t d entry :
  keeps P (Legacy.processEntry env gas maxPlayers cacheOptions q t d entry).
Proof.
  intros s Hs. unfold Legacy.processEntry, resultsFull.
  change (P (snd (?m s))) with (wp m (fun _ s' => P s') s).
  apply wp_bind, wp_gets.
  destruct (maxPlayers <=? length (results s))%nat; [exact Hs|].
  destruct (outsideLpRange _ _) eqn:Elp; [exact Hs|].
  destruct (js_lt _ _) eqn:Ewr; [exact Hs|].
  cbv zeta. destruct (String.eqb _ _); [exact Hs|].
  unfold hasSeen. apply wp_bind, wp_gets.
  destruct (bool_decide _); [exact Hs|].
  apply wp_bind. unfold wp at 1.
  destruct (usableCached cacheOptions (Entry.puuid entry) s)
    as [[[c|]|e|] s2] eqn:Ehit;
    pose proof (usableCached_state cacheOptions (Entry.puuid entry) s) as E2;
    rewrite Ehit in E2; simpl in E2; subst s2; simpl fst; simpl snd;
    try exact Hs.
  - apply usableCached_meets in Ehit as [_ Hc].
    apply wp_bind. unfold wp at 1.
    pose proof (keeps_legacy_acceptCached (Entry.puuid entry) c s Hc Hs) as H2.
    destruct (acceptCached env (Entry.puuid entry) c s) as [[u|e|] s2]; exact H2.
  - clear Ehit.
    apply wp_bind, (wp_keeps P);
      [apply keeps_legacy_getLastActiveMinutes | exact Hs |].
    intros [[act|]|e|] s2 H2; try exact H2.
    destruct (Z.leb_spec (Legacy.minutesAgo act) (activeWithinMinutes cacheOptions))
      as [Ha|_]; [|exact H2].
    apply wp_bind, wp_modify. apply wp_bind.
    apply (wp_keeps P); [apply keeps_legacy_resolveName | apply Hseen, H2 |].
    intros [name|e|] s3 H3; try exact H3.
    apply wp_bind, wp_gets. cbv zeta. apply wp_bind.
    apply (wp_keeps P); [apply Hcache | exact H3 |].
    intros [u|e|] s4 H4; try exact H4.
    apply wp_bind, wp_modify. apply wp_bind.
    assert (H5 : P (snd (notifyPlayerFound env
                           (Legacy.playerFromEntry name q t d entry act (now s3))
                           (pushResult
                              (Legacy.playerFromEntry name q t d entry act (now s3))
                              s4))))
      by (apply Hpush; [now apply Hentry | exact H4]).
    unfold wp at 1. revert H5. unfold notifyPlayerFound.
    destruct (sendPlayerFound env); simpl; auto.
Qed.

Lemma keeps_legacy_pagesLoop fuel :
  forall q t d page,
    keeps P (Legacy.pagesLoop env gas maxPlayers cacheOptions fuel q t d page).
Proof.
  pose proof keeps_legacy_processEntry.
  induction fuel as [|fuel IH]; intros q t d page; [apply keeps_diverge|].
  cbn [Legacy.pagesLoop]. unfold resultsFull, Legacy.getLeagueEntries. keep.
Qed.

Lemma keeps_legacy_searchQueue fuel tds q :
  keeps P (Legacy.searchQueue env gas maxPlayers cacheOptions fuel tds q).
Proof.
  pose proof (keeps_legacy_pagesLoop fuel).
  unfold Legacy.searchQueue, Legacy.searchDivision, resultsFull. keep.
Qed.

End LegacyPass.

Lemma keeps_legacy_runSearch env fuel o tds lo hi (P : State -> Prop)
    (good : Player.t -> Prop) :
  (forall A fuel url (answer : nat -> Response A),
     keeps P (Legacy.apiRequest env fuel url answer)) ->
  (forall p, keeps P (cachePlayer p)) ->
  keeps P saveCache ->
  (forall x s, P s -> P (addSeen x s)) ->
  (forall msg s, P s -> P (record (EvConsoleError msg) s)) ->
  (forall p s, good p -> P s -> P (snd (notifyPlayerFound env p (pushResult p s)))) ->
  (forall t c,
     cachedPlayerMeetsCriteria t c
       (mkCacheOptions (Options.activeWithinMinutes o) (Options.minWinRate o) lo hi)
     = true -> good (playerFromCache t c)) ->
  (forall name q tierName divName e a t,
     Legacy.minutesAgo a <= Options.activeWithinMinutes o ->
     outsideLpRange
       (mkCacheOptions (Options.activeWithinMinutes o) (Options.minWinRate o) lo hi)
       (toTotalLP tierName divName (Entry.leaguePoints e)) = false ->
     js_lt (entryWinRate (Entry.wins e) (Entry.losses e)) (Options.minWinRate o)
     = false ->
     good (Legacy.playerFromEntry name q tierName divName e a t)) ->
  forall s, P (newSearch s) -> P (snd (Legacy.runSearch env fuel o tds lo hi s)).
Proof.
  intros Hgate Hcache Hsave Hseen Hconsole Hpush Hcached Hentry s Hs.
  assert (K : keeps P
            (run forOf (queuesToSearch o)
                   (Legacy.searchQueue env fuel (Options.maxPlayers o)
                      (mkCacheOptions (Options.activeWithinMinutes o)
                         (Options.minWinRate o) lo hi) fuel tds);
             run saveCache;
             gets results)).
  { pose proof (keeps_legacy_searchQueue env fuel (Options.maxPlayers o) _ P good
                  Hgate Hcache Hseen Hconsole Hpush Hcached Hentry fuel tds).
    keep. }
  exact (K (newSearch s) Hs).
Qed.

Lemma legacy_runSearch_results env fuel o tds lo hi s rs :
  fst (Legacy.runSearch env fuel o tds lo hi s) = Val rs ->
  rs = results (snd (Legacy.runSearch env fuel o tds lo hi s)).
Proof.
  revert rs.
  change (wp (Legacy.runSearch env fuel o tds lo hi)
             (fun r s' => forall rs, r = Val rs -> rs = results s') s).
  unfold Legacy.runSearch. cbv zeta. apply wp_bind, wp_modify.
  apply wp_bind, wp_any. intros [u|e|] s2; try (intros; discriminate).
  apply wp_bind, wp_any. intros [u'|e|] s3; try (intros; discriminate).
  apply wp_gets. now intros rs [= <-].
Qed.

Lemma meetsCriteria_legacy_entry o name q tierName divName e a t :
  Legacy.minutesAgo a <= activeWithinMinutes o ->
  outsideLpRange o (toTotalLP tierName divName (Entry.leaguePoints e)) = false ->
  js_lt (entryWinRate (Entry.wins e) (Entry.losses e)) (minWinRate o) = false ->
  meetsCriteria o (Legacy.playerFromEntry name q tierName divName e a t).
Proof.
  intros Ha Hlp Hwr. unfold meetsCriteria, Legacy.playerFromEntry.
  cbn [Player.lastActiveMinutes Player.totalLP Player.wins Player.losses].
  split; [exact Ha | split; [exact Hlp|]].
  intros Hgames. unfold entryWinRate in Hwr. cbv zeta in Hwr.
  apply Z.ltb_lt in Hgames. now rewrite Hgames in Hwr.
Qed.

(** X23. The sequential engine of scout.js keeps the same promise as the
    randomized one: every player of a list its [scoutPlayers] returns meets
    the criteria of the search, whether it came from the cache or from a
    fresh lookup. *)
Theorem legacy_scoutPlayers_results_meet_criteria env fuel (o : Options.t)
    (s : State) (rs : list Player.t) :
  fst (Legacy.scoutPlayers env fuel o s) = Val rs ->
  Forall (meetsCriteria (searchCriteria o)) rs.
Proof.
  assert (Hrun : forall tds lo hi,
            fst (Legacy.runSearch env fuel o tds lo hi s) = Val rs ->
            Forall (meetsCriteria
                      (mkCacheOptions (Options.activeWithinMinutes o)
                         (Options.minWinRate o) lo hi)) rs).
  { intros tds lo hi E. rewrite (legacy_runSearch_results _ _ _ _ _ _ _ _ E).
    assert (Hsame : forall s0 s',
              sameSearch s0 s' ->
              Forall (meetsCriteria
                        (mkCacheOptions (Options.activeWithinMinutes o)
                           (Options.minWinRate o) lo hi)) (results s0) ->
              Forall (meetsCriteria
                        (mkCacheOptions (Options.activeWithinMinutes o)
                           (Options.minWinRate o) lo hi)) (results s'))
      by (intros s0 s' (-> & _); auto).
    apply (keeps_legacy_runSearch env fuel o tds lo hi
             (fun s => Forall (meetsCriteria
                                 (mkCacheOptions (Options.activeWithinMinutes o)
                                    (Options.minWinRate o) lo hi)) (results s))
             (meetsCriteria (mkCacheOptions (Options.activeWithinMinutes o)
                               (Options.minWinRate o) lo hi))).
    - intros A fuel' url answer.
      apply keeps_leaves; [auto with frame | exact Hsame].
    - intros p s0. now rewrite results_cachePlayer.
    - apply keeps_leaves; [auto with frame | exact Hsame].
    - auto.
    - auto.
    - intros p s0 Hg Hs0. rewrite results_pushed. apply Forall_app. auto.
    - apply meetsCriteria_cached.
    - intros. now apply meetsCriteria_legacy_entry.
    - simpl. constructor. }
  unfold Legacy.scoutPlayers, searchCriteria.
  destruct (Options.lpRange o) as [[|c r]|]; try apply Hrun.
  destruct (matchLpRange (String c r)) as [[lo hi]|]; [apply Hrun|].
  intros [= <-]. constructor.
Qed.

Lemma legacy_scoutPlayers_results_meet_criteria_witness :
  exists rs,
    fst (Legacy.scoutPlayers sampleEnv 10 sampleOptions warmState) = Val rs /\
    map Player.puuid rs = ["p1"; "p2"] /\
    Forall (meetsCriteria (searchCriteria sampleOptions)) rs.
Proof.
  eexists. split; [vm_compute; reflexivity|]. split; [reflexivity|].
  apply (legacy_scoutPlayers_results_meet_criteria sampleEnv 10 sampleOptions
           warmState).
  vm_compute. reflexivity.
Defined.





Section LegacyErrors.

Variable env : Env.
Variable gas : nat.
Variable maxPlayers : nat.
Variable cacheOptions : CacheOptions.

Local Abbreviation refused :=
  (fun e : Error =>
     e = ApiKeyInvalid \/
     exists st q t d page, st <> 429 /\ e = ApiError st (LeagueExpUrl q t d page)).



End LegacyErrors.





Section LegacyResults.

Variable env : Env.
Variable gas : nat.
Variable maxPlayers : nat.
Variable cacheOptions : CacheOptions.

Local Abbreviation Inv := (searchInv maxPlayers).
Local Abbreviation Room := (hasRoom maxPlayers).

Lemma legacy_processEntry_inv q t d entry s :
  Inv s ->
  wp (Legacy.processEntry env gas maxPlayers cacheOptions q t d entry)
     (fun _ s' => Inv s') s.
Proof.
  intros Hi. unfold Legacy.processEntry, resultsFull.
  apply wp_bind, wp_gets.
  destruct (maxPlayers <=? length (results s))%nat eqn:Efull;
    [apply wp_ret, Hi|].
  apply resultsFull_false in Efull.
  destruct (outsideLpRange _ _); [apply wp_ret, Hi|].
  destruct (js_lt _ _); [apply wp_ret, Hi|].
  cbv zeta. destruct (String.eqb _ _); [apply wp_ret, Hi|].
  unfold hasSeen. apply wp_bind, wp_gets.
  destruct (bool_decide _) eqn:Eseen; [apply wp_ret, Hi|].
  apply bool_decide_eq_false in Eseen.
  assert (R0 : Room (Entry.puuid entry) s) by (apply hasRoom_intro; auto).
  destruct (usableCached_run cacheOptions (Entry.puuid entry) s)
    as (hit & Hrun & Hhit).
  apply wp_bind. unfold wp at 1. rewrite Hrun. simpl fst. simpl snd.
  destruct hit as [c|].
  - apply wp_bind. eapply wp_mono.
    + apply acceptCached_inv; [exact R0|].
      destruct Hi as (_ & _ & _ & Hkeyed). apply Hkeyed, Hhit. reflexivity.
    + intros [u|e|] s2 I2; exact I2.
  - apply wp_bind, wp_frame; [auto with frame|].
    intros r s2 H2.
    assert (R2 : Room (Entry.puuid entry) s2) by (eapply hasRoom_same; eauto).
    pose proof (hasRoom_inv _ _ _ R2) as I2.
    destruct r as [[act|]|e|]; try (apply wp_ret, I2); try exact I2.
    destruct (_ <=? _); [|apply wp_ret, I2].
    apply wp_bind, wp_modify. apply wp_bind.
    apply wp_frame; [auto with frame|]. intros r s3 H3.
    assert (R3 : Room (Entry.puuid entry) s3)
      by (eapply hasRoom_same; [exact H3|]; now apply hasRoom_addSeen).
    assert (S3 : Entry.puuid entry ∈ seenPuuids s3).
    { destruct H3 as (_ & -> & _). apply elem_of_union_l, elem_of_singleton.
      reflexivity. }
    destruct r as [name|e|]; try exact (hasRoom_inv _ _ _ R3).
    apply wp_bind, wp_gets. cbv zeta. apply wp_bind, wp_cachePlayer.
    intros s4 Hr4 Hs4 Hc4.
    assert (R4 : Room (Entry.puuid entry) s4) by (eapply hasRoom_cached; eauto).
    apply wp_bind, wp_modify. apply wp_bind.
    apply wp_frame; [auto with frame|]. intros r s5 H5.
    assert (I5 : Inv s5).
    { eapply searchInv_same; [exact H5|]. apply searchInv_push.
      - exact R4.
      - simpl. rewrite Hs4. exact S3. }
    destruct r as [u|e|]; [apply wp_ret, I5 | exact I5 | exact I5].
Qed.

Lemma legacy_pagesLoop_inv fuel :
  forall q t d page s,
    Inv s ->
    wp (Legacy.pagesLoop env gas maxPlayers cacheOptions fuel q t d page)
       (fun _ s' => Inv s') s.
Proof.
  induction fuel as [|fuel IH]; intros q t d page s Hi; [exact Hi|].
  cbn [Legacy.pagesLoop]. unfold resultsFull.
  apply wp_bind, wp_gets.
  destruct (maxPlayers <=? length (results s))%nat; [exact Hi|].
  apply wp_bind, wp_frame; [auto with frame|].
  intros r s1 H1.
  assert (I1 : Inv s1) by (eapply searchInv_same; eauto).
  destruct r as [[[|entry entries]|]|e|]; try exact I1.
  apply wp_bind. eapply wp_mono.
  - apply (wp_forOf _ Inv (fun _ s' => Inv s')); [auto| |exact I1].
    intros x s' Hs'. eapply wp_mono; [apply legacy_processEntry_inv, Hs'|].
    intros [[|]|e|] s'' H; exact H.
  - intros [u|e|] s2 I2; try exact I2. apply IH, I2.
Qed.

Lemma legacy_searchQueue_inv fuel tds q s :
  Inv s ->
  wp (Legacy.searchQueue env gas maxPlayers cacheOptions fuel tds q)
     (fun _ s' => Inv s') s.
Proof.
  intros Hi. unfold Legacy.searchQueue, resultsFull.
  apply wp_bind, wp_gets.
  destruct (maxPlayers <=? length (results s))%nat; [exact Hi|].
  apply wp_bind. eapply wp_mono.
  - apply (wp_forOf _ Inv (fun _ s' => Inv s')); [auto| |exact Hi].
    intros td s1 H1. unfold Legacy.searchDivision, resultsFull.
    apply wp_bind, wp_gets.
    destruct (maxPlayers <=? length (results s1))%nat; [exact H1|].
    apply wp_bind. eapply wp_mono; [apply legacy_pagesLoop_inv, H1|].
    intros [u|e|] s2 I2; exact I2.
  - intros [u|e|] s2 I2; exact I2.
Qed.

End LegacyResults.

Lemma legacy_runSearch_inv env fuel o tds lo hi s :
  cacheKeyed (playerCache s) ->
  searchInv (Options.maxPlayers o) (snd (Legacy.runSearch env fuel o tds lo hi s)).
Proof.
  intros Hkeyed.
  change (wp (Legacy.runSearch env fuel o tds lo hi)
             (fun _ s' => searchInv (Options.maxPlayers o) s') s).
  unfold Legacy.runSearch. cbv zeta.
  apply wp_bind, wp_modify.
  assert (I0 : searchInv (Options.maxPlayers o) (newSearch s)).
  { repeat split; simpl; auto.
    - apply NoDup_nil_2.
    - intros p Hp. inversion Hp.
    - lia. }
  apply wp_bind. eapply wp_mono.
  - apply (wp_forOf _ (searchInv (Options.maxPlayers o))
             (fun _ s' => searchInv (Options.maxPlayers o) s')); [auto| |exact I0].
    intros q s1 H1. eapply wp_mono; [apply legacy_searchQueue_inv, H1|].
    intros [[|]|e|] s2 I2; exact I2.
  - intros [u|e|] s2 I2; exact I2.
Qed.

(** X25. A result list returned by [scoutPlayers] of scout.js never holds two
    entries with the same player identifier and never more than [maxPlayers]
    entries, for a cache that keeps every record under its own identifier
    (as [cachePlayer] stores them); the cache it leaves is such a cache
    again. *)
Theorem legacy_scoutPlayers_results_distinct_bounded env fuel (o : Options.t)
    (s : State) :
  cacheKeyed (playerCache s) ->
  cacheKeyed (playerCache (snd (Legacy.scoutPlayers env fuel o s))) /\
  forall rs,
    fst (Legacy.scoutPlayers env fuel o s) = Val rs ->
    NoDup (map Player.puuid rs) /\ (length rs <= Options.maxPlayers o)%nat.
Proof.
  intros Hkeyed.
  assert (Hrun : forall tds lo hi,
            cacheKeyed (playerCache (snd (Legacy.runSearch env fuel o tds lo hi s))) /\
            forall rs,
              fst (Legacy.runSearch env fuel o tds lo hi s) = Val rs ->
              NoDup (map Player.puuid rs) /\
              (length rs <= Options.maxPlayers o)%nat).
  { intros tds lo hi.
    destruct (legacy_runSearch_inv env fuel o tds lo hi s Hkeyed)
      as (Hnd & _ & Hlen & Hk).
    split; [exact Hk|]. intros rs E.
    rewrite (legacy_runSearch_results _ _ _ _ _ _ _ _ E). auto. }
  unfold Legacy.scoutPlayers.
  destruct (Options.lpRange o) as [[|c r]|]; try apply Hrun.
  destruct (matchLpRange (String c r)) as [[lo hi]|]; [apply Hrun|].
  split; [exact Hkeyed|]. intros rs [= <-].
  split; [apply NoDup_nil_2 | simpl; lia].
Qed.

Lemma legacy_scoutPlayers_results_distinct_bounded_witness :
  exists rs,
    fst (Legacy.scoutPlayers sampleEnv 10 sampleOptions warmState) = Val rs /\
    map Player.fromCache rs = [true; false] /\
    NoDup (map Player.puuid rs) /\ (length rs <= 5)%nat.
Proof.
  eexists. split; [vm_compute; reflexivity|]. split; [reflexivity|].
  apply (legacy_scoutPlayers_results_distinct_bounded sampleEnv 10 sampleOptions
           warmState).
  - intros k c H.
    change (playerCache warmState)
      with ({[ "p1" := mkCached playerP1 1100000 ]} : gmap string CachedPlayer) in H.
    apply lookup_singleton_Some in H as [<- <-]. reflexivity.
  - vm_compute. reflexivity.
Defined.
